(** * Provenance analysis of the ObjC ARC optimizer

    A shallow embedding of [lib/Transforms/ObjCARC/ProvenanceAnalysis.cpp]:
    the escape detector [isStoredObjCPointer], the structural decomposition
    [relatedSelect] / [relatedPHI], the decision procedure [relatedCheck]
    and the memoizing entry point [related].

    The C++ methods mutate one [CachedResults] table; here every method is a
    computation in a state monad over that table.  Recursion through
    [related] is call-stack recursion in the source and is bounded here by
    a [fuel] counter; that enough fuel always exists for a finite IR is a
    theorem, not an assumption. *)

From stdpp Require Import gmap list sets.

(** ** Data model *)

(** A [const Value *] is the address of an IR object.  The source compares
    addresses ([A > B]) to order a pair, so values are numbers. *)
Abbreviation Value := N.
Abbreviation Block := N.

(** Modelled from the spec: the class [PHINode] (declared in the IR headers,
    which are not part of the analysed files).  A phi lives in a block
    ([getParent]) and lists one incoming value per incoming block
    ([getIncomingValue i], [getIncomingBlock i]). *)
Record PHINode := mkPHI {
  getParent : Block;
  incoming : list (Value * Block)
}.

(** Modelled from the spec: the class [SelectInst] with its condition and
    its two arms. *)
Record SelectInst := mkSelect {
  getCondition : Value;
  getTrueValue : Value;
  getFalseValue : Value
}.

(** Modelled from the spec: the closed set of node kinds that the analysis
    inspects with [isa<>] and [dyn_cast<>]. *)
Inductive Kind :=
| Generic
| Load
| Store
| Call
| Phi (PN : PHINode)
| Select (SI : SelectInst)
| PointerCast
| PointerToInt.

(** Modelled from the spec: the verdict of [AliasAnalysis::alias]. *)
Inductive AliasResult := NoAlias | MayAlias | PartialAlias | MustAlias.

(** Modelled from the spec: the IR accessors consumed by the analysis, the
    node-kind tag of a value and its use list; a use is the user together
    with the operand position ([getOperandNo]) at which the value occurs. *)
Record IR := mkIR {
  kind : Value -> Kind;
  uses : Value -> list (Value * nat)
}.

(** The three external collaborators ([GetUnderlyingObjCPtr] and
    [IsObjCIdentifiedObject] of ObjCARC.h, and the alias analysis [AA]):
    they are parameters of the analysis. *)
Record Collaborators := mkCollab {
  GetUnderlyingObjCPtr : Value -> Value;
  IsObjCIdentifiedObject : Value -> bool;
  alias : Value -> Value -> AliasResult
}.

Definition isaStoreInst (k : Kind) : bool :=
  match k with Store => true | _ => false end.
Definition isaCallInst (k : Kind) : bool :=
  match k with Call => true | _ => false end.
Definition isaPtrToIntInst (k : Kind) : bool :=
  match k with PointerToInt => true | _ => false end.
Definition isaLoadInst (k : Kind) : bool :=
  match k with Load => true | _ => false end.
Definition dyn_cast_PHINode (k : Kind) : option PHINode :=
  match k with Phi PN => Some PN | _ => None end.
Definition dyn_cast_SelectInst (k : Kind) : option SelectInst :=
  match k with Select SI => Some SI | _ => None end.

(** Modelled from the spec: [PHINode::getIncomingValueForBlock], the
    incoming value of the first entry whose block is [BB].  The source
    asserts that such an entry exists; [None] is that assertion failing. *)
Fixpoint getIncomingValueForBlock (inc : list (Value * Block)) (BB : Block)
  : option Value :=
  match inc with
  | [] => None
  | (v, b) :: rest =>
      if (b =? BB)%N then Some v else getIncomingValueForBlock rest BB
  end.

(** ** The analysis state *)

Abbreviation ValuePairTy := (Value * Value)%type.

(** Ghost events.  No branch of the code reads them; they record, newest
    first, what an instrumented build would observe: a successful insert of
    the pending entry (line 170), a run of [relatedCheck] (line 174), the
    final overwrite (line 175) and a run of the escape detector. *)
Inductive Event :=
| EvInsert (k : ValuePairTy)
| EvCheck (k : ValuePairTy)
| EvAssign (k : ValuePairTy) (r : bool)
| EvEscape (v : Value).

Record State := mkState {
  CachedResults : gmap (Value * Value) bool;
  trace : list Event
}.

Definition fresh : State := mkState ∅ [].

(** How a call ends: with a value, with a failed assertion, or (in the
    model only) with the fuel used up. *)
Inductive Outcome (A : Type) :=
| Ok (a : A)
| Fault
| OutOfFuel.
Arguments Ok {A} a.
Arguments Fault {A}.
Arguments OutOfFuel {A}.

(** The state is returned with every outcome, so that invariants of the
    cache can be stated for interrupted runs as well. *)
Definition M (A : Type) : Type := State -> Outcome A * State.

Definition ret {A} (a : A) : M A := fun s => (Ok a, s).
Definition bind {A B} (m : M A) (f : A -> M B) : M B :=
  fun s => match m s with
           | (Ok a, s') => f a s'
           | (Fault, s') => (Fault, s')
           | (OutOfFuel, s') => (OutOfFuel, s')
           end.
Definition fault {A} : M A := fun s => (Fault, s).
Definition out_of_fuel {A} : M A := fun s => (OutOfFuel, s).
Definition emit (e : Event) : M unit :=
  fun s => (Ok tt, mkState (CachedResults s) (e :: trace s)).
Definition lookupCache (k : ValuePairTy) : M (option bool) :=
  fun s => (Ok (CachedResults s !! k), s).
Definition storeCache (k : ValuePairTy) (r : bool) : M unit :=
  fun s => (Ok tt, mkState (<[k := r]> (CachedResults s)) (trace s)).

Notation "x <- m ;; f" := (bind m (fun x => f))
  (at level 100, m at next level, f at level 200, right associativity).
Notation "m ;; f" := (bind m (fun _ => f))
  (at level 100, f at level 200, right associativity).

(** [a || b] of the source, with [b] run only when [a] is false. *)
Definition orElse (a b : M bool) : M bool :=
  r <- a ;; if r then ret true else b.

Section Analysis.

Variable ir : IR.
Variable co : Collaborators.

(** ** Escape detection: isStoredObjCPointer *)

(** What the [for] loop over the uses of [P] leaves behind: either the
    function has returned [true], or the loop ended with an updated
    visited set and worklist. *)
Inductive Scan :=
| Escaped
| Scanned (Visited : gset Value) (Worklist : list Value).

(** The loop of lines 82-100.  The worklist is a vector used as a stack;
    its back is the head of the list. *)
Fixpoint scanUses (P : Value) (us : list (Value * nat))
    (Visited : gset Value) (Worklist : list Value) : Scan :=
  match us with
  | [] => Scanned Visited Worklist
  | (Ur, OperandNo) :: rest =>
      if isaStoreInst (kind ir Ur) then
        if (OperandNo =? 0)%nat then Escaped
        else scanUses P rest Visited Worklist
      else if isaCallInst (kind ir Ur) then
        scanUses P rest Visited Worklist
      else if isaPtrToIntInst (kind ir P) then Escaped
      else if decide (Ur ∈ Visited) then scanUses P rest Visited Worklist
      else scanUses P rest ({[Ur]} ∪ Visited) (Ur :: Worklist)
  end.

(** The [do ... while (!Worklist.empty())] loop of lines 80-101, entered
    with the value [P] that [pop_back_val] has just returned and the rest
    of the worklist. *)
Fixpoint drain (fuel : nat) (Visited : gset Value) (P : Value)
    (Worklist : list Value) : option bool :=
  match fuel with
  | O => None
  | S fuel' =>
      match scanUses P (uses ir P) Visited Worklist with
      | Escaped => Some true
      | Scanned Visited' [] => Some false
      | Scanned Visited' (P' :: Worklist') => drain fuel' Visited' P' Worklist'
      end
  end.

(** Lines 75-105: the scan starts with [P] visited and popped. *)
Definition isStoredObjCPointer (fuel : nat) (P : Value) : option bool :=
  drain fuel {[P]} P [].

(** The escape detector as a step of the analysis. *)
Definition escapeCheck (fuel : nat) (P : Value) : M bool :=
  emit (EvEscape P) ;;
  match isStoredObjCPointer fuel P with
  | Some r => ret r
  | None => out_of_fuel
  end.

(** ** Structural decomposition *)

Section Decompose.

(** The recursive entry point, as seen from the decomposition. *)
Variable related : Value -> Value -> M bool.

(** Lines 33-45. *)
Definition relatedSelect (A : SelectInst) (B : Value) : M bool :=
  let arms :=
    orElse (related (getTrueValue A) B) (related (getFalseValue A) B) in
  match dyn_cast_SelectInst (kind ir B) with
  | Some SB =>
      if (getCondition A =? getCondition SB)%N then
        orElse (related (getTrueValue A) (getTrueValue SB))
               (related (getFalseValue A) (getFalseValue SB))
      else arms
  | None => arms
  end.

(** Lines 54-58: the corresponding edges of two phis of one block. *)
Fixpoint relatedEdges (inc : list (Value * Block)) (PNB : PHINode) : M bool :=
  match inc with
  | [] => ret false
  | (v, bb) :: rest =>
      match getIncomingValueForBlock (incoming PNB) bb with
      | None => fault
      | Some w => orElse (related v w) (relatedEdges rest PNB)
      end
  end.

(** Lines 62-67: each unique source of the phi against [B]. *)
Fixpoint relatedSources (inc : list (Value * Block)) (UniqueSrc : gset Value)
    (B : Value) : M bool :=
  match inc with
  | [] => ret false
  | (PV1, _) :: rest =>
      if decide (PV1 ∈ UniqueSrc) then relatedSources rest UniqueSrc B
      else orElse (related PV1 B)
                  (relatedSources rest ({[PV1]} ∪ UniqueSrc) B)
  end.

(** Lines 47-71. *)
Definition relatedPHI (A : PHINode) (B : Value) : M bool :=
  let sources := relatedSources (incoming A) ∅ B in
  match dyn_cast_PHINode (kind ir B) with
  | Some PNB =>
      if (getParent PNB =? getParent A)%N then relatedEdges (incoming A) PNB
      else sources
  | None => sources
  end.

(** Lines 149-160, the part of [relatedCheck] after the shortcuts. *)
Definition decompose (A B : Value) : M bool :=
  match dyn_cast_PHINode (kind ir A) with
  | Some PN => relatedPHI PN B
  | None =>
  match dyn_cast_PHINode (kind ir B) with
  | Some PN => relatedPHI PN A
  | None =>
  match dyn_cast_SelectInst (kind ir A) with
  | Some SI => relatedSelect SI B
  | None =>
  match dyn_cast_SelectInst (kind ir B) with
  | Some SI => relatedSelect SI A
  | None => ret true
  end end end end.

(** ** The decision procedure *)

(** Lines 107-161.  [fuel] bounds the loop of the escape detector. *)
Definition relatedCheck (fuel : nat) (A B : Value) : M bool :=
  let A := GetUnderlyingObjCPtr co A in
  let B := GetUnderlyingObjCPtr co B in
  if (A =? B)%N then ret true
  else
    match alias co A B with
    | NoAlias => ret false
    | MustAlias | PartialAlias => ret true
    | MayAlias =>
        let AIsIdentified := IsObjCIdentifiedObject co A in
        let BIsIdentified := IsObjCIdentifiedObject co B in
        if AIsIdentified then
          if isaLoadInst (kind ir B) then escapeCheck fuel A
          else if BIsIdentified then
            if isaLoadInst (kind ir A) then escapeCheck fuel B
            else ret false
          else decompose A B
        else if BIsIdentified then
          if isaLoadInst (kind ir A) then escapeCheck fuel B
          else decompose A B
        else decompose A B
    end.

End Decompose.

(** ** The memoizing entry point *)

(** [if (A > B) std::swap(A, B)] followed by [ValuePairTy(A, B)]. *)
Definition pairKey (A B : Value) : ValuePairTy :=
  if (B <? A)%N then (B, A) else (A, B).

(** Lines 163-177.  [fuel] bounds the depth of the recursion. *)
Fixpoint related (fuel : nat) (A B : Value) : M bool :=
  match fuel with
  | O => out_of_fuel
  | S fuel' =>
      let k := pairKey A B in
      hit <- lookupCache k ;;
      match hit with
      | Some r => ret r
      | None =>
          storeCache k true ;;
          emit (EvInsert k) ;;
          emit (EvCheck k) ;;
          Result <- relatedCheck (related fuel') fuel' (fst k) (snd k) ;;
          storeCache k Result ;;
          emit (EvAssign k Result) ;;
          ret Result
      end
  end.

(** A sequence of queries on one analysis instance. *)
Fixpoint queries (fuel : nat) (qs : list (Value * Value)) : M (list bool) :=
  match qs with
  | [] => ret []
  | (A, B) :: rest =>
      r <- related fuel A B ;;
      rs <- queries fuel rest ;;
      ret (r :: rs)
  end.

End Analysis.


(** * Target hooks

    A shallow embedding of the target hooks of
    [lib/Target/PowerPC/PPCTargetTransformInfo.cpp]: from the PPC cost
    model [PPCTTI] the register hooks and the cost of a memory operation,
    and from the AArch64 register information that the file goes on with
    the reserved registers, the frame register and the two frame-index
    rewrites.

    The hooks read their subtarget, lowering and frame objects through
    accessors; here the answers of those accessors are arguments.  The
    fixed-width integers of the source are numbers with the wrap-around, or
    the undefined overflow, written out. *)

(** The three ways a hook can end: it returns, an [assert] fails, or it
    runs into undefined behaviour (a division by zero, a signed
    overflow). *)
Inductive Run (A : Type) :=
| Returns (a : A)
| AssertionFails
| UndefinedBehaviour.
Arguments Returns {A} a.
Arguments AssertionFails {A}.
Arguments UndefinedBehaviour {A}.

Module PPC.

(** [unsigned]: 32 bits, arithmetic modulo 2^32. *)
Definition unsigned_max : N := 2 ^ 32.
Definition wrap (n : N) : N := (n mod unsigned_max)%N.

(** The answers of the subtarget [ST]. *)
Record PPCSubtarget := mkSubtarget {
  hasAltivec : bool;
  isPPC64 : bool
}.

(** The opcodes that [getMemoryOpCost] tells apart. *)
Inductive Opcode :=
| Instruction_Load
| Instruction_Store
| Instruction_other (op : N).

Definition getNumberOfRegisters (ST : PPCSubtarget) (Vector : bool) : N :=
  if Vector && negb (hasAltivec ST) then 0%N else 32%N.

Definition getRegisterBitWidth (ST : PPCSubtarget) (Vector : bool) : N :=
  if Vector then
    if hasAltivec ST then 128%N else 0%N
  else if isPPC64 ST then 64%N
  else 32%N.

(** [LT] is the answer of [TLI->getTypeLegalizationCost(Src)]: the number
    of legal parts, and the store size in bytes ([getStoreSize]) of the
    legal type. *)
Definition getMemoryOpCost (Opcode : Opcode) (LT : N * N)
    (Alignment AddressSpace : N) : Run N :=
  match Opcode with
  | Instruction_other _ => AssertionFails
  | Instruction_Load | Instruction_Store =>
      let Cost := wrap (LT.1 * 1) in
      let SrcBytes := LT.2 in
      if negb (SrcBytes =? 0)%N && negb (Alignment =? 0)%N
         && (Alignment <? SrcBytes)%N
      then Returns (wrap (Cost * (SrcBytes / Alignment)))
      else Returns Cost
  end.

End PPC.

Module AArch64.

(** [int64_t] and [uint64_t]. *)
Definition inInt64 (z : Z) : bool :=
  ((- 2 ^ 63 <=? z) && (z <? 2 ^ 63))%Z.
Definition toUint64 (z : Z) : Z := (z mod 2 ^ 64)%Z.
Definition toInt64 (u : Z) : Z :=
  (if u mod 2 ^ 64 <? 2 ^ 63 then u mod 2 ^ 64 else u mod 2 ^ 64 - 2 ^ 64)%Z.

Section Registers.

(** The numbers of the registers that the hooks name. *)
Variables XSP WSP XZR WZR X29 W29 : N.

(** The [BitVector] is the set of its set bits. *)
Definition getReservedRegs (hasFP : bool) : gset N :=
  let Reserved : gset N := ∅ in
  let Reserved := {[XSP]} ∪ Reserved in
  let Reserved := {[WSP]} ∪ Reserved in
  let Reserved := {[XZR]} ∪ Reserved in
  let Reserved := {[WZR]} ∪ Reserved in
  if hasFP then
    let Reserved := {[X29]} ∪ Reserved in
    let Reserved := {[W29]} ∪ Reserved in
    Reserved
  else Reserved.

Definition getFrameRegister (hasFP : bool) : N :=
  if hasFP then X29 else XSP.

End Registers.

(** What [eliminateFrameIndex] reads from the instruction: the frame index
    operand, the immediate operand after it, whether the instruction is a
    [DBG_VALUE] or an [ADDxxi_lsl0_s], and the answer of
    [TII.getAddressConstraints] for it. *)
Record FrameInstr := mkFrameInstr {
  getIndex : Z;
  getImm : Z;
  isDebugValue : bool;
  isADDxxi_lsl0_s : bool;
  OffsetScale : Z;
  MinOffset : Z;
  MaxOffset : Z
}.

(** A call of [emitRegUpdate]: its destination, source and scratch
    register and its number of bytes, in the order of the arguments. *)
Record RegUpdate := mkRegUpdate {
  DstReg : N;
  SrcReg : N;
  ScratchReg : N;
  NumBytes : Z
}.

(** What [eliminateFrameIndex] leaves behind: the register updates it has
    emitted before the instruction, and the register and the immediate it
    has put in place of the frame index operand and the operand after
    it. *)
Record Rewritten := mkRewritten {
  emitted : list RegUpdate;
  newReg : N;
  newImm : Z
}.

(** Whether the frame index lies between the frame indices of the first
    and the last callee-saved register; [CSI] lists the frame indices of
    [getCalleeSavedInfo()]. *)
Definition IsCalleeSaveOp (CSI : list Z) (FrameIndex : Z) : bool :=
  let MinCSFI := match CSI with [] => 0%Z | _ => hd 0%Z CSI end in
  let MaxCSFI := match CSI with [] => (-1)%Z | _ => List.last CSI 0%Z end in
  ((MinCSFI <=? FrameIndex) && (FrameIndex <=? MaxCSFI))%Z.

Section FrameIndex.

(** [TFI->resolveFrameIndexReference]: from the frame index, [SPAdj] and
    [IsCalleeSaveOp] to the offset it returns and the frame register it
    sets. *)
Variable resolveFrameIndexReference : Z -> Z -> bool -> Z * N.

(** The register that [createVirtualRegister] hands out. *)
Variable BaseReg : N.

Definition eliminateFrameIndex (CSI : list Z) (MI : FrameInstr) (SPAdj : Z)
  : Run Rewritten :=
  if negb (SPAdj =? 0)%Z then AssertionFails else
  let FrameIndex := getIndex MI in
  let ref :=
    resolveFrameIndexReference FrameIndex SPAdj (IsCalleeSaveOp CSI FrameIndex) in
  let FrameReg := ref.2 in
  let Offset := (ref.1 + getImm MI)%Z in
  if negb (inInt64 Offset) then UndefinedBehaviour else
  if isDebugValue MI then Returns (mkRewritten [] FrameReg Offset) else
  let '(OffsetScale, MinOffset, MaxOffset) :=
    if isADDxxi_lsl0_s MI then (1, 0, 4095)%Z
    else (OffsetScale MI, MinOffset MI, MaxOffset MI) in
  if (OffsetScale =? 0)%Z then UndefinedBehaviour else
  if (Offset =? - 2 ^ 63)%Z && (OffsetScale =? -1)%Z then UndefinedBehaviour else
  let illegal :=
    (negb (Z.rem Offset OffsetScale =? 0) || (Offset <? MinOffset)
     || (MaxOffset <? Offset))%Z in
  let updates :=
    if illegal then [mkRegUpdate BaseReg FrameReg BaseReg Offset] else [] in
  let FrameReg := if illegal then BaseReg else FrameReg in
  let Offset := if illegal then 0%Z else Offset in
  if (Offset <? 0)%Z then AssertionFails else
  Returns (mkRewritten updates FrameReg (Z.quot Offset OffsetScale)).

End FrameIndex.

(** What [eliminateCallFramePseudoInstr] reads: whether the instruction is
    the call-frame destroy pseudo, and its two immediate operands. *)
Record CallFramePseudo := mkCallFramePseudo {
  IsDestroy : bool;
  Operand0 : Z;
  Operand1 : Z
}.

Section CallFrame.

(** The value of [abs] on a [uint64_t] argument; which overload the call
    resolves to is decided by the headers in scope. *)
Variable abs : Z -> Z.

(** The result lists the [NumBytes] of the calls of [emitSPUpdate]; on
    every return the pseudo instruction has been erased. *)
Definition eliminateCallFramePseudoInstr (hasReservedCallFrame : bool)
    (getStackAlignment : N) (MI : CallFramePseudo) : Run (list Z) :=
  let CalleePopAmount :=
    if IsDestroy MI then toUint64 (Operand1 MI) else 0%Z in
  if negb hasReservedCallFrame then
    let Align := Z.of_N getStackAlignment in
    let Amount := toUint64 (Operand0 MI) in
    if (Align =? 0)%Z then UndefinedBehaviour else
    let Amount :=
      toUint64 (toUint64 (toUint64 (Amount + Align) - 1) / Align * Align) in
    let Amount := if IsDestroy MI then Amount else toUint64 (- Amount) in
    if (CalleePopAmount =? 0)%Z then
      if negb (abs Amount <? 4095)%Z then AssertionFails
      else Returns [toInt64 Amount]
    else Returns []
  else if negb (CalleePopAmount =? 0)%Z then
    if negb (CalleePopAmount <? 4095)%Z then AssertionFails
    else Returns [toInt64 (toUint64 (- CalleePopAmount))]
  else Returns [].

End CallFrame.

End AArch64.

(** * Specification vocabulary

    The definitions in which the properties of the analysis are stated.
    None of them is part of the analysed code. *)

(** ** Postconditions of a computation *)

Section Postconditions.

(** What a call that returns guarantees about the states before and after
    it, and what a call that ends in an error guarantees. *)
Variable R : State -> State -> Prop.
Variable E : Outcome bool -> State -> State -> Prop.

Definition post (s : State) (x : Outcome bool * State) : Prop :=
  match x with
  | (Ok _, s') => R s s'
  | (Fault, s') => E Fault s s'
  | (OutOfFuel, s') => E OutOfFuel s s'
  end.

(** [m] meets the postcondition from every state that follows [s0]. *)
Definition sound (s0 : State) (m : M bool) : Prop :=
  forall s, R s0 s -> post s (m s).

End Postconditions.

(** ** The use-graph seen by the escape detector *)

Section UseGraph.

Variable ir : IR.

(** A user that the scan does not skip: neither a store nor a call. *)
Definition tracked (Ur : Value) : Prop :=
  isaStoreInst (kind ir Ur) = false /\ isaCallInst (kind ir Ur) = false.

(** A use of [P] at which the scan returns [true]: [P] is the stored value
    of a store, or [P] is a pointer-to-integer result and the user is not
    skipped. *)
Definition escapingUse (P : Value) (u : Value * nat) : Prop :=
  (isaStoreInst (kind ir u.1) = true /\ u.2 = 0%nat) \/
  (tracked u.1 /\ isaPtrToIntInst (kind ir P) = true).

Definition exposed (P : Value) : Prop :=
  exists u, u ∈ uses ir P /\ escapingUse P u.

(** [Q] is a user of [P] that the scan follows. *)
Definition derives (P Q : Value) : Prop :=
  tracked Q /\ exists i, (Q, i) ∈ uses ir P.

(** The forward use-graph that the scan traverses. *)
Definition reaches : Value -> Value -> Prop := rtc derives.

(** [x] has been scanned without an escape, and the users of [x] that
    the scan follows are in the visited set. *)
Definition settled (Visited : gset Value) (x : Value) : Prop :=
  ~ exposed x /\ forall y, derives x y -> y ∈ Visited.

(** The invariant of the [do]-[while] loop for a scan started at [root]:
    every visited value is reachable, and every visited value that is no
    longer on the worklist is settled. *)
Definition drainInv (root : Value) (Visited : gset Value) (P : Value)
    (Worklist : list Value) : Prop :=
  root ∈ Visited /\
  (forall x, x ∈ Visited -> reaches root x) /\
  (forall x, x ∈ P :: Worklist -> x ∈ Visited) /\
  (forall x, x ∈ Visited -> x ∈ P :: Worklist \/ settled Visited x).

(** A finite use-graph: [Vs] is a finite set of values that contains the
    users of its members. *)
Definition usersClosed (Vs : gset Value) : Prop :=
  forall x Ur i, x ∈ Vs -> (Ur, i) ∈ uses ir x -> Ur ∈ Vs.

End UseGraph.

(** ** The life of a cache slot *)

(** The state right after the pending entry has been inserted and
    [relatedCheck] has been entered. *)
Definition pending (k : ValuePairTy) (s : State) : State :=
  mkState (<[k := true]> (CachedResults s)) (EvCheck k :: EvInsert k :: trace s).

(** The state right after the final overwrite. *)
Definition settle (k : ValuePairTy) (r : bool) (s : State) : State :=
  mkState (<[k := r]> (CachedResults s)) (EvAssign k r :: trace s).

(** The path of [related] on a pair [k] that has no slot yet, around the
    computation [m] of the answer: the pending entry goes in, [m] runs,
    and the answer overwrites the entry. *)
Definition memoize (k : ValuePairTy) (m : M bool) : M bool :=
  fun s => match m (pending k s) with
           | (Ok r, s') => (Ok r, settle k r s')
           | (Fault, s') => (Fault, s')
           | (OutOfFuel, s') => (OutOfFuel, s')
           end.

(** A trace is well formed when every event respects the order
    insert, check, assign of its pair, each at most once. *)
Fixpoint trace_wf (l : list Event) : Prop :=
  match l with
  | [] => True
  | e :: l' =>
      trace_wf l' /\
      match e with
      | EvInsert k => (k.1 <= k.2)%N /\ EvInsert k ∉ l'
      | EvCheck k => EvInsert k ∈ l' /\ EvCheck k ∉ l'
      | EvAssign k r => EvCheck k ∈ l' /\ forall r', EvAssign k r' ∉ l'
      | EvEscape _ => True
      end
  end.

Definition traceInv (s : State) : Prop :=
  trace_wf (trace s) /\
  forall k, EvInsert k ∈ trace s <-> k ∈ dom (CachedResults s).

(** What one call may do to the state: entries that exist are kept, the
    trace grows, and the trace invariant is kept without any new
    assignment to a pair that already had its slot. *)
Definition extends (s s' : State) : Prop :=
  (forall j v, CachedResults s !! j = Some v -> CachedResults s' !! j = Some v) /\
  trace s `suffix_of` trace s' /\
  (traceInv s ->
   traceInv s' /\
   forall k r, k ∈ dom (CachedResults s) ->
     EvAssign k r ∈ trace s' -> EvAssign k r ∈ trace s).

Global Instance Event_eq_dec : EqDecision Event.
Proof. solve_decision. Defined.

(** The events of a trace that concern the slot of the pair [k]. *)
Definition about (k : ValuePairTy) (e : Event) : bool :=
  match e with
  | EvInsert k' | EvCheck k' | EvAssign k' _ => bool_decide (k' = k)
  | EvEscape _ => false
  end.

(** The events about [k], oldest first. *)
Definition history (k : ValuePairTy) (l : list Event) : list Event :=
  reverse (filter (fun e => about k e) l).

(** How often [relatedCheck] has run for [k]. *)
Definition runsOf (k : ValuePairTy) (l : list Event) : nat :=
  length (filter (fun e => e = EvCheck k) l).

(** How often the slot of [k] has been written. *)
Definition isWrite (k : ValuePairTy) (e : Event) : bool :=
  match e with
  | EvInsert k' | EvAssign k' _ => bool_decide (k' = k)
  | _ => false
  end.

Definition writesOf (k : ValuePairTy) (l : list Event) : nat :=
  length (filter (fun e => isWrite k e) l).

(** ** The shortcuts of the decision procedure *)

(** What lines 110-147 decide without any recursive query: a fixed
    answer, or the answer of the escape detector on one operand. *)
Inductive Verdict :=
| Decided (r : bool)
| ByEscape (P : Value).

Section Instance.

Variable ir : IR.
Variable co : Collaborators.

Definition shortcut (A B : Value) : option Verdict :=
  let A := GetUnderlyingObjCPtr co A in
  let B := GetUnderlyingObjCPtr co B in
  if (A =? B)%N then Some (Decided true)
  else
    match alias co A B with
    | NoAlias => Some (Decided false)
    | MustAlias | PartialAlias => Some (Decided true)
    | MayAlias =>
        match IsObjCIdentifiedObject co A, IsObjCIdentifiedObject co B with
        | true, true =>
            if isaLoadInst (kind ir B) then Some (ByEscape A)
            else if isaLoadInst (kind ir A) then Some (ByEscape B)
            else Some (Decided false)
        | true, false =>
            if isaLoadInst (kind ir B) then Some (ByEscape A) else None
        | false, true =>
            if isaLoadInst (kind ir A) then Some (ByEscape B) else None
        | false, false => None
        end
    end.

(** A cached answer is consistent with the shortcuts. *)
Definition consistent (a b : Value) (v : bool) : Prop :=
  match shortcut a b with
  | Some (Decided r) => v = r
  | Some (ByEscape P) => exists fuel, isStoredObjCPointer ir fuel P = Some v
  | None => True
  end.

Definition agrees (s : State) : Prop :=
  forall a b v, CachedResults s !! (a, b) = Some v -> consistent a b v.

Definition keepsAgreement (s s' : State) : Prop := agrees s -> agrees s'.

(** The states of one analysis instance: the fresh cache, and what any
    completed query leaves behind. *)
Inductive reachable : State -> Prop :=
| reachable_fresh : reachable fresh
| reachable_query s fuel A B r s' :
    reachable s -> related ir co fuel A B s = (Ok r, s') -> reachable s'.

End Instance.

(** ** Structural decomposition *)

(** The OR, from left to right, of the queries on a list of pairs. *)
Fixpoint anyRelated (rel : Value -> Value -> M bool)
    (ps : list (Value * Value)) : M bool :=
  match ps with
  | [] => ret false
  | (x, y) :: ps' => orElse (rel x y) (anyRelated rel ps')
  end.

(** Each incoming value of a phi paired with the incoming value that the
    phi [PNB] has for the same predecessor block. *)
Fixpoint edgePairs (inc : list (Value * Block)) (PNB : PHINode)
  : option (list (Value * Value)) :=
  match inc with
  | [] => Some []
  | (v, bb) :: rest =>
      match getIncomingValueForBlock (incoming PNB) bb, edgePairs rest PNB with
      | Some w, Some ps => Some ((v, w) :: ps)
      | _, _ => None
      end
  end.

(** The phi that [relatedCheck] decomposes for the pair [(a, b)], which is
    [a] if [a] is a phi and [b] otherwise, lists itself among its incoming
    values, and the other operand is not a phi of the same block. *)
Definition selfReferential (ir : IR) (a b : Value) : Prop :=
  match kind ir a with
  | Phi PN =>
      (exists bb, (a, bb) ∈ incoming PN) /\
      forall PNB, kind ir b = Phi PNB -> getParent PNB <> getParent PN
  | _ => exists PN bb, kind ir b = Phi PN /\ (b, bb) ∈ incoming PN
  end.

(** ** Finite IRs *)

Section FiniteIR.

Variable ir : IR.
Variable co : Collaborators.

(** A finite IR: a finite set [Vs] of values that contains, with each
    value, its underlying object, its users, and the incoming values or
    arms of a phi or select. *)
Variable Vs : gset Value.

Definition closedUniverse : Prop :=
  (forall v, v ∈ Vs -> GetUnderlyingObjCPtr co v ∈ Vs) /\
  (forall v PN x bb, v ∈ Vs -> kind ir v = Phi PN -> (x, bb) ∈ incoming PN ->
     x ∈ Vs) /\
  (forall v SI, v ∈ Vs -> kind ir v = Select SI ->
     getTrueValue SI ∈ Vs /\ getFalseValue SI ∈ Vs) /\
  usersClosed ir Vs.

(** The IR invariant behind the assertion of [getIncomingValueForBlock]:
    two phis of one block have an incoming value for the same blocks. *)
Definition edgesMatch : Prop :=
  forall v w PN PNB x bb, v ∈ Vs -> w ∈ Vs ->
    kind ir v = Phi PN -> kind ir w = Phi PNB ->
    getParent PNB = getParent PN -> (x, bb) ∈ incoming PN ->
    getIncomingValueForBlock (incoming PNB) bb <> None.

(** The pairs over [Vs] that have no cache slot yet. *)
Definition slack (s : State) : nat :=
  size (cprod Vs Vs ∖ dom (CachedResults s)).

(** Fuel that is enough for any query over [Vs]. *)
Definition enoughFuel : nat :=
  S (size (cprod Vs Vs : gset (Value * Value)) + size Vs).

(** The outcome of a call that has not run out of fuel, and has returned
    if the block invariant of the phis holds. *)
Definition finishes (o : Outcome bool) : Prop :=
  o <> OutOfFuel /\ (edgesMatch -> o <> Fault).

End FiniteIR.

(** Checkable forms of [closedUniverse] and [edgesMatch]. *)
Definition operandsIn (Vs : gset Value) (k : Kind) : bool :=
  match k with
  | Phi PN => forallb (fun p => bool_decide (p.1 ∈ Vs)) (incoming PN)
  | Select SI =>
      bool_decide (getTrueValue SI ∈ Vs) && bool_decide (getFalseValue SI ∈ Vs)
  | _ => true
  end.

Definition closedUniverseb (ir : IR) (co : Collaborators) (Vs : gset Value)
  : bool :=
  forallb (fun v =>
             bool_decide (GetUnderlyingObjCPtr co v ∈ Vs)
             && operandsIn Vs (kind ir v)
             && forallb (fun u => bool_decide (u.1 ∈ Vs)) (uses ir v))
          (elements Vs).

Definition edgesMatchb (ir : IR) (Vs : gset Value) : bool :=
  forallb (fun v =>
    forallb (fun w =>
      match kind ir v, kind ir w with
      | Phi PN, Phi PNB =>
          if (getParent PNB =? getParent PN)%N then
            forallb (fun p =>
                       match getIncomingValueForBlock (incoming PNB) p.2 with
                       | Some _ => true
                       | None => false
                       end) (incoming PN)
          else true
      | _, _ => true
      end) (elements Vs)) (elements Vs).

(** ** The queries of a decomposition *)

(** How a decomposition ends when none of its queries answers true: with
    false, with the conservative true, or with the failed assertion of
    [getIncomingValueForBlock]. *)
Inductive Ending := EndFalse | EndTrue | EndFault.

Definition endWith (e : Ending) : M bool :=
  match e with
  | EndFalse => ret false
  | EndTrue => ret true
  | EndFault => fault
  end.

(** The queries on a list of pairs, from left to right, up to the first
    one that answers true; [e] runs if none does. *)
Fixpoint chain (rel : Value -> Value -> M bool) (ps : list (Value * Value))
    (e : M bool) : M bool :=
  match ps with
  | [] => e
  | (x, y) :: ps' => orElse (rel x y) (chain rel ps' e)
  end.

(** A list without its repetitions, each element at its first
    occurrence. *)
Fixpoint distinct (l : list Value) : list Value :=
  match l with
  | [] => []
  | x :: l' => x :: filter (fun y => y <> x) (distinct l')
  end.

(** The corresponding edges of two phis of one block, up to the first
    incoming block for which the second phi has no value. *)
Fixpoint edgePrefix (inc : list (Value * Block)) (PNB : PHINode)
  : list (Value * Value) * Ending :=
  match inc with
  | [] => ([], EndFalse)
  | (v, bb) :: rest =>
      match getIncomingValueForBlock (incoming PNB) bb with
      | None => ([], EndFault)
      | Some w => ((v, w) :: (edgePrefix rest PNB).1, (edgePrefix rest PNB).2)
      end
  end.

Definition phiPlan (ir : IR) (A : PHINode) (B : Value)
  : list (Value * Value) * Ending :=
  let sources := ((fun v => (v, B)) <$> distinct (incoming A).*1, EndFalse) in
  match dyn_cast_PHINode (kind ir B) with
  | Some PNB =>
      if (getParent PNB =? getParent A)%N then edgePrefix (incoming A) PNB
      else sources
  | None => sources
  end.

Definition selectPlan (ir : IR) (A : SelectInst) (B : Value)
  : list (Value * Value) * Ending :=
  let arms := ([(getTrueValue A, B); (getFalseValue A, B)], EndFalse) in
  match dyn_cast_SelectInst (kind ir B) with
  | Some SB =>
      if (getCondition A =? getCondition SB)%N then
        ([(getTrueValue A, getTrueValue SB);
          (getFalseValue A, getFalseValue SB)], EndFalse)
      else arms
  | None => arms
  end.

(** The pairs that the structural decomposition of the canonical operands
    [A] and [B] queries, in order, and how it ends. *)
Definition plan (ir : IR) (A B : Value) : list (Value * Value) * Ending :=
  match dyn_cast_PHINode (kind ir A) with
  | Some PN => phiPlan ir PN B
  | None =>
  match dyn_cast_PHINode (kind ir B) with
  | Some PN => phiPlan ir PN A
  | None =>
  match dyn_cast_SelectInst (kind ir A) with
  | Some SI => selectPlan ir SI B
  | None =>
  match dyn_cast_SelectInst (kind ir B) with
  | Some SI => selectPlan ir SI A
  | None => ([], EndTrue)
  end end end end.

(** ** Derivations of unrelatedness *)

(** The pairs [a], [b] for which disjointness has a finite derivation that
    never looks at the cache: a shortcut says false, or the escape rule
    applies and the detector says false, or the decomposition ends with
    false and every pair it queries has a derivation. *)
Inductive Unrelated (ir : IR) (co : Collaborators) : Value -> Value -> Prop :=
| Unrelated_decided a b :
    shortcut ir co a b = Some (Decided false) -> Unrelated ir co a b
| Unrelated_escape a b P fuel :
    shortcut ir co a b = Some (ByEscape P) ->
    isStoredObjCPointer ir fuel P = Some false ->
    Unrelated ir co a b
| Unrelated_decompose a b :
    shortcut ir co a b = None ->
    (plan ir (GetUnderlyingObjCPtr co a) (GetUnderlyingObjCPtr co b)).2
      = EndFalse ->
    (forall x y,
       (x, y) ∈ (plan ir (GetUnderlyingObjCPtr co a)
                         (GetUnderlyingObjCPtr co b)).1 ->
       Unrelated ir co (pairKey x y).1 (pairKey x y).2) ->
    Unrelated ir co a b.

(** [c] is a pair that the decomposition of the pair [k] queries. *)
Definition queries_of (ir : IR) (co : Collaborators) (k c : ValuePairTy)
  : Prop :=
  shortcut ir co k.1 k.2 = None /\
  exists x y,
    (x, y) ∈ (plan ir (GetUnderlyingObjCPtr co k.1)
                      (GetUnderlyingObjCPtr co k.2)).1 /\
    c = pairKey x y.

(** The slot of [k] has had its final overwrite. *)
Definition assigned (s : State) (k : ValuePairTy) : Prop :=
  exists r, EvAssign k r ∈ trace s.

(** Every final overwrite is still in the cache, and it wrote false
    exactly for the pairs that have a derivation of unrelatedness; every
    slot without a final overwrite holds the pending entry, true. *)
Definition finalsJustified (ir : IR) (co : Collaborators) (s : State) : Prop :=
  (forall k r, EvAssign k r ∈ trace s ->
     CachedResults s !! k = Some r /\
     (r = false <-> Unrelated ir co k.1 k.2)) /\
  (forall k v, CachedResults s !! k = Some v -> ~ assigned s k -> v = true).

(** Every pending pair is on the way to the query of [k]: the pair [k] is
    queried, directly or not, by the decomposition of each of them. *)
Definition pendingAbove (ir : IR) (co : Collaborators) (s : State)
    (k : ValuePairTy) : Prop :=
  forall p, p ∈ dom (CachedResults s) -> ~ assigned s p ->
    tc (queries_of ir co) p k.

(** A call that returns leaves no pending entry of its own behind. *)
Definition settlesAll (s s' : State) : Prop :=
  forall p, p ∈ dom (CachedResults s') ->
    p ∈ dom (CachedResults s) \/ assigned s' p.

(** No entry is pending. *)
Definition quiescent (s : State) : Prop :=
  forall p, p ∈ dom (CachedResults s) -> assigned s p.

(** What a query of the pair [c], run as [m] from the state [s], owes:
    if it returns, the finals stay justified, nothing is left pending, and
    the answer is false exactly when [c] has a derivation; and it does not
    fail an assertion when [c] has a derivation. *)
Definition justifies (ir : IR) (co : Collaborators) (m : M bool)
    (c : ValuePairTy) (s : State) : Prop :=
  (forall r s', m s = (Ok r, s') ->
     finalsJustified ir co s' /\ settlesAll s s' /\
     (r = false <-> Unrelated ir co c.1 c.2)) /\
  (Unrelated ir co c.1 c.2 -> (m s).1 <> Fault).

(** ** The value of a slot *)

(** Every slot that has had its final overwrite holds the value that was
    written, and every other slot holds what the pending insert wrote:
    true. *)
Definition slotsInv (s : State) : Prop :=
  (forall k r, EvAssign k r ∈ trace s -> CachedResults s !! k = Some r) /\
  (forall k v, CachedResults s !! k = Some v -> ~ assigned s k -> v = true).

(** What one call may do to the slots. *)
Definition keepsSlots (s s' : State) : Prop :=
  extends s s' /\ (traceInv s -> slotsInv s -> slotsInv s').

(** ** Answers *)

(** [b] is an answer to the query of [x] and [y]: some query of the pair,
    on some state of an instance between queries and with some fuel,
    returns [b]. *)
Definition answer (ir : IR) (co : Collaborators) (x y : Value) (b : bool)
  : Prop :=
  exists s fuel s',
    reachable ir co s /\ related ir co fuel x y s = (Ok b, s').

(** * Example IRs *)

(** A loop-carried phi: value 10 is a phi of block 7 whose first incoming
    value is the phi itself; 1 and 20 are plain values, 3 is a load. *)
Definition irLoop : IR :=
  mkIR (fun v => match v with
                 | 3 => Load
                 | 10 => Phi (mkPHI 7 [(10, 8); (1, 9)])
                 | _ => Generic
                 end)%N
       (fun _ => []).

(** Collaborators that know nothing: no pass-throughs, no identified
    object, and an oracle that always answers MayAlias. *)
Definition coMay : Collaborators :=
  mkCollab (fun v => v) (fun _ => false) (fun _ _ => MayAlias).

(** Two pointers, 2 and 3, derived from one object, 1: the canonicalizer
    maps both to the object.  The oracle tells the derived pointers apart
    and knows that the object aliases itself. *)
Definition irFields : IR :=
  mkIR (fun v => match v with 2 | 3 => PointerCast | _ => Generic end)%N
       (fun _ => []).

Definition coFields : Collaborators :=
  mkCollab (fun v => match v with 2 | 3 => 1 | _ => v end)%N
           (fun _ => false)
           (fun a b => if (a =? b)%N then MustAlias
                       else match a, b with
                            | 2, 3 | 3, 2 => NoAlias
                            | _, _ => MayAlias
                            end%N).

(** An oracle that separates the objects 1 and 2 and is undecided about
    every other pair of different values. *)
Definition coApart : Collaborators :=
  mkCollab (fun v => v) (fun _ => false)
           (fun a b => if (a =? b)%N then MustAlias
                       else match a, b with
                            | 1, 2 => NoAlias
                            | _, _ => MayAlias
                            end%N).

(** Values below 10 are identified objects; nothing is a pass-through and
    the oracle is undecided about different values. *)
Definition coLocal : Collaborators :=
  mkCollab (fun v => v) (fun v => (v <? 10)%N)
           (fun a b => if (a =? b)%N then MustAlias else MayAlias).

(** A function body with identified objects 1 to 6 and a load, 50, of
    unknown provenance:
    - 1 is cast to the integer 20, which is used by the addition 21;
    - 2 is passed to the call 30 and has no other use;
    - 3 has no use;
    - 4 is a load whose result is stored by the store 40;
    - 5 is a load whose result is passed to the call 31;
    - 6 is cast to the integer 22, which is passed to the call 30. *)
Definition irBody : IR :=
  mkIR (fun v => match v with
                 | 4 | 5 | 50 => Load
                 | 20 | 22 => PointerToInt
                 | 30 | 31 => Call
                 | 40 => Store
                 | _ => Generic
                 end)%N
       (fun v => match v with
                 | 1 => [(20, 0%nat)]
                 | 20 => [(21, 0%nat)]
                 | 2 => [(30, 1%nat)]
                 | 4 => [(40, 0%nat)]
                 | 5 => [(31, 0%nat)]
                 | 6 => [(22, 0%nat)]
                 | 22 => [(30, 2%nat)]
                 | _ => []
                 end)%N.

(** Two phis, 10 and 11, of block 7 with incoming values for the blocks 8
    and 9, and two selects, 12 and 13, on the condition 5. *)
Definition irMerge : IR :=
  mkIR (fun v => match v with
                 | 10 => Phi (mkPHI 7 [(1, 8); (3, 9)])
                 | 11 => Phi (mkPHI 7 [(2, 8); (4, 9)])
                 | 12 => Select (mkSelect 5 1 6)
                 | 13 => Select (mkSelect 5 2 8)
                 | _ => Generic
                 end)%N
       (fun _ => []).

(** An oracle that separates 1 from 2 and 3 from 4, knows that 1 and 4,
    2 and 3, and 6 and 8 overlap, and is undecided otherwise. *)
Definition coCross : Collaborators :=
  mkCollab (fun v => v) (fun _ => false)
           (fun a b => if (a =? b)%N then MustAlias
                       else match a, b with
                            | 1, 2 | 3, 4 => NoAlias
                            | 1, 4 | 2, 3 | 6, 8 => MustAlias
                            | _, _ => MayAlias
                            end%N).


(** An object, 1, with a user, 2, that is stored by the store 3 as its
    address and as its value, and passed to the call 4; and the same uses
    listed in another order and with other repetitions. *)
Definition irUses : IR :=
  mkIR (fun v => match v with 3 => Store | 4 => Call | _ => Generic end)%N
       (fun v => match v with
                 | 1 => [(4, 0%nat); (2, 0%nat); (4, 0%nat)]
                 | 2 => [(3, 1%nat); (3, 0%nat)]
                 | _ => []
                 end)%N.

Definition irUsesShuffled : IR :=
  mkIR (fun v => match v with 3 => Store | 4 => Call | _ => Generic end)%N
       (fun v => match v with
                 | 1 => [(2, 0%nat); (4, 0%nat)]
                 | 2 => [(3, 0%nat); (3, 1%nat); (3, 0%nat)]
                 | _ => []
                 end)%N.

(** A phi, 10, of block 7 that lists itself for the block 8, and a second
    phi, 11, of the same block. *)
Definition irSelf : IR :=
  mkIR (fun v => match v with
                 | 10 => Phi (mkPHI 7 [(10, 8); (1, 9)])
                 | 11 => Phi (mkPHI 7 [(2, 8); (4, 9)])
                 | _ => Generic
                 end)%N
       (fun _ => []).

(** An oracle that separates 2 from 10 and 1 from 4 and is undecided about
    every other pair of different values. *)
Definition coSelf : Collaborators :=
  mkCollab (fun v => v) (fun _ => false)
           (fun a b => if (a =? b)%N then MustAlias
                       else match a, b with
                            | 2, 10 | 10, 2 | 1, 4 | 4, 1 => NoAlias
                            | _, _ => MayAlias
                            end%N).

(** The identified objects of [coLocal], with an oracle that separates the
    loads 4 and 5. *)
Definition coLocalApart : Collaborators :=
  mkCollab (fun v => v) (fun v => (v <? 10)%N)
           (fun a b => if (a =? b)%N then MustAlias
                       else match a, b with
                            | 4, 5 | 5, 4 => NoAlias
                            | _, _ => MayAlias
                            end%N).

(** An oracle that separates 1 from 2, 3 from 4 and 6 from 8 and is
    undecided about every other pair of different values. *)
Definition coSplit : Collaborators :=
  mkCollab (fun v => v) (fun _ => false)
           (fun a b => if (a =? b)%N then MustAlias
                       else match a, b with
                            | 1, 2 | 3, 4 | 6, 8 => NoAlias
                            | _, _ => MayAlias
                            end%N).

(** A phi, 10, with the incoming value 1 for two blocks. *)
Definition irDup : IR :=
  mkIR (fun v => match v with
                 | 10 => Phi (mkPHI 7 [(1, 8); (3, 9); (1, 6)])
                 | _ => Generic
                 end)%N
       (fun _ => []).

(** An oracle that separates 2 from 1 and from 3, and 3 from 4, and is
    undecided about every other pair of different values. *)
Definition coDup : Collaborators :=
  mkCollab (fun v => v) (fun _ => false)
           (fun a b => if (a =? b)%N then MustAlias
                       else match a, b with
                            | 1, 2 | 2, 1 | 2, 3 | 3, 2 | 3, 4 | 4, 3 => NoAlias
                            | _, _ => MayAlias
                            end%N).

(** * Verification *)

(** ** A proof rule for the decision procedure

    Most properties of [related] are established by induction on the fuel,
    and each induction step has to walk through [relatedCheck] and the two
    decompositions.  The walk is done once, for an arbitrary postcondition:
    a preorder [R] between the states before and after a call that
    returns, and a relation [E] for calls that end in an error. *)

Section Rule.

Variable ir : IR.
Variable co : Collaborators.
Variable R : State -> State -> Prop.
Variable E : Outcome bool -> State -> State -> Prop.
Variable inV : Value -> Prop.
Variable fuel : nat.
Variable rel : Value -> Value -> M bool.

Hypothesis R_refl : forall s, R s s.
Hypothesis R_trans : forall s1 s2 s3, R s1 s2 -> R s2 s3 -> R s1 s3.
Hypothesis E_trans : forall e s1 s2 s3, R s1 s2 -> E e s2 s3 -> E e s1 s3.

Hypothesis inV_underlying :
  forall v, inV v -> inV (GetUnderlyingObjCPtr co v).
Hypothesis inV_phi :
  forall v PN x bb, inV v -> kind ir v = Phi PN -> (x, bb) ∈ incoming PN -> inV x.
Hypothesis inV_select :
  forall v SI, inV v -> kind ir v = Select SI ->
    inV (getTrueValue SI) /\ inV (getFalseValue SI).
Hypothesis assertion_ok :
  forall v w PN PNB x bb, inV v -> inV w ->
    kind ir v = Phi PN -> kind ir w = Phi PNB ->
    getParent PNB = getParent PN -> (x, bb) ∈ incoming PN ->
    getIncomingValueForBlock (incoming PNB) bb = None ->
    forall s, E Fault s s.
Hypothesis escape_ok :
  forall v s, inV v ->
    post R E s (escapeCheck ir fuel v s).

Lemma sound_ret s0 b : sound R E s0 (ret b).
Proof. intros s _. apply R_refl. Qed.

Lemma sound_orElse s0 a b :
  sound R E s0 a -> sound R E s0 b -> sound R E s0 (orElse a b).
Proof.
  intros Ha Hb s Hs. unfold orElse, bind, post.
  specialize (Ha s Hs). unfold post in Ha.
  destruct (a s) as [[[]| |] s1]; simpl; try done.
  specialize (Hb s1 (R_trans _ _ _ Hs Ha)). unfold post in Hb.
  destruct (b s1) as [[r| |] s2]; eauto.
Qed.

Lemma getIncomingValueForBlock_elem inc BB w :
  getIncomingValueForBlock inc BB = Some w -> (w, BB) ∈ inc.
Proof.
  induction inc as [|[v b] inc IH]; simpl; [done|].
  destruct (N.eqb_spec b BB) as [->|_].
  - intros [= ->]. left.
  - intros H. right. auto.
Qed.

Section Loops.

Variable s0 : State.
Hypothesis rel_sound : forall A B, inV A -> inV B -> sound R E s0 (rel A B).

Lemma sound_relatedEdges v w PN PNB inc :
  inV v -> inV w -> kind ir v = Phi PN -> kind ir w = Phi PNB ->
  getParent PNB = getParent PN -> inc ⊆ incoming PN ->
  sound R E s0 (relatedEdges rel inc PNB).
Proof.
  intros Hv Hw Kv Kw Hpar. induction inc as [|[x bb] inc IH]; intros Hsub.
  - apply sound_ret.
  - simpl. assert ((x, bb) ∈ incoming PN) as Hx by (apply Hsub; left).
    destruct (getIncomingValueForBlock (incoming PNB) bb) as [y|] eqn:Hy.
    + apply sound_orElse.
      * apply rel_sound; [by apply (inV_phi v PN x bb)|].
        apply (inV_phi w PNB y bb); [done..|].
        by apply getIncomingValueForBlock_elem.
      * apply IH. intros z Hz. apply Hsub. by right.
    + intros s _. simpl. by apply (assertion_ok v w PN PNB x bb).
Qed.

Lemma sound_relatedSources B inc UniqueSrc :
  inV B -> (forall x bb, (x, bb) ∈ inc -> inV x) ->
  sound R E s0 (relatedSources rel inc UniqueSrc B).
Proof.
  intros HB. revert UniqueSrc.
  induction inc as [|[x bb] inc IH]; intros UniqueSrc Hin; simpl.
  - apply sound_ret.
  - assert (forall y b, (y, b) ∈ inc -> inV y) as Hin'
      by (intros y b Hy; eapply Hin; by right).
    destruct (decide (x ∈ UniqueSrc)); [by apply IH|].
    apply sound_orElse; [|by apply IH].
    apply rel_sound; [|done]. eapply Hin. left.
Qed.

Lemma sound_relatedPHI v PN B :
  inV v -> kind ir v = Phi PN -> inV B -> sound R E s0 (relatedPHI ir rel PN B).
Proof.
  intros Hv Kv HB. unfold relatedPHI.
  assert (sound R E s0 (relatedSources rel (incoming PN) ∅ B)) as Hsrc.
  { apply sound_relatedSources; [done|]. intros x bb. by apply (inV_phi v). }
  destruct (kind ir B) eqn:KB; simpl; try done.
  destruct (N.eqb_spec (getParent PN0) (getParent PN)) as [Hpar|_]; [|done].
  by apply (sound_relatedEdges v B PN PN0).
Qed.

Lemma sound_relatedSelect v SI B :
  inV v -> kind ir v = Select SI -> inV B ->
  sound R E s0 (relatedSelect ir rel SI B).
Proof.
  intros Hv Kv HB. unfold relatedSelect.
  destruct (inV_select _ _ Hv Kv) as [HT HF].
  assert (sound R E s0 (orElse (rel (getTrueValue SI) B) (rel (getFalseValue SI) B)))
    as Harms by (apply sound_orElse; by apply rel_sound).
  destruct (kind ir B) eqn:KB; simpl; try done.
  destruct (inV_select _ _ HB KB) as [HT' HF'].
  destruct (getCondition SI =? getCondition SI0)%N; [|done].
  apply sound_orElse; by apply rel_sound.
Qed.

Lemma sound_decompose A B :
  inV A -> inV B -> sound R E s0 (decompose ir rel A B).
Proof.
  intros HA HB. unfold decompose.
  destruct (dyn_cast_PHINode (kind ir A)) as [PN|] eqn:KA.
  { destruct (kind ir A) eqn:KA'; simplify_eq/=. by apply (sound_relatedPHI A). }
  destruct (dyn_cast_PHINode (kind ir B)) as [PN|] eqn:KB.
  { destruct (kind ir B) eqn:KB'; simplify_eq/=. by apply (sound_relatedPHI B). }
  destruct (dyn_cast_SelectInst (kind ir A)) as [SI|] eqn:SA.
  { destruct (kind ir A) eqn:KA'; simplify_eq/=. by apply (sound_relatedSelect A). }
  destruct (dyn_cast_SelectInst (kind ir B)) as [SI|] eqn:SB.
  { destruct (kind ir B) eqn:KB'; simplify_eq/=. by apply (sound_relatedSelect B). }
  apply sound_ret.
Qed.

Lemma sound_relatedCheck A B :
  inV A -> inV B -> sound R E s0 (relatedCheck ir co rel fuel A B).
Proof.
  intros HA HB. unfold relatedCheck.
  pose proof (inV_underlying _ HA) as HA'.
  pose proof (inV_underlying _ HB) as HB'.
  pose proof (sound_decompose _ _ HA' HB') as Hdec.
  assert (forall v, inV v -> sound R E s0 (escapeCheck ir fuel v)) as Hesc
    by (intros v Hv s _; by apply escape_ok).
  destruct (_ =? _)%N; [apply sound_ret|].
  destruct (alias co _ _); try apply sound_ret.
  repeat (match goal with |- context [if ?b then _ else _] => destruct b end);
    auto using sound_ret.
Qed.

End Loops.
End Rule.

(** ** The escape detector *)

Section Escape.

Variable ir : IR.

Lemma scanUses_Escaped P us Visited Worklist :
  scanUses ir P us Visited Worklist = Escaped ->
  exists u, u ∈ us /\ escapingUse ir P u.
Proof.
  revert Visited Worklist.
  induction us as [|[Ur i] us IH]; intros Visited Worklist; simpl; [done|].
  assert (forall V W, scanUses ir P us V W = Escaped ->
            exists u, u ∈ (Ur, i) :: us /\ escapingUse ir P u) as Hrest.
  { intros V W H. destruct (IH _ _ H) as (u & ? & ?). exists u. split; [by right|done]. }
  destruct (isaStoreInst (kind ir Ur)) eqn:HS.
  { destruct (Nat.eqb_spec i 0) as [->|]; [|by eauto].
    intros _. exists (Ur, 0%nat). split; [left|]. by left. }
  destruct (isaCallInst (kind ir Ur)) eqn:HC; [by eauto|].
  destruct (isaPtrToIntInst (kind ir P)) eqn:HP.
  { intros _. exists (Ur, i). split; [left|]. by right. }
  destruct (decide (Ur ∈ Visited)); eauto.
Qed.

Lemma scanUses_Scanned P us Visited Worklist Visited' Worklist' :
  scanUses ir P us Visited Worklist = Scanned Visited' Worklist' ->
  (forall u, u ∈ us -> ~ escapingUse ir P u) /\
  exists new,
    Worklist' = new ++ Worklist /\
    Visited' = list_to_set new ∪ Visited /\
    NoDup new /\
    (forall x, x ∈ new ->
       (x ∉ Visited) /\ tracked ir x /\ (exists i, (x, i) ∈ us)) /\
    (forall Ur i, (Ur, i) ∈ us -> tracked ir Ur -> Ur ∈ Visited').
Proof.
  revert Visited Worklist.
  induction us as [|[Ur i] us IH]; intros Visited Worklist; simpl.
  { intros [= <- <-]. split.
    { intros u Hu. by apply elem_of_nil in Hu. }
    exists []. split_and!; [done|set_solver|constructor| |].
    - intros x Hx. by apply elem_of_nil in Hx.
    - intros Ur i Hu. by apply elem_of_nil in Hu. }
  assert (~ escapingUse ir P (Ur, i) -> (tracked ir Ur -> Ur ∈ Visited) ->
    scanUses ir P us Visited Worklist = Scanned Visited' Worklist' ->
    (forall u, u ∈ (Ur, i) :: us -> ~ escapingUse ir P u) /\
    exists new,
      Worklist' = new ++ Worklist /\
      Visited' = list_to_set new ∪ Visited /\
      NoDup new /\
      (forall x, x ∈ new ->
         (x ∉ Visited) /\ tracked ir x /\
         (exists j, (x, j) ∈ (Ur, i) :: us)) /\
      (forall Ur' j, (Ur', j) ∈ (Ur, i) :: us -> tracked ir Ur' -> Ur' ∈ Visited'))
    as Hskip.
  { intros Hbad Hvis H.
    destruct (IH _ _ H) as (Hno & new & HW & HV & Hnd & Hnew & Hall).
    split.
    { intros u Hu. apply elem_of_cons in Hu as [->|Hu]; auto. }
    exists new. split_and!; [done..| |].
    - intros x Hx. destruct (Hnew x Hx) as (? & ? & j & ?).
      split_and!; [done..|]. exists j. by right.
    - intros Ur' j Hu HT. apply elem_of_cons in Hu as [[= -> ->]|Hu].
      + rewrite HV. set_solver.
      + by apply (Hall Ur' j). }
  destruct (isaStoreInst (kind ir Ur)) eqn:HS.
  { destruct (Nat.eqb_spec i 0) as [->|Hi]; [done|].
    apply Hskip.
    - intros [[_ ?]|[[? _] _]]; simpl in *; congruence.
    - intros [? _]. congruence. }
  destruct (isaCallInst (kind ir Ur)) eqn:HC.
  { apply Hskip.
    - intros [[? _]|[[_ ?] _]]; simpl in *; congruence.
    - intros [_ ?]. congruence. }
  destruct (isaPtrToIntInst (kind ir P)) eqn:HP; [done|].
  assert (~ escapingUse ir P (Ur, i)) as Hbad
    by (intros [[? _]|[_ ?]]; simpl in *; congruence).
  destruct (decide (Ur ∈ Visited)) as [Hin|Hnin]; [by apply Hskip|].
  intros H. destruct (IH _ _ H) as (Hno & new & HW & HV & Hnd & Hnew & Hall).
  split.
  { intros u Hu. apply elem_of_cons in Hu as [->|Hu]; auto. }
  exists (new ++ [Ur]). split_and!.
  - by rewrite <- app_assoc.
  - rewrite HV, list_to_set_app_L. set_solver.
  - apply NoDup_app. split_and!; [done| |apply NoDup_singleton].
    intros x Hx Hx2. apply list_elem_of_singleton in Hx2 as ->.
    destruct (Hnew _ Hx) as [Hx' _]. set_solver.
  - intros x Hx. apply elem_of_app in Hx as [Hx|Hx].
    + destruct (Hnew _ Hx) as (Hx' & ? & j & ?).
      split_and!; [set_solver|done|]. exists j. by right.
    + apply list_elem_of_singleton in Hx as ->.
      split_and!; [done|done|]. exists i. left.
  - intros Ur' j Hu HT. apply elem_of_cons in Hu as [[= -> ->]|Hu].
    + rewrite HV. set_solver.
    + by apply (Hall Ur' j).
Qed.

Lemma drainInv_step root Visited P Worklist Visited' Worklist' :
  drainInv ir root Visited P Worklist ->
  scanUses ir P (uses ir P) Visited Worklist = Scanned Visited' Worklist' ->
  root ∈ Visited' /\
  (forall x, x ∈ Visited' -> reaches ir root x) /\
  (forall x, x ∈ Worklist' -> x ∈ Visited') /\
  (forall x, x ∈ Visited' -> x ∈ Worklist' \/ settled ir Visited' x).
Proof.
  intros (Hroot & Hreach & Hwl & Hset) Hscan.
  apply scanUses_Scanned in Hscan as (Hno & new & -> & -> & Hnd & Hnew & Hall).
  assert (forall x, settled ir Visited x -> settled ir (list_to_set new ∪ Visited) x)
    as Hmono.
  { intros x [? Hx]. split; [done|]. intros y Hy. specialize (Hx y Hy). set_solver. }
  split_and!.
  - set_solver.
  - intros x Hx. apply elem_of_union in Hx as [Hx|Hx]; [|by apply Hreach].
    apply elem_of_list_to_set in Hx. destruct (Hnew x Hx) as (_ & HT & i & Hi).
    eapply rtc_r; [apply Hreach, Hwl; left|]. split; [done|]. by exists i.
  - intros x Hx. apply elem_of_app in Hx as [Hx|Hx].
    + apply elem_of_union. left. by apply elem_of_list_to_set.
    + apply elem_of_union. right. apply Hwl. by right.
  - intros x Hx. apply elem_of_union in Hx as [Hx|Hx].
    { left. apply elem_of_app. left. by apply elem_of_list_to_set in Hx. }
    destruct (Hset x Hx) as [Hx'|Hx']; [|right; by apply Hmono].
    apply elem_of_cons in Hx' as [->|Hx'].
    + right. split.
      * intros (u & Hu & Hbad). by apply (Hno u).
      * intros y [HT [i Hi]]. by apply (Hall y i).
    + left. apply elem_of_app. by right.
Qed.

Lemma drain_true root fuel Visited P Worklist :
  drainInv ir root Visited P Worklist ->
  drain ir fuel Visited P Worklist = Some true ->
  exists x, reaches ir root x /\ exposed ir x.
Proof.
  revert Visited P Worklist.
  induction fuel as [|fuel IH]; intros Visited P Worklist Hinv; simpl; [done|].
  destruct (scanUses ir P (uses ir P) Visited Worklist)
    as [|Visited' Worklist'] eqn:Hscan.
  - intros _. exists P. split.
    + destruct Hinv as (_ & Hreach & Hwl & _). apply Hreach, Hwl. left.
    + by apply scanUses_Escaped in Hscan.
  - destruct (drainInv_step _ _ _ _ _ _ Hinv Hscan) as (? & ? & ? & ?).
    destruct Worklist' as [|P' Worklist']; [done|].
    apply IH. by split_and!.
Qed.

Lemma drain_false root fuel Visited P Worklist :
  drainInv ir root Visited P Worklist ->
  drain ir fuel Visited P Worklist = Some false ->
  forall x, reaches ir root x -> ~ exposed ir x.
Proof.
  revert Visited P Worklist.
  induction fuel as [|fuel IH]; intros Visited P Worklist Hinv; simpl; [done|].
  destruct (scanUses ir P (uses ir P) Visited Worklist)
    as [|Visited' Worklist'] eqn:Hscan; [done|].
  destruct (drainInv_step _ _ _ _ _ _ Hinv Hscan) as (Hroot & _ & _ & Hset).
  destruct Worklist' as [|P' Worklist'].
  - intros _ x Hx.
    assert (forall a b, reaches ir a b -> a ∈ Visited' -> b ∈ Visited') as Hclosed.
    { intros a b Hab. induction Hab as [|a b c [HT [i Hi]] _ IHab]; [done|].
      intros Ha. apply IHab. destruct (Hset a Ha) as [Hnil|[_ Hcl]].
      - by apply elem_of_nil in Hnil.
      - apply Hcl. split; [done|]. by exists i. }
    pose proof (Hclosed _ _ Hx Hroot) as Hin.
    destruct (Hset x Hin) as [Hnil|[? _]]; [|done].
    by apply elem_of_nil in Hnil.
  - destruct (drainInv_step _ _ _ _ _ _ Hinv Hscan) as (? & ? & ? & ?).
    apply IH. by split_and!.
Qed.

Lemma drainInv_init P : drainInv ir P {[P]} P [].
Proof.
  split_and!.
  - set_solver.
  - intros x ->%elem_of_singleton. apply rtc_refl.
  - intros x ->%list_elem_of_singleton. set_solver.
  - intros x ->%elem_of_singleton. left. left.
Qed.

(** What the escape detector computes: it answers [true] exactly when some
    value reachable from [P] through followed uses has an escaping use. *)
Lemma isStoredObjCPointer_true fuel P :
  isStoredObjCPointer ir fuel P = Some true ->
  exists x, reaches ir P x /\ exposed ir x.
Proof. apply drain_true, drainInv_init. Qed.

Lemma isStoredObjCPointer_false fuel P :
  isStoredObjCPointer ir fuel P = Some false ->
  forall x, reaches ir P x -> ~ exposed ir x.
Proof. apply drain_false, drainInv_init. Qed.

(** More fuel does not change an answer. *)
Lemma drain_mono fuel fuel' Visited P Worklist r :
  drain ir fuel Visited P Worklist = Some r -> fuel <= fuel' ->
  drain ir fuel' Visited P Worklist = Some r.
Proof.
  revert fuel' Visited P Worklist.
  induction fuel as [|fuel IH]; intros fuel' Visited P Worklist; simpl; [done|].
  intros H Hle. destruct fuel' as [|fuel']; [lia|]. simpl.
  destruct (scanUses ir P (uses ir P) Visited Worklist) as [|V' [|P' W']];
    try done.
  apply IH; [done|lia].
Qed.

Lemma drain_terminates Vs fuel Visited P Worklist :
  usersClosed ir Vs -> Visited ⊆ Vs -> P ∈ Vs ->
  (forall x, x ∈ Worklist -> x ∈ Vs) ->
  length Worklist + size (Vs ∖ Visited) < fuel ->
  is_Some (drain ir fuel Visited P Worklist).
Proof.
  intros Hcl. revert Visited P Worklist.
  induction fuel as [|fuel IH]; intros Visited P Worklist HV HP HW Hfuel;
    simpl; [lia|].
  destruct (scanUses ir P (uses ir P) Visited Worklist)
    as [|Visited' Worklist'] eqn:Hscan; [done|].
  apply scanUses_Scanned in Hscan as (_ & new & -> & -> & Hnd & Hnew & _).
  assert (forall x, x ∈ new -> x ∈ Vs) as HnewVs.
  { intros x Hx. destruct (Hnew x Hx) as (_ & _ & i & Hi). by eapply Hcl. }
  assert (size (Vs ∖ (list_to_set new ∪ Visited)) + length new
          = size (Vs ∖ Visited)) as Hsize.
  { assert (Vs ∖ (list_to_set new ∪ Visited)
            = (Vs ∖ Visited) ∖ list_to_set new) as -> by set_solver.
    assert (list_to_set new ⊆ Vs ∖ Visited) as Hsub.
    { intros x Hx. apply elem_of_list_to_set in Hx.
      destruct (Hnew x Hx) as (? & _). set_solver. }
    rewrite size_difference by done.
    pose proof (subseteq_size _ _ Hsub) as Hle.
    rewrite size_list_to_set in * by done. lia. }
  destruct (new ++ Worklist) as [|P' Worklist'] eqn:Hnext; [done|].
  assert (length new + length Worklist = S (length Worklist')) as Hlen
    by (rewrite <- length_app, Hnext; done).
  assert (forall x, x ∈ P' :: Worklist' -> x ∈ Vs) as Hnext'.
  { intros x Hx. rewrite <- Hnext in Hx.
    apply elem_of_app in Hx as [Hx|Hx]; auto. }
  apply IH.
  - intros x Hx. apply elem_of_union in Hx as [Hx|Hx]; [|by apply HV].
    apply HnewVs. by apply elem_of_list_to_set in Hx.
  - apply Hnext'. left.
  - intros x Hx. apply Hnext'. by right.
  - lia.
Qed.

Lemma isStoredObjCPointer_terminates Vs fuel P :
  usersClosed ir Vs -> P ∈ Vs -> size Vs <= fuel ->
  is_Some (isStoredObjCPointer ir fuel P).
Proof.
  intros Hcl HP Hfuel. apply (drain_terminates Vs); try done.
  - set_solver.
  - intros x Hx. by apply elem_of_nil in Hx.
  - simpl. assert (size (Vs ∖ {[P]}) < size Vs); [|lia].
    apply subset_size. set_solver.
Qed.

Lemma isStoredObjCPointer_mono fuel fuel' P r :
  isStoredObjCPointer ir fuel P = Some r -> fuel <= fuel' ->
  isStoredObjCPointer ir fuel' P = Some r.
Proof. apply drain_mono. Qed.

Lemma isStoredObjCPointer_agree fuel fuel' P r r' :
  isStoredObjCPointer ir fuel P = Some r ->
  isStoredObjCPointer ir fuel' P = Some r' -> r = r'.
Proof.
  intros H H'.
  apply (isStoredObjCPointer_mono _ (fuel + fuel')) in H; [|lia].
  apply (isStoredObjCPointer_mono _ (fuel + fuel')) in H'; [|lia].
  congruence.
Qed.

End Escape.

(** ** The memoizing entry point *)

Lemma post_uniform (R : State -> State -> Prop) s x :
  R s x.2 -> post R (fun _ => R) s x.
Proof. by destruct x as [[?| |] ?]. Qed.

Lemma post_uniform_inv (R : State -> State -> Prop) s x :
  post R (fun _ => R) s x -> R s x.2.
Proof. by destruct x as [[?| |] ?]. Qed.

Lemma pairKey_comm A B : pairKey A B = pairKey B A.
Proof.
  unfold pairKey.
  destruct (N.ltb_spec B A), (N.ltb_spec A B); try done; try lia.
  f_equal; lia.
Qed.

Lemma pairKey_ordered A B : ((pairKey A B).1 <= (pairKey A B).2)%N.
Proof. unfold pairKey. destruct (N.ltb_spec B A); simpl; lia. Qed.

Lemma pairKey_sorted A B : (A <= B)%N -> pairKey A B = (A, B).
Proof. intros. unfold pairKey. destruct (N.ltb_spec B A); [lia|done]. Qed.

Section Related.

Variable ir : IR.
Variable co : Collaborators.

Lemma related_hit fuel A B s r :
  CachedResults s !! pairKey A B = Some r ->
  related ir co (S fuel) A B s = (Ok r, s).
Proof. intros H. simpl. unfold bind, lookupCache. by rewrite H. Qed.

Lemma related_miss fuel A B s :
  CachedResults s !! pairKey A B = None ->
  related ir co (S fuel) A B s =
    let k := pairKey A B in
    match relatedCheck ir co (related ir co fuel) fuel k.1 k.2 (pending k s) with
    | (Ok r, s') => (Ok r, settle k r s')
    | (Fault, s') => (Fault, s')
    | (OutOfFuel, s') => (OutOfFuel, s')
    end.
Proof.
  intros H. simpl. unfold bind, lookupCache. rewrite H. simpl.
  unfold pending, settle. simpl.
  by destruct (relatedCheck _ _ _ _ _ _ _) as [[r| |] s'].
Qed.

(** A call that returns leaves its answer in the cache. *)
Lemma related_Ok_cached fuel A B s r s' :
  related ir co fuel A B s = (Ok r, s') ->
  CachedResults s' !! pairKey A B = Some r.
Proof.
  destruct fuel as [|fuel]; [done|].
  destruct (CachedResults s !! pairKey A B) as [r0|] eqn:Hk.
  - rewrite (related_hit _ _ _ _ _ Hk). by intros [= <- <-].
  - rewrite (related_miss _ _ _ _ Hk). simpl.
    destruct (relatedCheck _ _ _ _ _ _ _) as [[r1| |] s1]; try done.
    intros [= <- <-]. simpl. apply lookup_insert_eq.
Qed.

(** *** The life of a cache slot *)

Lemma trace_wf_check l k : trace_wf l -> EvCheck k ∈ l -> EvInsert k ∈ l.
Proof.
  induction l as [|e l IH]; simpl.
  { intros _ H. by apply elem_of_nil in H. }
  intros [Hwf He] Hin. apply elem_of_cons in Hin as [<-|Hin].
  - right. apply He.
  - right. by apply IH.
Qed.

Lemma trace_wf_assign l k r : trace_wf l -> EvAssign k r ∈ l -> EvCheck k ∈ l.
Proof.
  induction l as [|e l IH]; simpl.
  { intros _ H. by apply elem_of_nil in H. }
  intros [Hwf He] Hin. apply elem_of_cons in Hin as [<-|Hin].
  - right. apply He.
  - right. by apply IH.
Qed.

Lemma extends_refl s : extends s s.
Proof. by split_and!. Qed.

Lemma extends_trans s1 s2 s3 : extends s1 s2 -> extends s2 s3 -> extends s1 s3.
Proof.
  intros (Hf1 & Hs1 & Ht1) (Hf2 & Hs2 & Ht2). split_and!.
  - auto.
  - by etrans.
  - intros Hinv. destruct (Ht1 Hinv) as [Hinv2 Hn1].
    destruct (Ht2 Hinv2) as [Hinv3 Hn2]. split; [done|].
    intros k r Hk Hin. apply Hn1; [done|]. apply Hn2; [|done].
    apply elem_of_dom in Hk as [v Hv]. by apply (elem_of_dom_2 _ _ v), Hf1.
Qed.

Lemma extends_escape fuel v s : extends s (escapeCheck ir fuel v s).2.
Proof.
  assert (extends s (mkState (CachedResults s) (EvEscape v :: trace s))) as H.
  { split_and!; simpl; [done|by apply suffix_cons_r|].
    intros [Hwf Hdom]. split.
    - split; simpl; [done|]. intros k. rewrite <- Hdom.
      split; [|by right]. intros Hin. by apply elem_of_cons in Hin as [?|?].
    - intros k r _ Hin. by apply elem_of_cons in Hin as [?|?]. }
  unfold escapeCheck, bind, emit. simpl.
  by destruct (isStoredObjCPointer ir fuel v).
Qed.

Lemma extends_pending k s :
  (k.1 <= k.2)%N -> CachedResults s !! k = None -> extends s (pending k s).
Proof.
  intros Hord Hk. split_and!; simpl.
  - intros j v Hj. rewrite lookup_insert_ne; [done|congruence].
  - by do 2 apply suffix_cons_r.
  - intros [Hwf Hdom].
    assert (EvInsert k ∉ trace s) as Hni
      by (rewrite Hdom; by apply not_elem_of_dom).
    split.
    + split; simpl.
      * split_and!; try done; [left|].
        intros Hin. apply elem_of_cons in Hin as [?|Hin]; [done|].
        by apply Hni, trace_wf_check.
      * intros j. rewrite dom_insert_L, elem_of_union, elem_of_singleton, <- Hdom.
        split.
        -- intros Hin. apply elem_of_cons in Hin as [?|Hin]; [done|].
           apply elem_of_cons in Hin as [[= ->]|Hin]; auto.
        -- intros [->|Hin]; [right; left|]. by do 2 right.
    + intros j r _ Hin. apply elem_of_cons in Hin as [?|Hin]; [done|].
      by apply elem_of_cons in Hin as [?|Hin].
Qed.

Lemma extends_settle k r s s2 :
  (k.1 <= k.2)%N -> CachedResults s !! k = None ->
  extends (pending k s) s2 -> extends s (settle k r s2).
Proof.
  intros Hord Hk (Hf & Hs & Ht). split_and!; simpl.
  - intros j v Hj. rewrite lookup_insert_ne; [|congruence].
    apply Hf. simpl. rewrite lookup_insert_ne; [done|congruence].
  - apply suffix_cons_r. etrans; [|done]. by do 2 apply suffix_cons_r.
  - intros Hinv. pose proof Hinv as [Hwf Hdom].
    destruct (extends_pending k s Hord Hk) as (_ & _ & Hp).
    destruct (Hp Hinv) as [Hinv1 _]. destruct (Ht Hinv1) as [[Hwf2 Hdom2] Hn2].
    assert (EvInsert k ∉ trace s) as Hni
      by (rewrite Hdom; by apply not_elem_of_dom).
    assert (forall r', EvAssign k r' ∉ trace s) as Hna.
    { intros r' Hin. by eapply Hni, trace_wf_check, trace_wf_assign. }
    assert (k ∈ dom (CachedResults s2)) as Hk2.
    { apply (elem_of_dom_2 _ _ true), Hf. simpl. apply lookup_insert_eq. }
    assert (EvCheck k ∈ trace s2) as Hc2.
    { destruct Hs as [l ->]. apply elem_of_app. right. left. }
    assert (forall j r', j ∈ dom (CachedResults s) ->
              EvAssign j r' ∈ trace s2 -> EvAssign j r' ∈ trace s) as Hold.
    { intros j r' Hj Hin.
      assert (EvAssign j r' ∈ trace (pending k s)) as Hin1.
      { apply Hn2; [|done]. simpl. rewrite dom_insert_L. set_solver. }
      simpl in Hin1. apply elem_of_cons in Hin1 as [?|Hin1]; [done|].
      by apply elem_of_cons in Hin1 as [?|Hin1]. }
    assert (forall r', EvAssign k r' ∉ trace s2) as Hna2.
    { intros r' Hin.
      assert (EvAssign k r' ∈ trace (pending k s)) as Hin1.
      { apply Hn2; [|done]. simpl. rewrite dom_insert_L. set_solver. }
      simpl in Hin1. apply elem_of_cons in Hin1 as [?|Hin1]; [done|].
      apply elem_of_cons in Hin1 as [?|Hin1]; [done|]. by apply (Hna r'). }
    split.
    + split; simpl; [by split_and!|].
      intros j. rewrite dom_insert_L, elem_of_union, elem_of_singleton, <- Hdom2.
      split.
      * intros Hin. apply elem_of_cons in Hin as [?|Hin]; [done|]. by right.
      * intros [->|Hin]; right; [by apply Hdom2|done].
    + intros j r' Hj Hin. apply elem_of_cons in Hin as [[= -> ->]|Hin].
      * by apply not_elem_of_dom in Hk.
      * by apply Hold.
Qed.

(** Every call extends the state, whatever its outcome. *)
Lemma related_extends fuel A B s : extends s (related ir co fuel A B s).2.
Proof.
  revert A B s. induction fuel as [|fuel IH]; intros A B s.
  { apply extends_refl. }
  destruct (CachedResults s !! pairKey A B) as [r0|] eqn:Hk.
  { rewrite (related_hit _ _ _ _ _ Hk). apply extends_refl. }
  rewrite (related_miss _ _ _ _ Hk). simpl.
  pose proof (pairKey_ordered A B) as Hord.
  set (k := pairKey A B) in *.
  assert (extends (pending k s)
            (relatedCheck ir co (related ir co fuel) fuel k.1 k.2 (pending k s)).2)
    as Hcheck.
  { apply post_uniform_inv.
    assert (sound extends (fun _ => extends) (pending k s)
              (relatedCheck ir co (related ir co fuel) fuel k.1 k.2)) as Hs.
    { apply (sound_relatedCheck ir co extends (fun _ => extends)
               (fun _ => True) fuel (related ir co fuel)
               extends_refl extends_trans (fun _ => extends_trans)
               (fun _ _ => I) (fun _ _ _ _ _ _ _ => I)
               (fun _ _ _ _ => conj I I)
               (fun _ _ _ _ _ _ _ _ _ _ _ _ _ s => extends_refl s)
               (fun v s _ => post_uniform _ _ _ (extends_escape fuel v s)));
        [|done..].
      intros A' B' _ _ s' _. apply post_uniform, IH. }
    apply Hs, extends_refl. }
  destruct (relatedCheck _ _ _ _ _ _ _) as [[r| |] s2]; simpl in *.
  - by apply extends_settle.
  - eapply extends_trans; [|done]. by apply extends_pending.
  - eapply extends_trans; [|done]. by apply extends_pending.
Qed.

(** *** The shortcuts of the decision procedure *)

Lemma relatedCheck_shortcut rel fuel A B :
  relatedCheck ir co rel fuel A B =
    match shortcut ir co A B with
    | Some (Decided r) => ret r
    | Some (ByEscape P) => escapeCheck ir fuel P
    | None =>
        decompose ir rel (GetUnderlyingObjCPtr co A) (GetUnderlyingObjCPtr co B)
    end.
Proof.
  unfold relatedCheck, shortcut.
  destruct (_ =? _)%N; [done|].
  destruct (alias co _ _); try done.
  destruct (IsObjCIdentifiedObject co _), (IsObjCIdentifiedObject co _);
    repeat (match goal with |- context [if ?b then _ else _] => destruct b end);
    done.
Qed.

Lemma agrees_insert a b v s l :
  agrees ir co s -> consistent ir co a b v ->
  agrees ir co (mkState (<[(a, b) := v]> (CachedResults s)) l).
Proof.
  intros Hs Hv a' b' v'. simpl.
  destruct (decide ((a, b) = (a', b'))) as [[= <- <-]|Hne].
  - rewrite lookup_insert_eq. by intros [= <-].
  - rewrite lookup_insert_ne by done. apply Hs.
Qed.

Lemma escapeCheck_Ok fuel P s r s' :
  escapeCheck ir fuel P s = (Ok r, s') ->
  isStoredObjCPointer ir fuel P = Some r /\
  s' = mkState (CachedResults s) (EvEscape P :: trace s).
Proof.
  unfold escapeCheck, bind, emit. simpl.
  destruct (isStoredObjCPointer ir fuel P); [|done].
  by intros [= <- <-].
Qed.

Lemma related_agrees fuel A B s r s' :
  agrees ir co s -> related ir co fuel A B s = (Ok r, s') -> agrees ir co s'.
Proof.
  revert A B s r s'. induction fuel as [|fuel IH]; intros A B s r s' Hs; [done|].
  destruct (CachedResults s !! pairKey A B) as [r0|] eqn:Hk.
  { rewrite (related_hit _ _ _ _ _ Hk). by intros [= <- <-]. }
  rewrite (related_miss _ _ _ _ Hk). simpl.
  destruct (pairKey A B) as [a b] eqn:Hab. simpl.
  rewrite relatedCheck_shortcut.
  destruct (shortcut ir co a b) as [[r0|P]|] eqn:Hsc.
  - simpl. intros [= <- <-].
    unfold settle, pending. simpl. rewrite insert_insert_eq.
    apply agrees_insert; [done|]. unfold consistent. by rewrite Hsc.
  - destruct (escapeCheck ir fuel P (pending (a, b) s)) as [[r1| |] s1] eqn:He;
      try done.
    intros [= <- <-]. apply escapeCheck_Ok in He as [He ->].
    unfold settle, pending. simpl. rewrite insert_insert_eq.
    apply agrees_insert; [done|]. unfold consistent. rewrite Hsc. by exists fuel.
  - assert (agrees ir co (pending (a, b) s)) as Hp.
    { apply agrees_insert; [done|]. unfold consistent. by rewrite Hsc. }
    assert (sound (keepsAgreement ir co) (fun _ _ _ => True) (pending (a, b) s)
              (decompose ir (related ir co fuel)
                 (GetUnderlyingObjCPtr co a) (GetUnderlyingObjCPtr co b))) as Hd.
    { apply (sound_decompose ir (keepsAgreement ir co) (fun _ _ _ => True)
               (fun _ => True) (related ir co fuel)
               (fun _ H => H) (fun _ _ _ H12 H23 H1 => H23 (H12 H1))
               (fun _ _ _ _ _ _ => I) (fun _ _ _ _ _ _ _ => I)
               (fun _ _ _ _ => conj I I)
               (fun _ _ _ _ _ _ _ _ _ _ _ _ _ _ => I)); [|done..].
      intros A' B' _ _ s1 _. unfold post.
      destruct (related ir co fuel A' B' s1) as [[r1| |] s2] eqn:Hr; try done.
      intros H1. by eapply IH. }
    specialize (Hd (pending (a, b) s) (fun H => H)). unfold post in Hd.
    destruct (decompose _ _ _ _ _) as [[r1| |] s1]; try done.
    intros [= <- <-]. apply agrees_insert; [by apply Hd|].
    unfold consistent. by rewrite Hsc.
Qed.

Lemma agrees_fresh : agrees ir co fresh.
Proof. intros a b v. unfold fresh. simpl. by rewrite lookup_empty. Qed.

Lemma reachable_agrees s : reachable ir co s -> agrees ir co s.
Proof.
  induction 1 as [|s fuel A B r s' _ IH Hq]; [apply agrees_fresh|].
  by eapply related_agrees.
Qed.

Lemma traceInv_fresh : traceInv fresh.
Proof.
  split; simpl; [done|]. intros k. rewrite dom_empty_L. split.
  - intros H. by apply elem_of_nil in H.
  - intros H. by apply elem_of_empty in H.
Qed.

Lemma reachable_traceInv s : reachable ir co s -> traceInv s.
Proof.
  induction 1 as [|s fuel A B r s' _ IH Hq]; [apply traceInv_fresh|].
  pose proof (related_extends fuel A B s) as (_ & _ & H).
  rewrite Hq in H. by apply H.
Qed.

(** A query whose pair is settled by a fixed shortcut gives that answer on
    every state that agrees with the shortcuts. *)
Lemma related_decided fuel A B s r :
  agrees ir co s ->
  shortcut ir co (pairKey A B).1 (pairKey A B).2 = Some (Decided r) ->
  (related ir co (S fuel) A B s).1 = Ok r.
Proof.
  intros Hs Hsc.
  destruct (CachedResults s !! pairKey A B) as [r0|] eqn:Hk.
  - rewrite (related_hit _ _ _ _ _ Hk). simpl.
    destruct (pairKey A B) as [a b]. apply Hs in Hk.
    unfold consistent in Hk. simpl in Hsc. rewrite Hsc in Hk. by subst.
  - rewrite (related_miss _ _ _ _ Hk). simpl.
    by rewrite relatedCheck_shortcut, Hsc.
Qed.

(** A query whose pair is settled by the escape rule gives the answer of
    the escape detector on the operand the rule selects, and runs the
    detector on no other value. *)
Lemma related_byEscape fuel A B s P r :
  agrees ir co s ->
  shortcut ir co (pairKey A B).1 (pairKey A B).2 = Some (ByEscape P) ->
  isStoredObjCPointer ir fuel P = Some r ->
  (related ir co (S fuel) A B s).1 = Ok r /\
  forall v, EvEscape v ∈ trace (related ir co (S fuel) A B s).2 ->
    v = P \/ EvEscape v ∈ trace s.
Proof.
  intros Hs Hsc HP.
  destruct (CachedResults s !! pairKey A B) as [r0|] eqn:Hk.
  - rewrite (related_hit _ _ _ _ _ Hk). simpl. split; [|by right].
    destruct (pairKey A B) as [a b]. apply Hs in Hk.
    unfold consistent in Hk. simpl in Hsc. rewrite Hsc in Hk.
    destruct Hk as [fuel' Hk]. f_equal.
    by eapply isStoredObjCPointer_agree.
  - rewrite (related_miss _ _ _ _ Hk). simpl.
    rewrite relatedCheck_shortcut, Hsc.
    unfold escapeCheck, bind, emit. simpl. rewrite HP. simpl.
    split; [done|]. intros v Hv.
    apply elem_of_cons in Hv as [?|Hv]; [done|].
    apply elem_of_cons in Hv as [[= ->]|Hv]; [by left|].
    apply elem_of_cons in Hv as [?|Hv]; [done|].
    apply elem_of_cons in Hv as [?|Hv]; [done|]. by right.
Qed.

End Related.

(** ** Termination on a finite IR *)

Section Finite.

Variable ir : IR.
Variable co : Collaborators.

Variable Vs : gset Value.

Lemma extends_dom s s' :
  extends s s' -> dom (CachedResults s) ⊆ dom (CachedResults s').
Proof.
  intros (Hf & _) k Hk. apply elem_of_dom in Hk as [v Hv].
  by apply (elem_of_dom_2 _ _ v), Hf.
Qed.

Lemma slack_extends s s' : extends s s' -> slack Vs s' <= slack Vs s.
Proof.
  intros H%extends_dom. unfold slack. apply subseteq_size. set_solver.
Qed.

Lemma slack_pending k s :
  k ∈ (cprod Vs Vs : gset (Value * Value)) -> CachedResults s !! k = None ->
  slack Vs (pending k s) < slack Vs s.
Proof.
  intros Hk Hnone%not_elem_of_dom. unfold slack. apply subset_size.
  unfold pending. simpl. rewrite dom_insert_L.
  split; [set_solver|]. intros Hsub.
  assert (k ∈ cprod Vs Vs ∖ dom (CachedResults s)) as Hin by set_solver.
  apply Hsub in Hin. set_solver.
Qed.

Lemma slack_bound s : slack Vs s <= size (cprod Vs Vs : gset (Value * Value)).
Proof. unfold slack. apply subseteq_size. set_solver. Qed.

Lemma pairKey_universe A B :
  A ∈ Vs -> B ∈ Vs -> pairKey A B ∈ (cprod Vs Vs : gset (Value * Value)).
Proof.
  intros HA HB. apply elem_of_gset_cprod. unfold pairKey.
  by destruct (B <? A)%N.
Qed.

Lemma pairKey_members A B :
  A ∈ Vs -> B ∈ Vs -> (pairKey A B).1 ∈ Vs /\ (pairKey A B).2 ∈ Vs.
Proof. intros HA HB. unfold pairKey. by destruct (B <? A)%N. Qed.

Hypothesis closed : closedUniverse ir co Vs.

Lemma related_finishes fuel A B s :
  A ∈ Vs -> B ∈ Vs -> slack Vs s + size Vs < fuel ->
  finishes ir Vs (related ir co fuel A B s).1.
Proof.
  revert A B s. induction fuel as [|fuel IH]; intros A B s HA HB Hfuel; [lia|].
  destruct closed as (HU & Hphi & Hsel & Huse).
  destruct (CachedResults s !! pairKey A B) as [r0|] eqn:Hk.
  { rewrite (related_hit ir co _ _ _ _ _ Hk). by split. }
  rewrite (related_miss ir co _ _ _ _ Hk). simpl.
  pose proof (pairKey_universe A B HA HB) as Hin.
  pose proof (pairKey_members A B HA HB) as [Hk1 Hk2].
  pose proof (slack_pending _ _ Hin Hk) as Hlt.
  set (k := pairKey A B) in *.
  assert (sound extends (fun e _ _ => finishes ir Vs e) (pending k s)
            (relatedCheck ir co (related ir co fuel) fuel k.1 k.2)) as Hs.
  { apply (sound_relatedCheck ir co extends (fun e _ _ => finishes ir Vs e)
             (fun v => v ∈ Vs) fuel (related ir co fuel)
             extends_refl extends_trans (fun _ _ _ _ _ H => H)
             HU Hphi Hsel).
    - intros v w PN PNB x bb Hv Hw Kv Kw Hpar Hx Hnone _.
      split; [done|]. intros Hm. by destruct (Hm v w PN PNB x bb).
    - intros v s' Hv. pose proof (extends_escape ir fuel v s') as He.
      unfold escapeCheck, bind, emit in *. simpl in *.
      destruct (isStoredObjCPointer_terminates ir Vs fuel v) as [r Hr];
        [done|done|lia|].
      by rewrite Hr in *.
    - intros A' B' HA' HB' s' Hs'.
      pose proof (related_extends ir co fuel A' B' s') as He.
      assert (finishes ir Vs (related ir co fuel A' B' s').1) as Hf.
      { apply IH; [done|done|]. apply slack_extends in Hs'. lia. }
      by destruct (related ir co fuel A' B' s') as [[r| |] s2].
    - done.
    - done. }
  specialize (Hs (pending k s) (extends_refl _)). unfold post in Hs.
  destruct (relatedCheck _ _ _ _ _ _ _) as [[r| |] s2]; simpl; [by split|done..].
Qed.

(** On a finite IR whose phis satisfy the block invariant, a query with
    enough fuel returns, and the state it leaves extends the state it
    found. *)
Lemma related_returns fuel A B s :
  edgesMatch ir Vs -> A ∈ Vs -> B ∈ Vs -> slack Vs s + size Vs < fuel ->
  exists r s', related ir co fuel A B s = (Ok r, s') /\ extends s s'.
Proof.
  intros Hm HA HB Hfuel.
  pose proof (related_finishes fuel A B s HA HB Hfuel) as [Hf1 Hf2].
  pose proof (related_extends ir co fuel A B s) as He.
  destruct (related ir co fuel A B s) as [[r| |] s']; simpl in *.
  - by exists r, s'.
  - by destruct Hf2.
  - done.
Qed.

End Finite.

(** ** Sequences of queries *)

Section Queries.

Variable ir : IR.
Variable co : Collaborators.

Lemma queries_extends fuel qs s : extends s (queries ir co fuel qs s).2.
Proof.
  revert s. induction qs as [|[A B] qs IH]; intros s; simpl.
  { apply extends_refl. }
  unfold bind. pose proof (related_extends ir co fuel A B s) as H1.
  destruct (related ir co fuel A B s) as [[r| |] s1]; simpl in *; try done.
  specialize (IH s1).
  destruct (queries ir co fuel qs s1) as [[rs| |] s2]; simpl in *;
    by eapply extends_trans.
Qed.

Lemma queries_reachable fuel qs s rs s' :
  reachable ir co s -> queries ir co fuel qs s = (Ok rs, s') ->
  reachable ir co s'.
Proof.
  revert s rs. induction qs as [|[A B] qs IH]; intros s rs Hs; simpl.
  { by intros [= <- <-]. }
  unfold bind.
  destruct (related ir co fuel A B s) as [[r| |] s1] eqn:H1; try done.
  destruct (queries ir co fuel qs s1) as [[rs'| |] s2] eqn:H2; try done.
  intros [= <- <-]. eapply IH; [|done]. by eapply reachable_query.
Qed.

(** An answer, once in the cache, is what every later query of the pair
    returns, in whichever order the operands are given. *)
Lemma related_again fuel A B s r :
  CachedResults s !! pairKey A B = Some r ->
  related ir co (S fuel) B A s = (Ok r, s).
Proof. intros H. apply related_hit. by rewrite pairKey_comm. Qed.

End Queries.

(** ** The decomposition as a chain of queries *)

Lemma anyRelated_chain rel ps : anyRelated rel ps = chain rel ps (ret false).
Proof. induction ps as [|[x y] ps IH]; simpl; [done|]. by rewrite IH. Qed.

Lemma distinct_elem (l : list Value) x : x ∈ distinct l <-> x ∈ l.
Proof.
  induction l as [|y l IH]; simpl; [done|].
  rewrite !elem_of_cons, list_elem_of_filter, IH.
  destruct (decide (x = y)); naive_solver.
Qed.

Lemma distinct_NoDup (l : list Value) : NoDup (distinct l).
Proof.
  induction l as [|y l IH]; simpl; [constructor|].
  constructor; [|by apply NoDup_filter].
  rewrite list_elem_of_filter. naive_solver.
Qed.

Lemma relatedSources_chain rel inc (UniqueSrc : gset Value) B :
  relatedSources rel inc UniqueSrc B
  = chain rel ((fun v => (v, B)) <$>
                 filter (fun v => v ∉ UniqueSrc) (distinct inc.*1))
          (ret false).
Proof.
  revert UniqueSrc. induction inc as [|[x bb] inc IH]; intros UniqueSrc; [done|].
  simpl. destruct (decide (x ∈ UniqueSrc)) as [Hin|Hnin].
  - rewrite IH. rewrite filter_cons_False by (intros Hn; by apply Hn).
    rewrite list_filter_filter. do 2 f_equal.
    apply list_filter_iff. intros y. split; [|naive_solver].
    intros Hy. split; [done|]. by intros ->.
  - rewrite IH. rewrite filter_cons_True by done. simpl.
    rewrite list_filter_filter. do 3 f_equal.
    apply list_filter_iff. intros y. set_solver.
Qed.

Lemma relatedEdges_chain rel inc PNB :
  relatedEdges rel inc PNB
  = chain rel (edgePrefix inc PNB).1 (endWith (edgePrefix inc PNB).2).
Proof.
  induction inc as [|[v bb] inc IH]; simpl; [done|].
  destruct (getIncomingValueForBlock (incoming PNB) bb) as [w|]; simpl; [|done].
  by rewrite IH.
Qed.

Lemma relatedSources_distinct rel inc B :
  relatedSources rel inc ∅ B
  = chain rel ((fun v => (v, B)) <$> distinct inc.*1) (ret false).
Proof.
  rewrite relatedSources_chain. do 2 f_equal.
  induction (distinct inc.*1) as [|y l IH]; [done|].
  rewrite filter_cons_True by set_solver. by rewrite IH.
Qed.

Lemma relatedPHI_chain ir rel A B :
  relatedPHI ir rel A B
  = chain rel (phiPlan ir A B).1 (endWith (phiPlan ir A B).2).
Proof.
  unfold relatedPHI, phiPlan.
  pose proof (relatedSources_distinct rel (incoming A) B) as Hsrc.
  destruct (dyn_cast_PHINode (kind ir B)) as [PNB|]; [|done].
  destruct (getParent PNB =? getParent A)%N; [|done].
  apply relatedEdges_chain.
Qed.

Lemma orElse_ret_false (m : M bool) s : orElse m (ret false) s = m s.
Proof. unfold orElse, bind, ret. by destruct (m s) as [[[]| |] s']. Qed.

Lemma relatedSelect_chain ir rel A B s :
  relatedSelect ir rel A B s
  = chain rel (selectPlan ir A B).1 (endWith (selectPlan ir A B).2) s.
Proof.
  assert (forall (a b : M bool),
            orElse a b s = orElse a (orElse b (ret false)) s) as Harms.
  { intros a b. unfold orElse at 1 2, bind.
    destruct (a s) as [[[]| |] s']; try done. by rewrite orElse_ret_false. }
  unfold relatedSelect, selectPlan.
  destruct (dyn_cast_SelectInst (kind ir B)) as [SB|]; [|apply Harms].
  destruct (getCondition A =? getCondition SB)%N; apply Harms.
Qed.

Lemma decompose_chain ir rel A B s :
  decompose ir rel A B s
  = chain rel (plan ir A B).1 (endWith (plan ir A B).2) s.
Proof.
  unfold decompose, plan.
  destruct (dyn_cast_PHINode (kind ir A)); [by rewrite relatedPHI_chain|].
  destruct (dyn_cast_PHINode (kind ir B)); [by rewrite relatedPHI_chain|].
  destruct (dyn_cast_SelectInst (kind ir A)); [apply relatedSelect_chain|].
  destruct (dyn_cast_SelectInst (kind ir B)); [apply relatedSelect_chain|].
  done.
Qed.

(** ** Answers and derivations *)

Lemma Acc_no_cycle {A} (R : relation A) x : Acc (flip R) x -> ~ tc R x x.
Proof.
  induction 1 as [x _ IH]. intros Htc.
  inversion Htc as [? ? Hxx|? y ? Hxy Hyx]; subst.
  - apply (IH x Hxx). by apply tc_once.
  - apply (IH y Hxy). by eapply tc_r.
Qed.

Section Justified.

Variable ir : IR.
Variable co : Collaborators.

Lemma Unrelated_Acc a b :
  Unrelated ir co a b -> Acc (flip (queries_of ir co)) (a, b).
Proof.
  induction 1 as [a b Hsc|a b P fuel Hsc _|a b Hsc Hend _ IH];
    constructor; intros c [Hnone Hc]; simpl in *; try congruence.
  destruct Hc as (x & y & Hin & ->).
  specialize (IH x y Hin). by destruct (pairKey x y).
Qed.

Lemma Unrelated_acyclic k :
  Unrelated ir co k.1 k.2 -> ~ tc (queries_of ir co) k k.
Proof.
  intros H. apply Acc_no_cycle. destruct k as [a b]. by apply Unrelated_Acc.
Qed.

Lemma assigned_extends s s' p : extends s s' -> assigned s p -> assigned s' p.
Proof.
  intros (_ & [l Hl] & _) [r Hr]. exists r. rewrite Hl.
  apply elem_of_app. by right.
Qed.

Lemma settlesAll_refl s : settlesAll s s.
Proof. intros p Hp. by left. Qed.

Lemma settlesAll_trans s1 s2 s3 :
  settlesAll s1 s2 -> settlesAll s2 s3 -> extends s2 s3 -> settlesAll s1 s3.
Proof.
  intros H12 H23 He p Hp. destruct (H23 p Hp) as [Hp2|?]; [|by right].
  destruct (H12 p Hp2) as [?|Ha]; [by left|].
  right. by eapply assigned_extends.
Qed.

(** While the pair [k] is pending it has no final overwrite. *)
Lemma pending_not_assigned k s s2 :
  traceInv s -> (k.1 <= k.2)%N -> CachedResults s !! k = None ->
  extends (pending k s) s2 -> ~ assigned s2 k.
Proof.
  intros Hinv Hord Hk Hext [r Hr].
  destruct (extends_pending k s Hord Hk) as (_ & _ & Hp).
  destruct (Hp Hinv) as [Hinv1 _]. destruct Hext as (_ & _ & Ht).
  destruct (Ht Hinv1) as [_ Hn].
  assert (EvAssign k r ∈ trace (pending k s)) as Hin.
  { apply Hn; [|done]. simpl. rewrite dom_insert_L. set_solver. }
  simpl in Hin. apply elem_of_cons in Hin as [?|Hin]; [done|].
  apply elem_of_cons in Hin as [?|Hin]; [done|].
  destruct Hinv as [Hwf Hdom].
  assert (k ∈ dom (CachedResults s)) as Hd
    by (by eapply Hdom, trace_wf_check, trace_wf_assign).
  by apply not_elem_of_dom in Hk.
Qed.

(** The final overwrite of a pending pair keeps the finals justified when
    the value written is justified. *)
Lemma finalsJustified_settle k r s s2 :
  traceInv s -> (k.1 <= k.2)%N -> CachedResults s !! k = None ->
  extends (pending k s) s2 -> finalsJustified ir co s2 ->
  (r = false <-> Unrelated ir co k.1 k.2) ->
  finalsJustified ir co (settle k r s2).
Proof.
  intros Hinv Hord Hk Hext [Hfin Htrue] Hr. split.
  - intros k' r' Hin. simpl in *.
    apply elem_of_cons in Hin as [[= -> ->]|Hin].
    { split; [apply lookup_insert_eq|done]. }
    destruct (Hfin k' r' Hin) as [Hc Hu]. split; [|done].
    rewrite lookup_insert_ne; [done|]. intros <-.
    apply (pending_not_assigned k s s2); try done. by exists r'.
  - intros k' v Hc Hna. simpl in Hc.
    destruct (decide (k = k')) as [<-|Hne].
    { destruct Hna. exists r. left. }
    rewrite lookup_insert_ne in Hc by done.
    apply (Htrue k' v Hc). intros [r' Hr']. apply Hna. exists r'. by right.
Qed.

Lemma finalsJustified_pending k s :
  CachedResults s !! k = None ->
  finalsJustified ir co s -> finalsJustified ir co (pending k s).
Proof.
  intros Hk [Hfin Htrue]. split.
  - intros k' r' Hin. simpl in *.
    apply elem_of_cons in Hin as [?|Hin]; [done|].
    apply elem_of_cons in Hin as [?|Hin]; [done|].
    destruct (Hfin k' r' Hin) as [Hc Hu]. split; [|done].
    rewrite lookup_insert_ne; [done|congruence].
  - intros k' v Hc Hna. simpl in Hc.
    destruct (decide (k = k')) as [<-|Hne].
    { rewrite lookup_insert_eq in Hc. congruence. }
    rewrite lookup_insert_ne in Hc by done.
    apply (Htrue k' v Hc). intros [r' Hr']. apply Hna. exists r'.
    simpl. by do 2 right.
Qed.

Lemma finalsJustified_escape P s :
  finalsJustified ir co s ->
  finalsJustified ir co (mkState (CachedResults s) (EvEscape P :: trace s)).
Proof.
  intros [Hfin Htrue]. split.
  - intros k' r' Hin. simpl in *.
    apply elem_of_cons in Hin as [?|Hin]; [done|]. by apply Hfin.
  - intros k' v Hc Hna. simpl in Hc.
    apply (Htrue k' v Hc). intros [r' Hr']. apply Hna. exists r'. by right.
Qed.

Lemma assigned_dec s k : assigned s k \/ ~ assigned s k.
Proof.
  destruct (decide (EvAssign k true ∈ trace s)) as [?|Ht]; [left; by eexists|].
  destruct (decide (EvAssign k false ∈ trace s)) as [?|Hf]; [left; by eexists|].
  right. by intros [[] ?].
Qed.

Lemma settlesAll_settle k r s s2 :
  settlesAll (pending k s) s2 -> settlesAll s (settle k r s2).
Proof.
  intros H p Hp. simpl in Hp. rewrite dom_insert_L in Hp.
  assert (assigned (settle k r s2) k) as Hk by (exists r; left).
  apply elem_of_union in Hp as [->%elem_of_singleton|Hp]; [by right|].
  destruct (H p Hp) as [Hp1|[r' Hr']].
  - simpl in Hp1. rewrite dom_insert_L in Hp1.
    apply elem_of_union in Hp1 as [->%elem_of_singleton|?]; [by right|by left].
  - right. exists r'. by right.
Qed.

(** Inside the computation of [k] the pending pairs are those of the
    caller and [k] itself, so each of them is above every pair that the
    decomposition of [k] queries. *)
Lemma pendingAbove_child k c s s2 :
  traceInv s -> pendingAbove ir co s k -> queries_of ir co k c ->
  extends (pending k s) s2 -> settlesAll (pending k s) s2 ->
  pendingAbove ir co s2 c.
Proof.
  intros Hinv Habove Hkc Hext Hset p Hp Hna.
  destruct (Hset p Hp) as [Hp1|?]; [|done].
  simpl in Hp1. rewrite dom_insert_L in Hp1.
  apply elem_of_union in Hp1 as [->%elem_of_singleton|Hp1]; [by apply tc_once|].
  eapply tc_r; [|done]. apply Habove; [done|].
  intros [r Hr]. apply Hna. apply (assigned_extends (pending k s)); [done|].
  exists r. simpl. by do 2 right.
Qed.

Lemma chain_justified rel s1 ps e s2 :
  traceInv s1 ->
  (forall x y s, (x, y) ∈ ps -> extends s1 s -> finalsJustified ir co s ->
     settlesAll s1 s ->
     justifies ir co (rel x y) (pairKey x y) s /\ extends s (rel x y s).2) ->
  extends s1 s2 -> finalsJustified ir co s2 -> settlesAll s1 s2 ->
  (forall r s3, chain rel ps (endWith e) s2 = (Ok r, s3) ->
     extends s1 s3 /\ finalsJustified ir co s3 /\ settlesAll s1 s3 /\
     (r = false <->
      e = EndFalse /\
      forall x y, (x, y) ∈ ps ->
        Unrelated ir co (pairKey x y).1 (pairKey x y).2)) /\
  (e = EndFalse ->
   (forall x y, (x, y) ∈ ps ->
      Unrelated ir co (pairKey x y).1 (pairKey x y).2) ->
   (chain rel ps (endWith e) s2).1 <> Fault).
Proof.
  intros Hinv1. revert s2.
  induction ps as [|[x y] ps IH]; intros s2 Hrel He2 Hfin2 Hset2.
  { simpl. split.
    - intros r s3. destruct e; simpl; intros [= <- <-]; split_and!; try done.
      + split; [|done]. intros _. split; [done|].
        intros x y Hin. by apply elem_of_nil in Hin.
      + split; [done|]. by intros [? _].
    - by intros ->. }
  assert (forall x' y' s, (x', y') ∈ ps -> extends s1 s ->
            finalsJustified ir co s -> settlesAll s1 s ->
            justifies ir co (rel x' y') (pairKey x' y') s /\
            extends s (rel x' y' s).2) as Hrel'.
  { intros x' y' s Hin. apply Hrel. by right. }
  destruct (Hrel x y s2) as [[Hok Hnf] Hext]; [left|done..|].
  simpl. unfold orElse, bind.
  destruct (rel x y s2) as [[r1| |] s2'] eqn:Hr1; simpl in *.
  - destruct (Hok r1 s2' eq_refl) as (Hfin2' & Hset2' & Hiff).
    assert (extends s1 s2') as He2' by (by eapply extends_trans).
    assert (settlesAll s1 s2') as Hs12' by (by eapply settlesAll_trans).
    destruct r1.
    + split; [|intros _ Hall; discriminate].
      intros r s3 [= <- <-]. split_and!; try done.
      split; [done|]. intros [_ Hall].
      apply Hiff, Hall. left.
    + destruct (IH s2' Hrel' He2' Hfin2' Hs12') as [IHok IHnf].
      split.
      * intros r s3 Hc. destruct (IHok r s3 Hc) as (? & ? & ? & Hr).
        split_and!; try done. rewrite Hr. split.
        -- intros [? Hall]. split; [done|].
           intros x' y' Hin. apply elem_of_cons in Hin as [[= -> ->]|Hin].
           ++ by apply Hiff.
           ++ by apply Hall.
        -- intros [? Hall]. split; [done|].
           intros x' y' Hin. apply Hall. by right.
      * intros Hend Hall. apply IHnf; [done|].
        intros x' y' Hin. apply Hall. by right.
  - split; [done|]. intros _ Hall. destruct Hnf; [|done]. apply Hall. left.
  - split; [done|]. by intros _ _.
Qed.

Lemma related_justifies fuel A B s :
  traceInv s -> finalsJustified ir co s ->
  pendingAbove ir co s (pairKey A B) ->
  justifies ir co (related ir co fuel A B) (pairKey A B) s.
Proof.
  revert A B s. induction fuel as [|fuel IH]; intros A B s Hinv Hfin Habove.
  { split; [done|]. by intros _. }
  pose proof (pairKey_ordered A B) as Hord.
  unfold justifies.
  destruct (CachedResults s !! pairKey A B) as [v|] eqn:Hk.
  { rewrite (related_hit ir co _ _ _ _ _ Hk). split; [|by intros _].
    intros r s' [= <- <-]. split_and!; [done|apply settlesAll_refl|].
    destruct (assigned_dec s (pairKey A B)) as [[r Hr]|Hna].
    - destruct Hfin as [Hfin _]. destruct (Hfin _ _ Hr) as [Hc Hu].
      by simplify_eq.
    - assert (tc (queries_of ir co) (pairKey A B) (pairKey A B)) as Hcyc.
      { apply Habove; [|done]. by apply (elem_of_dom_2 _ _ v). }
      destruct Hfin as [_ Htrue]. rewrite (Htrue _ _ Hk Hna).
      split; [done|]. by intros ?%Unrelated_acyclic. }
  rewrite (related_miss ir co _ _ _ _ Hk). simpl.
  set (k := pairKey A B) in *.
  pose proof (extends_pending k s Hord Hk) as Hep.
  assert (traceInv (pending k s)) as Hinvp.
  { destruct Hep as (_ & _ & Hp). by destruct (Hp Hinv). }
  pose proof (finalsJustified_pending k s Hk Hfin) as Hfinp.
  rewrite relatedCheck_shortcut.
  destruct (shortcut ir co k.1 k.2) as [[r0|P]|] eqn:Hsc.
  - (* decided by the objects alone *)
    simpl. split; [|done]. intros r s' [= <- <-].
    assert (r0 = false <-> Unrelated ir co k.1 k.2) as Hiff.
    { split.
      - intros ->. by apply Unrelated_decided.
      - intros Hu. inversion Hu; subst; congruence. }
    split_and!; [|by apply settlesAll_settle, settlesAll_refl|done].
    apply (finalsJustified_settle k r0 s); done || apply extends_refl.
  - (* decided by the escape detector *)
    destruct (escapeCheck ir fuel P (pending k s)) as [[r1| |] s1] eqn:He;
      [|exfalso|split; [done|by intros _]].
    + pose proof (extends_escape ir fuel P (pending k s)) as Hes.
      rewrite He in Hes. simpl in Hes.
      apply escapeCheck_Ok in He as [HP ->]. split; [|done].
      intros r s' [= <- <-].
      assert (r1 = false <-> Unrelated ir co k.1 k.2) as Hiff.
      { split.
        - intros ->. by eapply Unrelated_escape.
        - intros Hu. inversion Hu as [| ? ? P' fuel' Hsc' HP' |]; subst;
            try congruence.
          rewrite Hsc in Hsc'. injection Hsc' as <-.
          by eapply isStoredObjCPointer_agree. }
      split_and!; [| |done].
      * apply (finalsJustified_settle k r1 s _ Hinv Hord Hk Hes); [|done].
        by apply (finalsJustified_escape P (pending k s)).
      * apply settlesAll_settle. intros p Hp. by left.
    + unfold escapeCheck, bind, emit in He. simpl in He.
      by destruct (isStoredObjCPointer ir fuel P).
  - (* decomposed *)
    rewrite decompose_chain.
    set (ps := (plan ir (GetUnderlyingObjCPtr co k.1)
                        (GetUnderlyingObjCPtr co k.2)).1) in *.
    set (e := (plan ir (GetUnderlyingObjCPtr co k.1)
                       (GetUnderlyingObjCPtr co k.2)).2) in *.
    destruct (chain_justified (related ir co fuel) (pending k s) ps e
                (pending k s) Hinvp) as [Hok Hnf];
      [|apply extends_refl|done|apply settlesAll_refl|].
    { intros x y s2 Hin He2 Hfin2 Hset2.
      split; [|apply related_extends].
      apply IH; [|done|].
      - destruct He2 as (_ & _ & Ht). by destruct (Ht Hinvp).
      - apply (pendingAbove_child k _ s); try done.
        split; [done|]. by exists x, y. }
    assert (Unrelated ir co k.1 k.2 <->
            e = EndFalse /\
            forall x y, (x, y) ∈ ps ->
              Unrelated ir co (pairKey x y).1 (pairKey x y).2) as Hun.
    { split.
      - intros Hu. inversion Hu; subst; try congruence. done.
      - intros [? ?]. by apply Unrelated_decompose. }
    destruct (chain (related ir co fuel) ps (endWith e) (pending k s))
      as [[r1| |] s1] eqn:Hc.
    + destruct (Hok r1 s1 eq_refl) as (He1 & Hfin1 & Hset1 & Hiff).
      split; [|done]. intros r s' [= <- <-].
      rewrite <- Hun in Hiff.
      split_and!; [| |done].
      * by apply (finalsJustified_settle k r1 s).
      * by apply settlesAll_settle.
    + split; [done|]. intros Hu. simpl.
      apply Hun in Hu as [? ?]. by destruct Hnf.
    + split; [done|]. by intros _.
Qed.

Lemma finalsJustified_fresh : finalsJustified ir co fresh.
Proof.
  split.
  - intros k r Hin. by apply elem_of_nil in Hin.
  - intros k v Hc. simpl in Hc. by rewrite lookup_empty in Hc.
Qed.

Lemma quiescent_pendingAbove s k : quiescent s -> pendingAbove ir co s k.
Proof. intros Hq p Hp Hna. destruct Hna. by apply Hq. Qed.

(** Between two queries the finals are justified and no slot is pending. *)
Lemma reachable_justified s :
  reachable ir co s -> finalsJustified ir co s /\ quiescent s.
Proof.
  induction 1 as [|s fuel A B r s' Hs [Hfin Hq] Hrel].
  { split; [apply finalsJustified_fresh|].
    intros p Hp. simpl in Hp. set_solver. }
  pose proof (reachable_traceInv ir co s Hs) as Hinv.
  destruct (related_justifies fuel A B s Hinv Hfin) as [Hok _];
    [by apply quiescent_pendingAbove|].
  destruct (Hok r s' Hrel) as (Hfin' & Hset & _). split; [done|].
  intros p Hp. destruct (Hset p Hp) as [Hp0|?]; [|done].
  apply (assigned_extends s); [|by apply Hq].
  pose proof (related_extends ir co fuel A B s) as He. by rewrite Hrel in He.
Qed.

Lemma reachable_justifies fuel A B s :
  reachable ir co s ->
  justifies ir co (related ir co fuel A B) (pairKey A B) s.
Proof.
  intros Hs. destruct (reachable_justified s Hs) as [Hfin Hq].
  apply related_justifies; [by apply (reachable_traceInv ir co)|done|].
  by apply quiescent_pendingAbove.
Qed.

Lemma reachable_answer fuel A B s r s' :
  reachable ir co s -> related ir co fuel A B s = (Ok r, s') ->
  (r = false <-> Unrelated ir co (pairKey A B).1 (pairKey A B).2).
Proof.
  intros Hs Hrel. destruct (reachable_justifies fuel A B s Hs) as [Hok _].
  by destruct (Hok r s' Hrel) as (_ & _ & ?).
Qed.

Lemma Unrelated_same_object a b :
  GetUnderlyingObjCPtr co a = GetUnderlyingObjCPtr co b ->
  ~ Unrelated ir co a b.
Proof.
  intros Hab.
  assert (shortcut ir co a b = Some (Decided true)) as Hsc.
  { unfold shortcut. by rewrite Hab, N.eqb_refl. }
  intros Hu. inversion Hu; subst; congruence.
Qed.

Lemma Unrelated_fallback a b :
  shortcut ir co a b = None ->
  (plan ir (GetUnderlyingObjCPtr co a) (GetUnderlyingObjCPtr co b)).2
    = EndTrue ->
  ~ Unrelated ir co a b.
Proof. intros Hsc Hend Hu. inversion Hu; subst; congruence. Qed.

End Justified.

(** ** Use lists in another order *)

(** Two IRs that give every value the same kind and the same uses, in
    whatever order and multiplicity. *)
Lemma same_uses_reaches ir1 ir2 P Q :
  (forall v, kind ir1 v = kind ir2 v) ->
  (forall v u, u ∈ uses ir1 v <-> u ∈ uses ir2 v) ->
  reaches ir1 P Q -> reaches ir2 P Q.
Proof.
  intros Hk Hu. induction 1 as [|x y z [Ht [i Hi]] _ IH]; [done|].
  eapply rtc_l; [|done]. split.
  - unfold tracked in *. by rewrite <- Hk.
  - exists i. by apply Hu.
Qed.

Lemma same_uses_exposed ir1 ir2 x :
  (forall v, kind ir1 v = kind ir2 v) ->
  (forall v u, u ∈ uses ir1 v <-> u ∈ uses ir2 v) ->
  exposed ir1 x -> exposed ir2 x.
Proof.
  intros Hk Hu (u & Hin & He). exists u. split; [by apply Hu|].
  unfold escapingUse, tracked in *. by rewrite <- !Hk.
Qed.

(** ** The value of a slot *)

Section Slots.

Variable ir : IR.
Variable co : Collaborators.

Lemma slotsInv_fresh : slotsInv fresh.
Proof.
  split.
  - intros k r Hin. by apply elem_of_nil in Hin.
  - intros k v Hc. simpl in Hc. by rewrite lookup_empty in Hc.
Qed.

Lemma slotsInv_pending k s :
  CachedResults s !! k = None -> slotsInv s -> slotsInv (pending k s).
Proof.
  intros Hk [Hfin Htrue]. split.
  - intros k' r' Hin. simpl in *.
    apply elem_of_cons in Hin as [?|Hin]; [done|].
    apply elem_of_cons in Hin as [?|Hin]; [done|].
    rewrite lookup_insert_ne; [by apply Hfin|].
    intros <-. specialize (Hfin _ _ Hin). congruence.
  - intros k' v Hc Hna. simpl in Hc.
    destruct (decide (k = k')) as [<-|Hne].
    { rewrite lookup_insert_eq in Hc. congruence. }
    rewrite lookup_insert_ne in Hc by done.
    apply (Htrue k' v Hc). intros [r' Hr']. apply Hna. exists r'.
    simpl. by do 2 right.
Qed.

Lemma slotsInv_escape P s :
  slotsInv s -> slotsInv (mkState (CachedResults s) (EvEscape P :: trace s)).
Proof.
  intros [Hfin Htrue]. split.
  - intros k' r' Hin. simpl in *.
    apply elem_of_cons in Hin as [?|Hin]; [done|]. by apply Hfin.
  - intros k' v Hc Hna. simpl in Hc.
    apply (Htrue k' v Hc). intros [r' Hr']. apply Hna. exists r'. by right.
Qed.

Lemma slotsInv_settle k r s s2 :
  traceInv s -> (k.1 <= k.2)%N -> CachedResults s !! k = None ->
  extends (pending k s) s2 -> slotsInv s2 -> slotsInv (settle k r s2).
Proof.
  intros Hinv Hord Hk Hext [Hfin Htrue]. split.
  - intros k' r' Hin. simpl in *.
    apply elem_of_cons in Hin as [[= -> ->]|Hin].
    { apply lookup_insert_eq. }
    rewrite lookup_insert_ne; [by apply Hfin|]. intros <-.
    apply (pending_not_assigned k s s2); try done. by exists r'.
  - intros k' v Hc Hna. simpl in Hc.
    destruct (decide (k = k')) as [<-|Hne].
    { destruct Hna. exists r. left. }
    rewrite lookup_insert_ne in Hc by done.
    apply (Htrue k' v Hc). intros [r' Hr']. apply Hna. exists r'. by right.
Qed.

Lemma keepsSlots_refl s : keepsSlots s s.
Proof. split; [apply extends_refl|done]. Qed.

Lemma keepsSlots_trans s1 s2 s3 :
  keepsSlots s1 s2 -> keepsSlots s2 s3 -> keepsSlots s1 s3.
Proof.
  intros [He1 Hs1] [He2 Hs2]. split; [by eapply extends_trans|].
  intros Hinv H1. apply Hs2; [|by apply Hs1].
  destruct He1 as (_ & _ & Ht). by destruct (Ht Hinv).
Qed.

Lemma keepsSlots_escape fuel v s : keepsSlots s (escapeCheck ir fuel v s).2.
Proof.
  split; [apply extends_escape|].
  unfold escapeCheck, bind, emit. simpl. intros _ Hs.
  destruct (isStoredObjCPointer ir fuel v); by apply slotsInv_escape.
Qed.

(** Every call keeps the slots, whatever its outcome. *)
Lemma related_keepsSlots fuel A B s :
  keepsSlots s (related ir co fuel A B s).2.
Proof.
  revert A B s. induction fuel as [|fuel IH]; intros A B s.
  { apply keepsSlots_refl. }
  destruct (CachedResults s !! pairKey A B) as [r0|] eqn:Hk.
  { rewrite (related_hit ir co _ _ _ _ _ Hk). apply keepsSlots_refl. }
  pose proof (related_extends ir co (S fuel) A B s) as Hext.
  split; [done|]. intros Hinv Hs.
  rewrite (related_miss ir co _ _ _ _ Hk) in *. simpl in *.
  pose proof (pairKey_ordered A B) as Hord.
  set (k := pairKey A B) in *.
  assert (keepsSlots (pending k s)
            (relatedCheck ir co (related ir co fuel) fuel k.1 k.2 (pending k s)).2)
    as [Hce Hcs].
  { apply post_uniform_inv.
    assert (sound keepsSlots (fun _ => keepsSlots) (pending k s)
              (relatedCheck ir co (related ir co fuel) fuel k.1 k.2)) as Hsd.
    { apply (sound_relatedCheck ir co keepsSlots (fun _ => keepsSlots)
               (fun _ => True) fuel (related ir co fuel)
               keepsSlots_refl keepsSlots_trans (fun _ => keepsSlots_trans)
               (fun _ _ => I) (fun _ _ _ _ _ _ _ => I)
               (fun _ _ _ _ => conj I I)
               (fun _ _ _ _ _ _ _ _ _ _ _ _ _ s => keepsSlots_refl s)
               (fun v s _ => post_uniform _ _ _ (keepsSlots_escape fuel v s)));
        [|done..].
      intros A' B' _ _ s' _. apply post_uniform, IH. }
    apply Hsd, keepsSlots_refl. }
  pose proof (extends_pending k s Hord Hk) as (_ & _ & Hp).
  destruct (Hp Hinv) as [Hinvp _].
  pose proof (Hcs Hinvp (slotsInv_pending k s Hk Hs)) as Hs2.
  destruct (relatedCheck _ _ _ _ _ _ _) as [[r| |] s2]; simpl in *; try done.
  by apply (slotsInv_settle k r s).
Qed.

Lemma queries_keepsSlots fuel qs s :
  keepsSlots s (queries ir co fuel qs s).2.
Proof.
  revert s. induction qs as [|[A B] qs IH]; intros s; simpl.
  { apply keepsSlots_refl. }
  unfold bind. pose proof (related_keepsSlots fuel A B s) as H1.
  destruct (related ir co fuel A B s) as [[r| |] s1]; simpl in *; try done.
  specialize (IH s1).
  destruct (queries ir co fuel qs s1) as [[rs| |] s2]; simpl in *;
    by eapply keepsSlots_trans.
Qed.

End Slots.

(** ** Answers *)

Section Answers.

Variable ir : IR.
Variable co : Collaborators.

Lemma answer_Unrelated x y b :
  answer ir co x y b ->
  (b = false <-> Unrelated ir co (pairKey x y).1 (pairKey x y).2).
Proof. intros (s & fuel & s' & Hs & Hr). by eapply reachable_answer. Qed.

(** The answers to the queries on a list of pairs are all false exactly
    when every pair has a derivation. *)
Lemma answers_Unrelated (ps : list (Value * Value)) (ans : list bool) :
  Forall2 (fun p b => answer ir co p.1 p.2 b) ps ans ->
  (existsb id ans = false <->
   forall x y, (x, y) ∈ ps ->
     Unrelated ir co (pairKey x y).1 (pairKey x y).2).
Proof.
  induction 1 as [|[x y] b ps ans Hb _ IH]; simpl.
  { split; [|done]. intros _ x y Hin. by apply elem_of_nil in Hin. }
  apply answer_Unrelated in Hb. simpl in Hb.
  rewrite orb_false_iff, IH. change (id b) with b. rewrite Hb. split.
  - intros [Hxy Hall] x' y' Hin.
    apply elem_of_cons in Hin as [[= -> ->]|Hin]; auto.
  - intros Hall. split; [apply Hall; left|].
    intros x' y' Hin. apply Hall. by right.
Qed.

(** The answer to a query that no shortcut settles, and whose
    decomposition ends with false when none of its queries answers true,
    is the disjunction of the answers to the queries of the
    decomposition. *)
Lemma decomposed_answer A B r (ans : list bool) :
  let k := pairKey A B in
  let p := plan ir (GetUnderlyingObjCPtr co k.1) (GetUnderlyingObjCPtr co k.2) in
  answer ir co A B r ->
  shortcut ir co k.1 k.2 = None ->
  p.2 = EndFalse ->
  Forall2 (fun q b => answer ir co q.1 q.2 b) p.1 ans ->
  r = existsb id ans.
Proof.
  intros k p Hr Hsc Hend Hans.
  apply answer_Unrelated in Hr. fold k in Hr.
  apply answers_Unrelated in Hans.
  assert (Unrelated ir co k.1 k.2 <->
          forall x y, (x, y) ∈ p.1 ->
            Unrelated ir co (pairKey x y).1 (pairKey x y).2) as Hun.
  { split.
    - intros Hu. inversion Hu; subst; try congruence. done.
    - intros ?. by apply Unrelated_decompose. }
  destruct r, (existsb id ans); try done.
  - destruct Hr as [_ Hr]. by apply Hr, Hun, Hans.
  - destruct Hans as [_ Hans]. symmetry. by apply Hans, Hun, Hr.
Qed.

Lemma answer_comm x y b : answer ir co x y b -> answer ir co y x b.
Proof.
  intros (s & fuel & s' & Hs & Hr). exists s, fuel, s'. split; [done|].
  assert (related ir co fuel y x = related ir co fuel x y) as ->; [|done].
  destruct fuel as [|fuel]; [done|]. simpl. by rewrite (pairKey_comm y x).
Qed.

Lemma edgePairs_edgePrefix inc PNB ps :
  edgePairs inc PNB = Some ps -> edgePrefix inc PNB = (ps, EndFalse).
Proof.
  revert ps. induction inc as [|[v bb] inc IH]; intros ps; simpl.
  { by intros [= <-]. }
  destruct (getIncomingValueForBlock (incoming PNB) bb) as [w|]; [|done].
  destruct (edgePairs inc PNB) as [ps'|]; [|done].
  intros [= <-]. by rewrite (IH ps').
Qed.

End Answers.

(** * The claims *)

(** ** Symmetry *)

(** C3: on one analysis instance [related(A,B)] and [related(B,A)] are the
    same computation: they agree, outcome and state, from every state;
    and once [related(A,B)] has returned [r], every later [related(B,A)]
    on that instance, after any further queries, returns [r] too. *)
Theorem related_symmetric ir co fuel A B s :
  related ir co fuel A B s = related ir co fuel B A s /\
  (forall r s', related ir co fuel A B s = (Ok r, s') ->
     forall fuel1 qs fuel2,
       let s'' := (queries ir co fuel1 qs s').2 in
       related ir co (S fuel2) B A s'' = (Ok r, s'')).
Proof.
  split.
  - destruct fuel as [|fuel]; [done|]. simpl. by rewrite (pairKey_comm A B).
  - intros r s' Hr fuel1 qs fuel2 s''. apply related_again.
    apply (queries_extends ir co fuel1 qs s').
    by apply (related_Ok_cached ir co fuel A B s).
Qed.

Lemma related_symmetric_witness :
  let s' := (related irLoop coMay 4 10 3 fresh).2 in
  related irLoop coMay 4 10 3 fresh = related irLoop coMay 4 3 10 fresh /\
  related irLoop coMay 1 3 10 s' = (Ok true, s').
Proof.
  intros s'. split.
  - apply (related_symmetric irLoop coMay 4 10 3 fresh).
  - apply (proj2 (related_symmetric irLoop coMay 4 10 3 fresh) true s'
             ltac:(vm_compute; reflexivity) 0 [] 0).
Defined.

(** ** The base oracle *)

Section Shortcuts.

Variable ir : IR.
Variable co : Collaborators.

Lemma shortcut_NoAlias a b :
  GetUnderlyingObjCPtr co a <> GetUnderlyingObjCPtr co b ->
  alias co (GetUnderlyingObjCPtr co a) (GetUnderlyingObjCPtr co b) = NoAlias ->
  shortcut ir co a b = Some (Decided false).
Proof.
  intros Hne Hal. unfold shortcut.
  destruct (N.eqb_spec (GetUnderlyingObjCPtr co a) (GetUnderlyingObjCPtr co b));
    [done|].
  by rewrite Hal.
Qed.

Lemma shortcut_identified a b :
  GetUnderlyingObjCPtr co a <> GetUnderlyingObjCPtr co b ->
  alias co (GetUnderlyingObjCPtr co a) (GetUnderlyingObjCPtr co b) = MayAlias ->
  IsObjCIdentifiedObject co (GetUnderlyingObjCPtr co a) = true ->
  IsObjCIdentifiedObject co (GetUnderlyingObjCPtr co b) = true ->
  isaLoadInst (kind ir (GetUnderlyingObjCPtr co a)) = false ->
  isaLoadInst (kind ir (GetUnderlyingObjCPtr co b)) = false ->
  shortcut ir co a b = Some (Decided false).
Proof.
  intros Hne Hal Ha Hb La Lb. unfold shortcut.
  destruct (N.eqb_spec (GetUnderlyingObjCPtr co a) (GetUnderlyingObjCPtr co b));
    [done|].
  by rewrite Hal, Ha, Hb, La, Lb.
Qed.

(** When the second operand is a load and the first is identified, the
    escape rule is applied to the first operand. *)
Lemma shortcut_escape_first a b :
  GetUnderlyingObjCPtr co a <> GetUnderlyingObjCPtr co b ->
  alias co (GetUnderlyingObjCPtr co a) (GetUnderlyingObjCPtr co b) = MayAlias ->
  IsObjCIdentifiedObject co (GetUnderlyingObjCPtr co a) = true ->
  isaLoadInst (kind ir (GetUnderlyingObjCPtr co b)) = true ->
  shortcut ir co a b = Some (ByEscape (GetUnderlyingObjCPtr co a)).
Proof.
  intros Hne Hal Ha Lb. unfold shortcut.
  destruct (N.eqb_spec (GetUnderlyingObjCPtr co a) (GetUnderlyingObjCPtr co b));
    [done|].
  rewrite Hal, Ha, Lb.
  by destruct (IsObjCIdentifiedObject co (GetUnderlyingObjCPtr co b)).
Qed.

(** When the first operand is a load and the second is identified, the
    escape rule is applied to the second operand, unless the first one is
    identified as well and the second is a load. *)
Lemma shortcut_escape_second a b :
  GetUnderlyingObjCPtr co a <> GetUnderlyingObjCPtr co b ->
  alias co (GetUnderlyingObjCPtr co a) (GetUnderlyingObjCPtr co b) = MayAlias ->
  IsObjCIdentifiedObject co (GetUnderlyingObjCPtr co b) = true ->
  isaLoadInst (kind ir (GetUnderlyingObjCPtr co a)) = true ->
  IsObjCIdentifiedObject co (GetUnderlyingObjCPtr co a) = false \/
  isaLoadInst (kind ir (GetUnderlyingObjCPtr co b)) = false ->
  shortcut ir co a b = Some (ByEscape (GetUnderlyingObjCPtr co b)).
Proof.
  intros Hne Hal Hb La Hor. unfold shortcut.
  destruct (N.eqb_spec (GetUnderlyingObjCPtr co a) (GetUnderlyingObjCPtr co b));
    [done|].
  rewrite Hal, Hb, La. destruct Hor as [->| ->]; [done|].
  by destruct (IsObjCIdentifiedObject co (GetUnderlyingObjCPtr co a)).
Qed.

End Shortcuts.

(** C2 fails as stated: the oracle answers NoAlias for the pair (2, 3),
    in either order, and yet [related(2, 3)] is true, because both
    operands have the same underlying object. *)
Lemma NoAlias_same_underlying_object :
  alias coFields 2 3 = NoAlias /\ alias coFields 3 2 = NoAlias /\
  (related irFields coFields 5 2 3 fresh).1 = Ok true /\
  (related irFields coFields 5 2 3 fresh).1 <> Ok false.
Proof. by vm_compute. Qed.

(** C2, amended: on every state of an analysis instance, when the
    underlying objects of the address-ordered pair are two different
    values and the oracle answers NoAlias for them, [related(A, B)]
    returns false. *)
Theorem related_NoAlias ir co s fuel A B :
  reachable ir co s ->
  GetUnderlyingObjCPtr co (pairKey A B).1
    <> GetUnderlyingObjCPtr co (pairKey A B).2 ->
  alias co (GetUnderlyingObjCPtr co (pairKey A B).1)
           (GetUnderlyingObjCPtr co (pairKey A B).2) = NoAlias ->
  (related ir co (S fuel) A B s).1 = Ok false.
Proof.
  intros Hs Hne Hal. apply related_decided.
  - by apply reachable_agrees.
  - by apply shortcut_NoAlias.
Qed.

Lemma related_NoAlias_witness :
  (related irLoop coApart 1 2 1 (related irLoop coApart 3 7 8 fresh).2).1
  = Ok false.
Proof.
  apply (related_NoAlias irLoop coApart).
  - apply (reachable_query irLoop coApart fresh 3 7 8 true);
      [apply reachable_fresh|vm_compute; reflexivity].
  - by vm_compute.
  - by vm_compute.
Defined.

(** ** Identified objects and the escape rule *)

(** A checkable form of [usersClosed]. *)
Lemma usersClosed_check ir (Vs : gset Value) :
  bool_decide (set_Forall (fun x => Forall (fun u => u.1 ∈ Vs) (uses ir x)) Vs)
    = true ->
  usersClosed ir Vs.
Proof.
  intros H%bool_decide_eq_true x Ur i Hx Hu.
  specialize (H x Hx). rewrite Forall_forall in H. by apply (H (Ur, i)).
Qed.

(** C8: on every state of an analysis instance, two distinct identified
    objects (after canonicalization, the oracle answering MayAlias) of which
    neither is a load result are unrelated, whether or not they are
    stored. *)
Theorem related_distinct_identified ir co s fuel A B :
  reachable ir co s ->
  GetUnderlyingObjCPtr co (pairKey A B).1
    <> GetUnderlyingObjCPtr co (pairKey A B).2 ->
  alias co (GetUnderlyingObjCPtr co (pairKey A B).1)
           (GetUnderlyingObjCPtr co (pairKey A B).2) = MayAlias ->
  IsObjCIdentifiedObject co (GetUnderlyingObjCPtr co A) = true ->
  IsObjCIdentifiedObject co (GetUnderlyingObjCPtr co B) = true ->
  isaLoadInst (kind ir (GetUnderlyingObjCPtr co A)) = false ->
  isaLoadInst (kind ir (GetUnderlyingObjCPtr co B)) = false ->
  (related ir co (S fuel) A B s).1 = Ok false.
Proof.
  intros Hs Hne Hal HA HB LA LB. apply related_decided.
  - by apply reachable_agrees.
  - unfold pairKey in *.
    destruct (B <? A)%N; simpl in *; by apply shortcut_identified.
Qed.

Lemma related_distinct_identified_witness :
  (related irBody coLocal 1 3 2 fresh).1 = Ok false.
Proof.
  apply (related_distinct_identified irBody coLocal fresh 0 3 2);
    [apply reachable_fresh|by vm_compute..].
Defined.

(** C10 fails as stated: two operands that are identified objects and
    load results do not always get the answer of the escape detector.
    The loads 4 and 5 are identified objects and 4 is stored, so the
    detector answers true for 4; but when the oracle separates them,
    [relatedCheck] returns false without running the detector.  And for
    the pair of the load 5 with itself, for which the detector answers
    false, [relatedCheck] returns true at the identity check. *)
Lemma identified_loads_settled_before_escape_rule :
  IsObjCIdentifiedObject coLocalApart 4 = true /\
  IsObjCIdentifiedObject coLocalApart 5 = true /\
  isaLoadInst (kind irBody 4) = true /\
  isaLoadInst (kind irBody 5) = true /\
  isStoredObjCPointer irBody 5 4 = Some true /\
  relatedCheck irBody coLocalApart (related irBody coLocalApart 5) 5 4 5 fresh
    = (Ok false, fresh) /\
  (related irBody coLocalApart 6 4 5 fresh).1 = Ok false /\
  isStoredObjCPointer irBody 5 5 = Some false /\
  relatedCheck irBody coLocal (related irBody coLocal 5) 5 5 5 fresh
    = (Ok true, fresh).
Proof. split_and!; by vm_compute. Qed.

(** C10, amended: when both canonicalized operands are identified objects
    and both are load results, and the query reaches the escape rule (the
    canonicalized operands are different values and the oracle answers
    MayAlias for them), [relatedCheck] is the escape check of its first
    operand; so a query, on every state of an analysis instance, returns
    the escape detector's answer for the underlying object of the first
    element of the address-ordered pair, and the only value on which it
    may run the detector is that one. *)
Theorem both_identified_loads ir co A B :
  let a := GetUnderlyingObjCPtr co (pairKey A B).1 in
  let b := GetUnderlyingObjCPtr co (pairKey A B).2 in
  a <> b -> alias co a b = MayAlias ->
  IsObjCIdentifiedObject co a = true -> IsObjCIdentifiedObject co b = true ->
  isaLoadInst (kind ir a) = true -> isaLoadInst (kind ir b) = true ->
  (forall rel fuel,
     relatedCheck ir co rel fuel (pairKey A B).1 (pairKey A B).2
     = escapeCheck ir fuel a) /\
  (forall s fuel r,
     reachable ir co s -> isStoredObjCPointer ir fuel a = Some r ->
     (related ir co (S fuel) A B s).1 = Ok r /\
     forall v, EvEscape v ∈ trace (related ir co (S fuel) A B s).2 ->
       v = a \/ EvEscape v ∈ trace s).
Proof.
  intros a b Hne Hal Ha Hb La Lb.
  assert (shortcut ir co (pairKey A B).1 (pairKey A B).2 = Some (ByEscape a))
    as Hsc by (by apply shortcut_escape_first).
  split.
  - intros rel fuel. by rewrite relatedCheck_shortcut, Hsc.
  - intros s fuel r Hs Hr. apply related_byEscape; [|done..].
    by apply reachable_agrees.
Qed.

Lemma both_identified_loads_witness :
  relatedCheck irBody coLocal (related irBody coLocal 5) 5 4 5
    = escapeCheck irBody 5 4 /\
  (related irBody coLocal 6 5 4 fresh).1 = Ok true.
Proof.
  destruct (both_identified_loads irBody coLocal 5 4) as [H1 H2];
    [by vm_compute..|].
  split.
  - apply (H1 (related irBody coLocal 5) 5).
  - apply (H2 fresh 5 true); [apply reachable_fresh|by vm_compute].
Defined.

Section EscapeRule.

Variable ir : IR.
Variable co : Collaborators.

(** The operand on which the escape rule runs the detector.  [A] is the
    identified object and [B] the load; the rule picks [A] except when [A]
    is a load too, [B] is identified too, and [B] comes first in the
    address order. *)
Lemma escape_rule_operand A B :
  let A' := GetUnderlyingObjCPtr co A in
  let B' := GetUnderlyingObjCPtr co B in
  A' <> B' ->
  alias co (GetUnderlyingObjCPtr co (pairKey A B).1)
           (GetUnderlyingObjCPtr co (pairKey A B).2) = MayAlias ->
  IsObjCIdentifiedObject co A' = true ->
  isaLoadInst (kind ir B') = true ->
  ~ (isaLoadInst (kind ir A') = true /\
     IsObjCIdentifiedObject co B' = true /\ (B < A)%N) ->
  shortcut ir co (pairKey A B).1 (pairKey A B).2 = Some (ByEscape A').
Proof.
  intros A' B' Hne Hal HA LB Hnot. unfold pairKey in *.
  destruct (N.ltb_spec B A) as [Hlt|Hle]; simpl in *.
  - apply shortcut_escape_second; try done.
    destruct (IsObjCIdentifiedObject co (GetUnderlyingObjCPtr co B)) eqn:HB;
      [|by left].
    destruct (isaLoadInst (kind ir (GetUnderlyingObjCPtr co A))) eqn:LA;
      [|by right].
    destruct Hnot. by split_and!.
  - by apply shortcut_escape_first.
Qed.

Lemma related_escape_rule s fuel A B r :
  let A' := GetUnderlyingObjCPtr co A in
  let B' := GetUnderlyingObjCPtr co B in
  reachable ir co s ->
  A' <> B' ->
  alias co (GetUnderlyingObjCPtr co (pairKey A B).1)
           (GetUnderlyingObjCPtr co (pairKey A B).2) = MayAlias ->
  IsObjCIdentifiedObject co A' = true ->
  isaLoadInst (kind ir B') = true ->
  ~ (isaLoadInst (kind ir A') = true /\
     IsObjCIdentifiedObject co B' = true /\ (B < A)%N) ->
  isStoredObjCPointer ir fuel A' = Some r ->
  (related ir co (S fuel) A B s).1 = Ok r.
Proof.
  intros A' B' Hs Hne Hal HA LB Hnot Hr.
  eapply related_byEscape; [by apply reachable_agrees| |done].
  by apply escape_rule_operand.
Qed.

End EscapeRule.

(** C1 fails as stated: the integer 22 is a pointer-to-integer result
    reachable from the identified object 6, the scan visits it, and still
    the detector answers false, because the only use of 22 is a call
    argument; so 6 compared against the load 50 is unrelated. *)
Lemma ptrtoint_passed_to_call_only :
  reaches irBody 6 22 /\ isaPtrToIntInst (kind irBody 22) = true /\
  isStoredObjCPointer irBody 5 6 = Some false /\
  IsObjCIdentifiedObject coLocal 6 = true /\
  isaLoadInst (kind irBody 50) = true /\
  (related irBody coLocal 6 6 50 fresh).1 = Ok false.
Proof.
  split_and!; try by vm_compute.
  apply rtc_once. split; [by vm_compute|]. exists 0%nat. simpl. left.
Qed.

(** C1, amended: on a finite use-graph, when some value [P] reachable from
    [V] through the uses the scan follows is a pointer-to-integer result
    and has a use [u] that the scan does not skip (the user is not a call,
    and is not a store that only stores through [P]), the detector
    answers true; then an identified object with underlying object [V],
    compared against a load result in a query that reaches the escape
    rule for it, is related. *)
Theorem ptrtoint_escapes ir co Vs fuel V P u :
  usersClosed ir Vs -> V ∈ Vs -> size Vs <= fuel ->
  reaches ir V P -> isaPtrToIntInst (kind ir P) = true ->
  u ∈ uses ir P -> isaCallInst (kind ir u.1) = false ->
  (isaStoreInst (kind ir u.1) = false \/ u.2 = 0%nat) ->
  isStoredObjCPointer ir fuel V = Some true /\
  forall s A B,
    reachable ir co s ->
    GetUnderlyingObjCPtr co A = V ->
    V <> GetUnderlyingObjCPtr co B ->
    alias co (GetUnderlyingObjCPtr co (pairKey A B).1)
             (GetUnderlyingObjCPtr co (pairKey A B).2) = MayAlias ->
    IsObjCIdentifiedObject co V = true ->
    isaLoadInst (kind ir (GetUnderlyingObjCPtr co B)) = true ->
    ~ (isaLoadInst (kind ir V) = true /\
       IsObjCIdentifiedObject co (GetUnderlyingObjCPtr co B) = true /\
       (B < A)%N) ->
    (related ir co (S fuel) A B s).1 = Ok true.
Proof.
  intros Hcl HV Hfuel Hreach HP Hu Hcall Hstore.
  assert (isStoredObjCPointer ir fuel V = Some true) as Htrue.
  { destruct (isStoredObjCPointer_terminates ir Vs fuel V) as [[|] Hr];
      try done.
    exfalso. apply (isStoredObjCPointer_false ir fuel V Hr P Hreach).
    exists u. split; [done|].
    destruct (isaStoreInst (kind ir u.1)) eqn:HS.
    - left. by destruct Hstore.
    - right. by repeat split. }
  split; [done|].
  intros s A B Hs <- Hne Hal HA LB Hnot.
  by apply related_escape_rule.
Qed.

Lemma ptrtoint_escapes_witness :
  isStoredObjCPointer irBody 3 1 = Some true /\
  (related irBody coLocal 4 1 50 fresh).1 = Ok true.
Proof.
  destruct (ptrtoint_escapes irBody coLocal {[1; 20; 21]}%N 3 1%N 20%N
              (21%N, 0%nat)) as [H1 H2].
  - apply usersClosed_check. by vm_compute.
  - set_solver.
  - by vm_compute.
  - apply rtc_once. split; [by vm_compute|]. exists 0%nat. simpl. left.
  - done.
  - simpl. left.
  - done.
  - by left.
  - split; [done|].
    apply (H2 fresh 1%N 50%N); try by vm_compute.
    + apply reachable_fresh.
    + intros (H & _). by vm_compute in H.
Defined.

(** C9 fails as stated: the identified object 5 is passed to a call and
    has no other use, so the detector answers false for it; but 5 is
    itself a load result, and compared against the identified load 4,
    which precedes it in the address order, the escape rule runs the
    detector on 4, whose value is stored: the two are related. *)
Lemma call_only_load_against_stored_load :
  Forall (fun u => isaCallInst (kind irBody u.1) = true) (uses irBody 5) /\
  IsObjCIdentifiedObject coLocal 5 = true /\
  isStoredObjCPointer irBody 5 5 = Some false /\
  isaLoadInst (kind irBody 4) = true /\
  (related irBody coLocal 6 5 4 fresh).1 = Ok true.
Proof.
  split_and!; try by vm_compute.
  repeat constructor.
Qed.

(** C9, amended: on a finite use-graph, when every use of the identified
    object [A] and of every value the scan derives from it is a call
    argument, a store through the value, or a use by a user the scan
    follows of a value that is not a pointer-to-integer result, the
    detector answers false (calls are never followed); then [A] compared
    against a load result, in a query that reaches the escape rule, is
    unrelated, provided the rule applies to [A]: [A] is not itself a load
    result, or the load is not identified, or it does not precede [A] in
    the address order. *)
Theorem call_argument_no_escape ir co Vs fuel A :
  usersClosed ir Vs -> A ∈ Vs -> size Vs <= fuel ->
  (forall P u, reaches ir A P -> u ∈ uses ir P ->
     isaCallInst (kind ir u.1) = true \/
     (isaStoreInst (kind ir u.1) = true /\ u.2 <> 0%nat) \/
     (isaStoreInst (kind ir u.1) = false /\
      isaPtrToIntInst (kind ir P) = false)) ->
  isStoredObjCPointer ir fuel A = Some false /\
  forall s X B,
    reachable ir co s ->
    GetUnderlyingObjCPtr co X = A ->
    A <> GetUnderlyingObjCPtr co B ->
    alias co (GetUnderlyingObjCPtr co (pairKey X B).1)
             (GetUnderlyingObjCPtr co (pairKey X B).2) = MayAlias ->
    IsObjCIdentifiedObject co A = true ->
    isaLoadInst (kind ir (GetUnderlyingObjCPtr co B)) = true ->
    ~ (isaLoadInst (kind ir A) = true /\
       IsObjCIdentifiedObject co (GetUnderlyingObjCPtr co B) = true /\
       (B < X)%N) ->
    (related ir co (S fuel) X B s).1 = Ok false.
Proof.
  intros Hcl HA Hfuel Huses.
  assert (isStoredObjCPointer ir fuel A = Some false) as Hfalse.
  { destruct (isStoredObjCPointer_terminates ir Vs fuel A) as [[|] Hr];
      try done.
    exfalso. apply isStoredObjCPointer_true in Hr as (P & HP & u & Hu & Hbad).
    destruct (Huses P u HP Hu) as [Hc|[[Hs Hn]|[Hs Hp]]],
             Hbad as [[Hs' H0]|[[Hs' Hc'] Hp']];
      try congruence.
    destruct (kind ir u.1); simpl in *; congruence. }
  split; [done|].
  intros s X B Hs <- Hne Hal HI LB Hnot.
  by apply related_escape_rule.
Qed.

Lemma call_argument_no_escape_witness :
  isStoredObjCPointer irBody 2 2 = Some false /\
  (related irBody coLocal 3 2 50 fresh).1 = Ok false.
Proof.
  destruct (call_argument_no_escape irBody coLocal {[2; 30]}%N 2 2%N)
    as [H1 H2].
  - apply usersClosed_check. by vm_compute.
  - set_solver.
  - by vm_compute.
  - intros P u HP Hu.
    assert (P = 2%N) as ->.
    { inversion HP as [|x y z [[_ Hc] [i Hi]] _]; [done|]. subst.
      simpl in Hi. apply list_elem_of_singleton in Hi as [= -> _].
      by vm_compute in Hc. }
    simpl in Hu. apply list_elem_of_singleton in Hu as ->. by left.
  - split; [done|].
    apply (H2 fresh 2%N 50%N); try by vm_compute.
    + apply reachable_fresh.
    + intros (H & _). by vm_compute in H.
Defined.

(** ** Structural decomposition *)

Section Decomposition.

Variable ir : IR.
Variable co : Collaborators.

Lemma related_comm fuel A B : related ir co fuel A B = related ir co fuel B A.
Proof. destruct fuel as [|fuel]; [done|]. simpl. by rewrite (pairKey_comm A B). Qed.

Lemma related_miss_memoize fuel A B s :
  CachedResults s !! pairKey A B = None ->
  related ir co (S fuel) A B s =
    memoize (pairKey A B)
      (relatedCheck ir co (related ir co fuel) fuel
         (pairKey A B).1 (pairKey A B).2) s.
Proof. intros H. by rewrite (related_miss ir co _ _ _ _ H). Qed.

(** A pair of different underlying objects about which the oracle is
    undecided, neither a load and not both identified, reaches the
    structural decomposition. *)
Lemma shortcut_structural a b :
  GetUnderlyingObjCPtr co a <> GetUnderlyingObjCPtr co b ->
  alias co (GetUnderlyingObjCPtr co a) (GetUnderlyingObjCPtr co b) = MayAlias ->
  isaLoadInst (kind ir (GetUnderlyingObjCPtr co a)) = false ->
  isaLoadInst (kind ir (GetUnderlyingObjCPtr co b)) = false ->
  IsObjCIdentifiedObject co (GetUnderlyingObjCPtr co a)
    && IsObjCIdentifiedObject co (GetUnderlyingObjCPtr co b) = false ->
  shortcut ir co a b = None.
Proof.
  intros Hne Hal La Lb Hid. unfold shortcut.
  destruct (N.eqb_spec (GetUnderlyingObjCPtr co a) (GetUnderlyingObjCPtr co b));
    [done|].
  rewrite Hal, La, Lb.
  by destruct (IsObjCIdentifiedObject co (GetUnderlyingObjCPtr co a)),
              (IsObjCIdentifiedObject co (GetUnderlyingObjCPtr co b)).
Qed.

Lemma relatedEdges_edgePairs rel inc PNB ps :
  edgePairs inc PNB = Some ps ->
  relatedEdges rel inc PNB = anyRelated rel ps.
Proof.
  revert ps. induction inc as [|[v bb] inc IH]; intros ps; simpl.
  { by intros [= <-]. }
  destruct (getIncomingValueForBlock (incoming PNB) bb) as [w|]; [|done].
  destruct (edgePairs inc PNB) as [ps'|]; [|done].
  intros [= <-]. simpl. by rewrite (IH ps').
Qed.

End Decomposition.

(** C6: a query on two selects with the same condition that reaches the
    structural decomposition (different underlying objects, the oracle
    undecided, the operands not both identified) answers
    [related(T, T2) || related(F, F2)].  On a state in which the pair has
    no slot yet the query is the memoized run of the two queries, the
    second one being made only when the first one answers false: it
    answers true when the query on the true arms answers true, and what
    the query on the false arms answers when the query on the true arms
    answers false.  And between queries every answer to the query is the
    disjunction of an answer to the query on the true arms and an answer
    to the query on the false arms; so it is true when the true arms are
    unrelated and the false arms are related. *)
Theorem select_same_condition ir co fuel A B s SA SB :
  let k := pairKey A B in
  CachedResults s !! k = None ->
  GetUnderlyingObjCPtr co A <> GetUnderlyingObjCPtr co B ->
  alias co (GetUnderlyingObjCPtr co k.1) (GetUnderlyingObjCPtr co k.2)
    = MayAlias ->
  IsObjCIdentifiedObject co (GetUnderlyingObjCPtr co A)
    && IsObjCIdentifiedObject co (GetUnderlyingObjCPtr co B) = false ->
  kind ir (GetUnderlyingObjCPtr co A) = Select SA ->
  kind ir (GetUnderlyingObjCPtr co B) = Select SB ->
  getCondition SA = getCondition SB ->
  related ir co (S fuel) A B s
  = memoize k
      (orElse (related ir co fuel (getTrueValue SA) (getTrueValue SB))
              (related ir co fuel (getFalseValue SA) (getFalseValue SB))) s /\
  (forall s1,
     related ir co fuel (getTrueValue SA) (getTrueValue SB) (pending k s)
       = (Ok true, s1) ->
     related ir co (S fuel) A B s = (Ok true, settle k true s1)) /\
  (forall s1 r2 s2,
     related ir co fuel (getTrueValue SA) (getTrueValue SB) (pending k s)
       = (Ok false, s1) ->
     related ir co fuel (getFalseValue SA) (getFalseValue SB) s1
       = (Ok r2, s2) ->
     related ir co (S fuel) A B s = (Ok r2, settle k r2 s2)) /\
  (forall r r1 r2,
     answer ir co A B r ->
     answer ir co (getTrueValue SA) (getTrueValue SB) r1 ->
     answer ir co (getFalseValue SA) (getFalseValue SB) r2 ->
     r = r1 || r2).
Proof.
  intros k Hk Hne Hal Hid KA KB Hcond.
  assert (shortcut ir co k.1 k.2 = None) as Hsc.
  { subst k. unfold pairKey in *.
    destruct (N.ltb_spec B A) as [Hlt|Hle]; simpl in *.
    - apply shortcut_structural; [by rewrite ?KA, ?KB..|by rewrite andb_comm].
    - apply shortcut_structural; by rewrite ?KA, ?KB. }
  assert (related ir co (S fuel) A B s
          = memoize k
              (orElse (related ir co fuel (getTrueValue SA) (getTrueValue SB))
                 (related ir co fuel (getFalseValue SA) (getFalseValue SB))) s)
    as Heq.
  { rewrite (related_miss_memoize ir co _ _ _ _ Hk). fold k.
    rewrite relatedCheck_shortcut, Hsc. subst k. unfold pairKey in *.
    destruct (N.ltb_spec B A) as [Hlt|Hle]; simpl in *.
    - unfold decompose, relatedSelect. rewrite KA, KB. simpl.
      rewrite Hcond, N.eqb_refl.
      by rewrite (related_comm ir co fuel (getTrueValue SB)),
                 (related_comm ir co fuel (getFalseValue SB)).
    - unfold decompose, relatedSelect. rewrite KA, KB. simpl.
      by rewrite Hcond, N.eqb_refl. }
  split_and!; [done| | |].
  - intros s1 H1. rewrite Heq. unfold memoize, orElse, bind. by rewrite H1.
  - intros s1 r2 s2 H1 H2. rewrite Heq.
    unfold memoize, orElse, bind. by rewrite H1, H2.
  - intros r r1 r2 Hr H1 H2.
    assert (r = existsb id [r1; r2]) as ->;
      [|simpl; by rewrite orb_false_r].
    apply (decomposed_answer ir co A B); [done|done|..]; fold k.
    + subst k. unfold pairKey.
      destruct (N.ltb_spec B A) as [Hlt|Hle]; simpl;
        unfold plan, selectPlan; rewrite ?KA, ?KB; simpl;
        by rewrite ?Hcond, N.eqb_refl.
    + subst k. unfold pairKey.
      destruct (N.ltb_spec B A) as [Hlt|Hle]; simpl;
        unfold plan, selectPlan; rewrite ?KA, ?KB; simpl;
        rewrite ?Hcond, N.eqb_refl; simpl;
        repeat constructor; simpl; try done; by apply answer_comm.
Qed.

Lemma select_same_condition_witness :
  (related irMerge coCross 2 1 2 (pending (12, 13)%N fresh)).1 = Ok false /\
  (related irMerge coCross 3 12 13 fresh).1 = Ok true /\
  (related irMerge coMay 3 12 13 fresh).1 = Ok true /\
  (forall r, answer irMerge coCross 12 13 r -> r = true) /\
  (forall r, answer irMerge coSplit 12 13 r -> r = false).
Proof.
  assert (forall co x y r,
            related irMerge co 5 x y fresh
            = (Ok r, (related irMerge co 5 x y fresh).2) ->
            answer irMerge co x y r) as Hans.
  { intros co x y r H. exists fresh, 5, (related irMerge co 5 x y fresh).2.
    split; [apply reachable_fresh|done]. }
  split; [by vm_compute|].
  destruct (select_same_condition irMerge coCross 2 12 13 fresh
              (mkSelect 5 1 6) (mkSelect 5 2 8)) as (_ & _ & Hft & Hor);
    [by vm_compute..|].
  destruct (select_same_condition irMerge coMay 2 12 13 fresh
              (mkSelect 5 1 6) (mkSelect 5 2 8)) as (_ & Ht & _ & _);
    [by vm_compute..|].
  destruct (select_same_condition irMerge coSplit 2 12 13 fresh
              (mkSelect 5 1 6) (mkSelect 5 2 8)) as (_ & _ & _ & Hor');
    [by vm_compute..|].
  split_and!.
  - rewrite (Hft (related irMerge coCross 2 1 2 (pending (12, 13)%N fresh)).2
               true
               (related irMerge coCross 2 6 8
                  (related irMerge coCross 2 1 2
                     (pending (12, 13)%N fresh)).2).2);
      [done|vm_compute; reflexivity..].
  - rewrite (Ht (related irMerge coMay 2 1 2 (pending (12, 13)%N fresh)).2);
      [done|vm_compute; reflexivity].
  - intros r Hr.
    apply (Hor r false true Hr); apply Hans; vm_compute; reflexivity.
  - intros r Hr.
    apply (Hor' r false false Hr); apply Hans; vm_compute; reflexivity.
Defined.

(** C7: a query on two phis of one block that reaches the structural
    decomposition answers the OR, over the incoming indices of the first
    phi of the address-ordered pair, of the queries on its incoming value
    and the incoming value of the other phi for the same block.  On a
    state in which the pair has no slot yet the query is the memoized run
    of these queries, in order and up to the first true answer; and
    between queries every answer to the query is the disjunction of answers
    to these queries, one for each incoming index.  No other pair of
    incoming values enters the disjunction. *)
Theorem phi_same_block ir co fuel A B s PA PB ps :
  let k := pairKey A B in
  CachedResults s !! k = None ->
  GetUnderlyingObjCPtr co k.1 <> GetUnderlyingObjCPtr co k.2 ->
  alias co (GetUnderlyingObjCPtr co k.1) (GetUnderlyingObjCPtr co k.2)
    = MayAlias ->
  IsObjCIdentifiedObject co (GetUnderlyingObjCPtr co k.1)
    && IsObjCIdentifiedObject co (GetUnderlyingObjCPtr co k.2) = false ->
  kind ir (GetUnderlyingObjCPtr co k.1) = Phi PA ->
  kind ir (GetUnderlyingObjCPtr co k.2) = Phi PB ->
  getParent PB = getParent PA ->
  edgePairs (incoming PA) PB = Some ps ->
  related ir co (S fuel) A B s
  = memoize k (anyRelated (related ir co fuel) ps) s /\
  (forall r (ans : list bool),
     answer ir co A B r ->
     Forall2 (fun p b => answer ir co p.1 p.2 b) ps ans ->
     r = existsb id ans).
Proof.
  intros k Hk Hne Hal Hid KA KB Hpar Hps.
  assert (shortcut ir co k.1 k.2 = None) as Hsc
    by (apply shortcut_structural; by rewrite ?KA, ?KB).
  split.
  - rewrite (related_miss_memoize ir co _ _ _ _ Hk). fold k.
    rewrite relatedCheck_shortcut, Hsc.
    unfold decompose, relatedPHI. rewrite KA, KB. simpl.
    rewrite Hpar, N.eqb_refl. by rewrite (relatedEdges_edgePairs _ _ _ ps).
  - intros r ans Hr Hans.
    assert (plan ir (GetUnderlyingObjCPtr co k.1) (GetUnderlyingObjCPtr co k.2)
            = (ps, EndFalse)) as Hplan.
    { unfold plan, phiPlan. rewrite KA, KB. simpl.
      rewrite Hpar, N.eqb_refl. by apply edgePairs_edgePrefix. }
    apply (decomposed_answer ir co A B); fold k; try done.
    + by rewrite Hplan.
    + by rewrite Hplan.
Qed.

Lemma phi_same_block_witness :
  (related irMerge coCross 3 1 4 fresh).1 = Ok true /\
  (related irMerge coCross 3 3 2 fresh).1 = Ok true /\
  related irMerge coCross 3 10 11 fresh
  = memoize (10, 11)%N
      (anyRelated (related irMerge coCross 2) [(1, 2); (3, 4)]%N) fresh /\
  (related irMerge coCross 3 10 11 fresh).1 = Ok false /\
  (forall r, answer irMerge coCross 10 11 r -> r = false) /\
  (forall r, answer irMerge coApart 10 11 r -> r = true) /\
  (forall r, answer irMerge coMay 10 11 r -> r = true).
Proof.
  assert (forall co x y r,
            related irMerge co 5 x y fresh
            = (Ok r, (related irMerge co 5 x y fresh).2) ->
            answer irMerge co x y r) as Hans.
  { intros co x y r H. exists fresh, 5, (related irMerge co 5 x y fresh).2.
    split; [apply reachable_fresh|done]. }
  destruct (phi_same_block irMerge coCross 2 10 11 fresh
              (mkPHI 7 [(1, 8); (3, 9)])%N (mkPHI 7 [(2, 8); (4, 9)])%N
              [(1, 2); (3, 4)]%N) as [H Hor]; [by vm_compute..|].
  destruct (phi_same_block irMerge coApart 2 10 11 fresh
              (mkPHI 7 [(1, 8); (3, 9)])%N (mkPHI 7 [(2, 8); (4, 9)])%N
              [(1, 2); (3, 4)]%N) as [_ Hor1]; [by vm_compute..|].
  destruct (phi_same_block irMerge coMay 2 10 11 fresh
              (mkPHI 7 [(1, 8); (3, 9)])%N (mkPHI 7 [(2, 8); (4, 9)])%N
              [(1, 2); (3, 4)]%N) as [_ Hor2]; [by vm_compute..|].
  split_and!; [by vm_compute|by vm_compute|done| | | |].
  - rewrite H. by vm_compute.
  - intros r Hr. apply (Hor r [false; false] Hr).
    repeat constructor; apply Hans; vm_compute; reflexivity.
  - intros r Hr. apply (Hor1 r [false; true] Hr).
    repeat constructor; apply Hans; vm_compute; reflexivity.
  - intros r Hr. apply (Hor2 r [true; true] Hr).
    repeat constructor; apply Hans; vm_compute; reflexivity.
Defined.

(** ** Termination and cycles *)

Lemma closedUniverseb_sound ir co Vs :
  closedUniverseb ir co Vs = true -> closedUniverse ir co Vs.
Proof.
  unfold closedUniverseb. rewrite forallb_forall.
  intros H.
  assert (forall v, v ∈ Vs ->
            GetUnderlyingObjCPtr co v ∈ Vs /\
            operandsIn Vs (kind ir v) = true /\
            forallb (fun u => bool_decide (u.1 ∈ Vs)) (uses ir v) = true) as H'.
  { intros v Hv. specialize (H v). rewrite <- list_elem_of_In in H.
    rewrite elem_of_elements in H. specialize (H Hv).
    apply andb_prop in H as [H H3]. apply andb_prop in H as [H1 H2].
    by apply bool_decide_eq_true in H1. }
  split_and!.
  - intros v Hv. by apply H'.
  - intros v PN x bb Hv Kv Hx. destruct (H' v Hv) as (_ & Hop & _).
    rewrite Kv in Hop. simpl in Hop. rewrite forallb_forall in Hop.
    specialize (Hop (x, bb)). rewrite <- list_elem_of_In in Hop.
    by apply bool_decide_eq_true in Hop; [|done].
  - intros v SI Hv Kv. destruct (H' v Hv) as (_ & Hop & _).
    rewrite Kv in Hop. simpl in Hop. apply andb_prop in Hop as [H1 H2].
    by apply bool_decide_eq_true in H1, H2.
  - intros x Ur i Hx Hu. destruct (H' x Hx) as (_ & _ & Hus).
    rewrite forallb_forall in Hus. specialize (Hus (Ur, i)).
    rewrite <- list_elem_of_In in Hus.
    by apply bool_decide_eq_true in Hus; [|done].
Qed.

Lemma edgesMatchb_sound ir Vs : edgesMatchb ir Vs = true -> edgesMatch ir Vs.
Proof.
  unfold edgesMatchb. rewrite forallb_forall.
  intros H v w PN PNB x bb Hv Hw Kv Kw Hpar Hx Hnone.
  specialize (H v). rewrite <- list_elem_of_In, elem_of_elements in H.
  specialize (H Hv). rewrite forallb_forall in H.
  specialize (H w). rewrite <- list_elem_of_In, elem_of_elements in H.
  specialize (H Hw). rewrite Kv, Kw, Hpar, N.eqb_refl in H.
  rewrite forallb_forall in H. specialize (H (x, bb)).
  rewrite <- list_elem_of_In in H. specialize (H Hx). simpl in H.
  by rewrite Hnone in H.
Qed.

(** The loop over the unique sources of a phi that lists [X] itself, run
    while the pair of [X] and [Y] is pending: it answers true, at [X] at
    the latest, provided the queries on the sources before [X] return. *)
Lemma relatedSources_self rel X Y s1 inc UniqueSrc s :
  (forall s', extends s1 s' -> rel X Y s' = (Ok true, s')) ->
  (forall x bb s', (x, bb) ∈ inc -> extends s1 s' ->
     exists r s'', rel x Y s' = (Ok r, s'') /\ extends s' s'') ->
  (exists bb, (X, bb) ∈ inc) -> X ∉ UniqueSrc -> extends s1 s ->
  exists s2, relatedSources rel inc UniqueSrc Y s = (Ok true, s2).
Proof.
  intros Hhit. revert UniqueSrc s.
  induction inc as [|[x bb] inc IH]; intros UniqueSrc s Hret [bX HX] Hnin Hs.
  { by apply elem_of_nil in HX. }
  assert (forall x' bb' s', (x', bb') ∈ inc -> extends s1 s' ->
            exists r s'', rel x' Y s' = (Ok r, s'') /\ extends s' s'') as Hret'.
  { intros x' bb' s' Hin. apply (Hret x' bb'). by right. }
  simpl. destruct (decide (x ∈ UniqueSrc)) as [Hin|Hnew].
  - apply IH; try done.
    apply elem_of_cons in HX as [[= -> ->]|HX]; [done|by exists bX].
  - unfold orElse, bind.
    destruct (decide (x = X)) as [->|Hne].
    { rewrite (Hhit s Hs). by exists s. }
    destruct (Hret x bb s) as (r & s'' & Hr & He); [left|done|].
    rewrite Hr. destruct r; [by exists s''|].
    apply IH; try done.
    + apply elem_of_cons in HX as [[= -> ->]|HX]; [done|by exists bX].
    + set_solver.
    + by eapply extends_trans.
Qed.

(** C4 fails as stated: a query on a phi that lists itself among its
    incoming values does not always return true.  The phi 10 of block 7
    lists itself for the block 8.  Against the phi 11 of the same block the
    query reaches the structural decomposition, which compares the
    corresponding edges only, 10 with 2 and 1 with 4, and never comes back
    to the pending pair: the oracle separates both, and the answer is
    false.  Against the value 2 the oracle settles the query before any
    decomposition, and the answer is false as well. *)
Lemma self_referential_phi_unrelated :
  closedUniverse irSelf coSelf {[1; 2; 4; 10; 11]}%N /\
  edgesMatch irSelf {[1; 2; 4; 10; 11]}%N /\
  kind irSelf 10 = Phi (mkPHI 7 [(10, 8); (1, 9)])%N /\
  shortcut irSelf coSelf 10 11 = None /\
  (related irSelf coSelf 31 10 11 fresh).1 = Ok false /\
  (related irSelf coSelf 31 11 10 fresh).1 = Ok false /\
  (related irSelf coSelf 31 10 2 fresh).1 = Ok false.
Proof.
  split_and!; try by vm_compute.
  - apply closedUniverseb_sound. by vm_compute.
  - apply edgesMatchb_sound. by vm_compute.
Qed.

(** C4, amended: on a finite IR, closed under underlying objects, users
    and the operands of phis and selects, a query with enough fuel never
    runs out of fuel, whatever cycles the phis and selects form, and it
    returns when two phis of one block always have incoming values for the
    same blocks.  A query on a pair whose slot holds the pending [true]
    returns it at once and leaves the state as it is.  And a query returns
    true when it reaches the loop over the incoming values of a phi that
    lists itself: the pair has no slot yet, the operands are their own
    underlying objects, no shortcut applies, and either the first operand
    of the address-ordered pair is the phi and the second one is not a
    phi of its block, or the first operand is not a phi and the second
    one is the phi. *)
Theorem related_terminates ir co (Vs : gset Value) fuel A B s :
  closedUniverse ir co Vs -> A ∈ Vs -> B ∈ Vs -> enoughFuel Vs <= fuel ->
  ((related ir co fuel A B s).1 <> OutOfFuel /\
   (edgesMatch ir Vs -> exists r, (related ir co fuel A B s).1 = Ok r)) /\
  (CachedResults s !! pairKey A B = Some true ->
   related ir co fuel A B s = (Ok true, s)) /\
  (edgesMatch ir Vs ->
   let k := pairKey A B in
   CachedResults s !! k = None ->
   GetUnderlyingObjCPtr co k.1 = k.1 -> GetUnderlyingObjCPtr co k.2 = k.2 ->
   shortcut ir co k.1 k.2 = None ->
   selfReferential ir k.1 k.2 ->
   (related ir co fuel A B s).1 = Ok true).
Proof.
  intros Hcl HA HB Hfuel. unfold enoughFuel in Hfuel.
  pose proof (slack_bound Vs s) as Hslack.
  assert (0 < size Vs) as Hpos.
  { destruct (decide (size Vs = 0)) as [H0|]; [|lia].
    apply size_empty_inv in H0. set_solver. }
  split_and!.
  - apply (related_finishes ir co Vs Hcl); [done..|lia].
  - intros Hm.
    destruct (related_returns ir co Vs Hcl fuel A B s) as (r & s' & Hr & _);
      [done..|lia|].
    exists r. by rewrite Hr.
  - intros Hk. destruct fuel as [|fuel]; [lia|]. by apply related_hit.
  - intros Hm k Hk Ha Hb Hsc Hself.
    destruct fuel as [|fuel]; [lia|].
    rewrite (related_miss_memoize ir co _ _ _ _ Hk). fold k. unfold memoize.
    rewrite relatedCheck_shortcut, Hsc, Ha, Hb.
    pose proof (pairKey_members Vs A B HA HB) as [Hk1 Hk2].
    pose proof (pairKey_ordered A B) as Hord.
    pose proof (slack_pending Vs _ _ (pairKey_universe Vs A B HA HB) Hk) as Hlt.
    fold k in Hk1, Hk2, Hord, Hlt.
    assert (pairKey k.1 k.2 = k) as Hkk
      by (rewrite pairKey_sorted; [by destruct k|done]).
    assert (forall X Y s', pairKey X Y = k -> extends (pending k s) s' ->
              related ir co fuel X Y s' = (Ok true, s')) as Hhit.
    { intros X Y s' HXY (Hf & _). destruct fuel as [|fuel]; [lia|].
      apply related_hit. rewrite HXY. apply Hf. simpl. apply lookup_insert_eq. }
    assert (forall x Y s', x ∈ Vs -> Y ∈ Vs -> extends (pending k s) s' ->
              exists r s'', related ir co fuel x Y s' = (Ok r, s'') /\
                            extends s' s'') as Hret.
    { intros x Y s' Hx HY Hs'.
      apply (related_returns ir co Vs Hcl); try done.
      apply (slack_extends Vs) in Hs'. lia. }
    destruct Hcl as (_ & Hphi & _).
    assert (forall PN X Y, kind ir X = Phi PN -> X ∈ Vs -> Y ∈ Vs ->
              pairKey X Y = k -> (exists bb, (X, bb) ∈ incoming PN) ->
              exists s2, relatedSources (related ir co fuel) (incoming PN) ∅ Y
                           (pending k s) = (Ok true, s2)) as Hloop.
    { intros PN X Y KX HX HY HXY Hin.
      apply (relatedSources_self _ X Y (pending k s));
        [|
         |done|set_solver|apply extends_refl].
      - intros s' Hs'. by apply Hhit.
      - intros x bb s' Hx Hs'. apply Hret; [|done..].
        by apply (Hphi X PN x bb). }
    unfold selfReferential in Hself. unfold decompose.
    destruct (kind ir k.1) as [| | | |PN| | |] eqn:K1; simpl;
      try (destruct Hself as (PN & bb & K2 & Hin); rewrite K2; simpl;
           unfold relatedPHI; rewrite K1; simpl;
           destruct (Hloop PN k.2 k.1) as [s2 Hs2];
             [done|done|done|by rewrite pairKey_comm|by exists bb|];
           by rewrite Hs2).
    destruct Hself as [Hin Hblock].
    unfold relatedPHI.
    destruct (Hloop PN k.1 k.2) as [s2 Hs2]; try done.
    destruct (kind ir k.2) as [| | | |PNB| | |] eqn:K2; simpl;
      try by rewrite Hs2.
    destruct (N.eqb_spec (getParent PNB) (getParent PN)) as [Heq|_].
    { by destruct (Hblock PNB). }
    by rewrite Hs2.
Qed.

Lemma related_terminates_witness :
  (related irLoop coMay 21 10 20 fresh).1 <> OutOfFuel /\
  (related irLoop coMay 21 10 20 fresh).1 = Ok true /\
  (related irLoop coMay 21 10 3 fresh).1 = Ok true.
Proof.
  assert (closedUniverse irLoop coMay {[1; 3; 10; 20]}%N) as Hcl
    by (apply closedUniverseb_sound; by vm_compute).
  assert (edgesMatch irLoop {[1; 3; 10; 20]}%N) as Hm
    by (apply edgesMatchb_sound; by vm_compute).
  destruct (related_terminates irLoop coMay {[1; 3; 10; 20]}%N 21 10 20 fresh)
    as ((Hfuel & _) & _ & Hself); [done|set_solver|set_solver|vm_compute; lia|].
  destruct (related_terminates irLoop coMay {[1; 3; 10; 20]}%N 21 10 3 fresh)
    as (_ & _ & Hself'); [done|set_solver|set_solver|vm_compute; lia|].
  split_and!; [done| |].
  - apply Hself; try by vm_compute. split.
    + exists 8%N. simpl. left.
    + by vm_compute.
  - apply Hself'; try by vm_compute.
    exists (mkPHI 7 [(10, 8); (1, 9)])%N, 8%N. split; [by vm_compute|]. simpl. left.
Defined.

(** ** Memoization *)

Lemma trace_wf_insert l k : trace_wf l -> EvInsert k ∈ l -> (k.1 <= k.2)%N.
Proof.
  induction l as [|e l IH]; simpl.
  { intros _ H. by apply elem_of_nil in H. }
  intros [Hwf He] Hin. apply elem_of_cons in Hin as [<-|Hin]; [apply He|auto].
Qed.

Lemma about_elem k e (l : list Event) :
  e ∈ filter (fun e => about k e) l -> e ∈ l /\ about k e = true.
Proof.
  rewrite list_elem_of_filter. intros [H ?]. split; [done|].
  by apply Is_true_true_1.
Qed.

Lemma trace_wf_shape (l : list Event) k :
  trace_wf l ->
  let h := filter (fun e => about k e) l in
  h = [] \/ h = [EvInsert k] \/ h = [EvCheck k; EvInsert k] \/
  exists r, h = [EvAssign k r; EvCheck k; EvInsert k].
Proof.
  induction l as [|e l IH]; simpl; [by left|].
  intros [Hwf He]. specialize (IH Hwf). simpl in IH.
  destruct (about k e) eqn:Hab.
  2:{ rewrite filter_cons_False; [exact IH|]. by apply Is_true_false_2. }
  rewrite filter_cons_True by (by apply Is_true_true_2).
  assert (forall x, about k x = true -> x ∈ l ->
            x ∈ filter (fun e => about k e) l) as Hmem.
  { intros x Hx Hin. apply list_elem_of_filter.
    split; [by apply Is_true_true_2|done]. }
  destruct e as [k'|k'|k' r|v]; simpl in Hab; [| | |done];
    apply bool_decide_eq_true in Hab as ->.
  - destruct He as [_ Hni].
    assert (EvInsert k ∉ filter (fun e => about k e) l) as Hni'
      by (intros [? _]%about_elem; done).
    destruct IH as [->|[H|[H|[r H]]]]; [by right; left|..];
      rewrite H in Hni'; destruct Hni'; set_solver.
  - destruct He as [Hi Hnc].
    assert (EvCheck k ∉ filter (fun e => about k e) l) as Hnc'
      by (intros [? _]%about_elem; done).
    apply Hmem in Hi; [|by apply bool_decide_eq_true].
    destruct IH as [H|[->|[H|[r H]]]]; [|by right; right; left|..];
      rewrite H in Hi, Hnc'; [by apply elem_of_nil in Hi|..];
      destruct Hnc'; set_solver.
  - destruct He as [Hc Hna].
    assert (forall r', EvAssign k r' ∉ filter (fun e => about k e) l) as Hna'.
    { intros r' [? _]%about_elem. by apply (Hna r'). }
    apply Hmem in Hc; [|by apply bool_decide_eq_true].
    destruct IH as [H|[H|[->|[r' H]]]]; [..|by right; right; right; exists r|];
      rewrite H in Hc; [set_solver..|].
    destruct (Hna' r'). rewrite H. left.
Qed.

Lemma filter_absent {A} (P : A -> Prop) `{forall x, Decision (P x)} (l : list A) :
  (forall x, x ∈ l -> ~ P x) -> filter P l = [].
Proof.
  induction l as [|x l IH]; [done|]. intros Hno.
  rewrite filter_cons_False by (apply Hno; left).
  apply IH. intros y Hy. apply Hno. by right.
Qed.

Lemma trace_wf_runs (l : list Event) k : trace_wf l -> runsOf k l <= 1.
Proof.
  unfold runsOf. induction l as [|e l IH]; simpl; [lia|].
  intros [Hwf He]. specialize (IH Hwf).
  destruct (decide (e = EvCheck k)) as [->|Hne].
  - rewrite filter_cons_True by done. destruct He as [_ Hnc].
    rewrite filter_absent; [simpl; lia|]. by intros x Hx ->.
  - by rewrite filter_cons_False.
Qed.

Lemma trace_wf_writes (l : list Event) k : trace_wf l -> writesOf k l <= 2.
Proof.
  intros Hwf. unfold writesOf.
  assert (forall h,
            h = [] \/ h = [EvInsert k] \/ h = [EvCheck k; EvInsert k] \/
            (exists r, h = [EvAssign k r; EvCheck k; EvInsert k]) ->
            length (filter (fun e => isWrite k e) h) <= 2) as Hshape.
  { intros h [->|[->|[->|[r ->]]]]; simpl; [lia|..].
    - rewrite filter_cons; simpl. case_decide; simpl; lia.
    - rewrite !filter_cons; simpl. repeat case_decide; simpl; lia.
    - rewrite !filter_cons; simpl. repeat case_decide; simpl; lia. }
  assert (filter (fun e => isWrite k e) (filter (fun e => about k e) l)
          = filter (fun e => isWrite k e) l) as <-.
  { clear. induction l as [|e l IH]; [done|].
    destruct (isWrite k e) eqn:Hw.
    - assert (about k e = true) as Ha by (by destruct e).
      rewrite (filter_cons_True (fun e => about k e))
        by (by apply Is_true_true_2).
      rewrite !(filter_cons_True (fun e => isWrite k e))
        by (by apply Is_true_true_2).
      by rewrite IH.
    - rewrite (filter_cons_False (fun e => isWrite k e) e l)
        by (by apply Is_true_false_2).
      rewrite <- IH. destruct (about k e) eqn:Ha.
      + rewrite (filter_cons_True (fun e => about k e))
          by (by apply Is_true_true_2).
        by rewrite filter_cons_False by (by apply Is_true_false_2).
      + by rewrite (filter_cons_False (fun e => about k e))
          by (by apply Is_true_false_2). }
  by apply Hshape, trace_wf_shape.
Qed.

(** C5: on one analysis instance, for any sequence of queries and every
    pair [k], the events about the slot of [k] are, in this order, at most
    one pending insert, one run of [relatedCheck] and one final overwrite:
    [relatedCheck] runs at most once, the slot is written at most twice,
    and only address-ordered pairs have a slot, so an unordered pair has
    one slot.  The pending insert writes [true]: after any sequence of
    queries, also one that a failed assertion or the end of the fuel has
    cut short in the middle of a computation, every slot that has not had
    its final overwrite holds [true], and every slot that has had it holds
    the value that was written.  A query on a pair that has a slot, pending
    or final, returns the stored value and changes nothing; the pending
    value that a re-entrant query sees is [true]; and a query that has
    returned returns the same answer when it is repeated. *)
Theorem memoization ir co :
  (forall fuel qs k,
     let l := trace (queries ir co fuel qs fresh).2 in
     (exists r, history k l `prefix_of` [EvInsert k; EvCheck k; EvAssign k r]) /\
     runsOf k l <= 1 /\ writesOf k l <= 2 /\
     ((k.2 < k.1)%N -> history k l = [])) /\
  (forall fuel A B s r,
     CachedResults s !! pairKey A B = Some r ->
     related ir co (S fuel) A B s = (Ok r, s)) /\
  (forall fuel A B s,
     related ir co (S fuel) A B (pending (pairKey A B) s)
     = (Ok true, pending (pairKey A B) s)) /\
  (forall fuel A B s r s',
     related ir co fuel A B s = (Ok r, s') ->
     forall fuel', related ir co (S fuel') A B s' = (Ok r, s')) /\
  (forall fuel qs k,
     let s := (queries ir co fuel qs fresh).2 in
     (forall r, EvAssign k r ∈ trace s -> CachedResults s !! k = Some r) /\
     (forall v, CachedResults s !! k = Some v ->
        (forall r, EvAssign k r ∉ trace s) -> v = true)).
Proof.
  split_and!.
  - intros fuel qs k l.
    assert (trace_wf l) as Hwf.
    { pose proof (queries_extends ir co fuel qs fresh) as (_ & _ & H).
      by destruct (H (traceInv_fresh)) as [[? _] _]. }
    pose proof (trace_wf_shape l k Hwf) as Hshape. simpl in Hshape.
    split_and!.
    + unfold history.
      destruct Hshape as [->|[->|[->|[r ->]]]].
      * exists true. by exists [EvInsert k; EvCheck k; EvAssign k true].
      * exists true. by exists [EvCheck k; EvAssign k true].
      * exists true. by exists [EvAssign k true].
      * exists r. by exists [].
    + by apply trace_wf_runs.
    + by apply trace_wf_writes.
    + intros Hlt. unfold history.
      assert (EvInsert k ∉ l) as Hni.
      { intros Hin%(trace_wf_insert _ _ Hwf). lia. }
      destruct Hshape as [->|[H|[H|[r H]]]]; [done|..];
        destruct Hni;
        apply (proj1 (about_elem k (EvInsert k) l ltac:(rewrite H; set_solver))).
  - intros fuel A B s r. apply related_hit.
  - intros fuel A B s. apply related_hit. simpl. apply lookup_insert_eq.
  - intros fuel A B s r s' Hr fuel'. apply related_hit.
    by apply (related_Ok_cached ir co fuel A B s).
  - intros fuel qs k s.
    destruct (queries_keepsSlots ir co fuel qs fresh) as [_ Hs].
    destruct (Hs traceInv_fresh slotsInv_fresh) as [Hfin Htrue].
    split; [apply Hfin|].
    intros v Hv Hna. apply (Htrue k v Hv). by intros [r Hr%Hna].
Qed.

Lemma memoization_witness :
  let s := (queries irLoop coMay 5 [(10, 3); (3, 10); (10, 20); (10, 3)]%N fresh).2 in
  let s1 := (queries irLoop coMay 1 [(10, 20)]%N fresh).2 in
  history (3, 10)%N (trace s)
  = [EvInsert (3, 10)%N; EvCheck (3, 10)%N; EvAssign (3, 10)%N true] /\
  runsOf (3, 10)%N (trace s) <= 1 /\
  writesOf (3, 10)%N (trace s) <= 2 /\
  related irLoop coMay 1 10 3 s = (Ok true, s) /\
  related irLoop coMay 1 10 3 (related irLoop coMay 5 10 3 fresh).2
  = (Ok true, (related irLoop coMay 5 10 3 fresh).2) /\
  (queries irLoop coMay 1 [(10, 20)]%N fresh).1 = OutOfFuel /\
  trace s1 = [EvCheck (10, 20)%N; EvInsert (10, 20)%N] /\
  (forall v, CachedResults s1 !! (10, 20)%N = Some v -> v = true).
Proof.
  destruct (memoization irLoop coMay) as (H1 & H2 & _ & H3 & H4).
  intros s s1. split_and!.
  - by vm_compute.
  - apply (H1 5 [(10, 3); (3, 10); (10, 20); (10, 3)]%N (3, 10)%N).
  - apply (H1 5 [(10, 3); (3, 10); (10, 20); (10, 3)]%N (3, 10)%N).
  - apply (H2 0 10%N 3%N s true). by vm_compute.
  - apply (H3 5 10%N 3%N fresh true). vm_compute. reflexivity.
  - by vm_compute.
  - by vm_compute.
  - intros v Hv.
    apply (proj2 (H4 1 [(10, 20)]%N (10, 20)%N) v Hv).
    intros r Hr. by vm_compute in Hr; set_solver.
Defined.

(** * Further properties *)

(** ** Properties of completed queries *)

(** X1: between queries, whatever was asked before, a query that returns
    answers false exactly when the address-ordered pair has a derivation of
    unrelatedness, which looks at the IR and the collaborators only: a
    shortcut says false, or the escape rule applies and the detector says
    false, or the decomposition ends with false and every pair it queries has
    a derivation. *)
Theorem related_false_iff_Unrelated ir co s fuel A B r s' :
  reachable ir co s -> related ir co fuel A B s = (Ok r, s') ->
  (r = false <-> Unrelated ir co (pairKey A B).1 (pairKey A B).2).
Proof.
  intros Hs Hrel. destruct (reachable_justified ir co s Hs) as [Hfin Hq].
  destruct (related_justifies ir co fuel A B s) as [Hok _].
  - by apply (reachable_traceInv ir co).
  - done.
  - by apply quiescent_pendingAbove.
  - by destruct (Hok r s' Hrel) as (_ & _ & ?).
Qed.

Lemma related_false_iff_Unrelated_witness :
  related irMerge coCross 5 10 11 fresh
    = (Ok false, (related irMerge coCross 5 10 11 fresh).2) /\
  Unrelated irMerge coCross 10 11.
Proof.
  assert (related irMerge coCross 5 10 11 fresh
          = (Ok false, (related irMerge coCross 5 10 11 fresh).2)) as H
    by (vm_compute; reflexivity).
  split; [done|].
  by apply (related_false_iff_Unrelated irMerge coCross fresh 5 10 11 false _
              (reachable_fresh _ _) H).
Defined.

(** X2: the answer to a query does not depend on what the instance was
    asked before: two queries of one pair that return, on any two states
    between queries and with any fuel, return the same answer. *)
Theorem related_history_independent ir co s1 s2 fuel1 fuel2 A B r1 r2 s1' s2' :
  reachable ir co s1 -> reachable ir co s2 ->
  related ir co fuel1 A B s1 = (Ok r1, s1') ->
  related ir co fuel2 A B s2 = (Ok r2, s2') ->
  r1 = r2.
Proof.
  intros H1 H2 Hr1 Hr2.
  pose proof (reachable_answer ir co _ _ _ _ _ _ H1 Hr1) as Hi1.
  pose proof (reachable_answer ir co _ _ _ _ _ _ H2 Hr2) as Hi2.
  destruct r1, r2; try done.
  - by apply Hi1, Hi2.
  - symmetry. by apply Hi2, Hi1.
Qed.

Lemma related_history_independent_witness :
  let s2 := (queries irMerge coCross 5 [(12, 13); (1, 4); (11, 10)]%N fresh).2 in
  reachable irMerge coCross s2 /\
  (related irMerge coCross 5 12 13 fresh).1 = Ok true /\
  (related irMerge coCross 1 12 13 s2).1 = Ok true.
Proof.
  intros s2.
  assert (reachable irMerge coCross s2) as Hs2.
  { apply (queries_reachable irMerge coCross 5
             [(12, 13); (1, 4); (11, 10)]%N fresh [true; true; false] s2);
      [apply reachable_fresh|by vm_compute]. }
  assert (related irMerge coCross 1 12 13 s2 = (Ok true, s2)) as H2
    by (vm_compute; reflexivity).
  assert (related irMerge coCross 5 12 13 fresh
          = (Ok true, (related irMerge coCross 5 12 13 fresh).2)) as H1
    by (vm_compute; reflexivity).
  split_and!; [done|by rewrite H1|].
  rewrite H2. simpl. apply (f_equal Ok).
  exact (related_history_independent irMerge coCross fresh s2 5 1 12 13
           true true _ _ (reachable_fresh _ _) Hs2 H1 H2).
Defined.

(** X3: between queries no slot is pending: every entry of the cache has
    had its final overwrite, and it holds false exactly for the pairs that
    have a derivation of unrelatedness. *)
Theorem cache_entries_final ir co s k v :
  reachable ir co s -> CachedResults s !! k = Some v ->
  EvAssign k v ∈ trace s /\ (v = false <-> Unrelated ir co k.1 k.2).
Proof.
  intros Hs Hk. destruct (reachable_justified ir co s Hs) as [[Hfin _] Hq].
  destruct (Hq k) as [r Hr]; [by apply (elem_of_dom_2 _ _ v)|].
  destruct (Hfin k r Hr) as [Hc Hu]. by simplify_eq.
Qed.

Lemma cache_entries_final_witness :
  let s := (queries irMerge coCross 5 [(12, 13); (1, 4); (11, 10)]%N fresh).2 in
  CachedResults s !! (10, 11)%N = Some false /\
  EvAssign (10, 11)%N false ∈ trace s /\
  Unrelated irMerge coCross 10 11.
Proof.
  intros s.
  assert (reachable irMerge coCross s) as Hs.
  { apply (queries_reachable irMerge coCross 5
             [(12, 13); (1, 4); (11, 10)]%N fresh [true; true; false] s);
      [apply reachable_fresh|by vm_compute]. }
  assert (CachedResults s !! (10, 11)%N = Some false) as Hk by (by vm_compute).
  destruct (cache_entries_final irMerge coCross s (10, 11)%N false Hs Hk)
    as [Ha Hu].
  split_and!; [done|done|by apply Hu].
Defined.

(** X4: on a finite IR, with the fuel of the termination bound, a query
    between queries decides the pair: it returns false when the pair has a
    derivation of unrelatedness, and no phi without a value for an incoming
    block, anywhere in the IR, makes it fail then; and it returns true when
    the pair has none, provided the phis of one block have values for the
    same incoming blocks. *)
Theorem related_decides ir co (Vs : gset Value) fuel A B s :
  closedUniverse ir co Vs -> A ∈ Vs -> B ∈ Vs -> enoughFuel Vs <= fuel ->
  reachable ir co s ->
  (Unrelated ir co (pairKey A B).1 (pairKey A B).2 ->
   (related ir co fuel A B s).1 = Ok false) /\
  (edgesMatch ir Vs ->
   ~ Unrelated ir co (pairKey A B).1 (pairKey A B).2 ->
   (related ir co fuel A B s).1 = Ok true).
Proof.
  intros Hcl HA HB Hfuel Hs. unfold enoughFuel in Hfuel.
  pose proof (slack_bound Vs s) as Hslack.
  destruct (related_finishes ir co Vs Hcl fuel A B s HA HB) as [Hoof Hflt];
    [lia|].
  destruct (reachable_justifies ir co fuel A B s Hs) as [Hok Hnf].
  destruct (related ir co fuel A B s) as [[r| |] s'] eqn:Hr; simpl in *;
    try done.
  - destruct (Hok r s' eq_refl) as (_ & _ & Hiff). split.
    + intros Hu. f_equal. by apply Hiff.
    + intros _ Hn. f_equal. destruct r; [done|]. destruct Hn. by apply Hiff.
  - split; [by intros ?%Hnf|by intros ?%Hflt].
Qed.

Lemma related_decides_witness :
  (related irMerge coCross 133 10 11 fresh).1 = Ok false.
Proof.
  assert (closedUniverse irMerge coCross
            {[1; 2; 3; 4; 5; 6; 8; 10; 11; 12; 13]}%N) as Hcl
    by (apply closedUniverseb_sound; by vm_compute).
  assert (Unrelated irMerge coCross (pairKey 10 11).1 (pairKey 10 11).2) as Hu.
  { apply (reachable_answer irMerge coCross 5 10 11 fresh false
             (related irMerge coCross 5 10 11 fresh).2);
      [apply reachable_fresh|vm_compute; reflexivity|done]. }
  apply (related_decides irMerge coCross
           {[1; 2; 3; 4; 5; 6; 8; 10; 11; 12; 13]}%N 133 10 11 fresh);
    [done|set_solver|set_solver|vm_compute; lia|apply reachable_fresh|done].
Defined.

(** X5: two values with the same underlying object, a value and itself
    among them, are related: between queries every query on them returns
    true. *)
Theorem related_same_object ir co s fuel A B :
  reachable ir co s ->
  GetUnderlyingObjCPtr co A = GetUnderlyingObjCPtr co B ->
  (related ir co (S fuel) A B s).1 = Ok true.
Proof.
  intros Hs Hab. apply related_decided; [by apply reachable_agrees|].
  unfold shortcut, pairKey.
  destruct (B <? A)%N; simpl; by rewrite Hab, N.eqb_refl.
Qed.

Lemma related_same_object_witness :
  (related irFields coFields 1 2 3 fresh).1 = Ok true /\
  (related irLoop coMay 1 10 10 fresh).1 = Ok true.
Proof.
  split.
  - by apply (related_same_object irFields coFields fresh 0 2 3
                (reachable_fresh _ _)).
  - by apply (related_same_object irLoop coMay fresh 0 10 10
                (reachable_fresh _ _)).
Defined.

(** X6: when the oracle answers MustAlias or PartialAlias for the
    underlying objects of the address-ordered pair, every query on the pair
    between queries returns true. *)
Theorem related_MustAlias ir co s fuel A B :
  reachable ir co s ->
  alias co (GetUnderlyingObjCPtr co (pairKey A B).1)
           (GetUnderlyingObjCPtr co (pairKey A B).2) = MustAlias \/
  alias co (GetUnderlyingObjCPtr co (pairKey A B).1)
           (GetUnderlyingObjCPtr co (pairKey A B).2) = PartialAlias ->
  (related ir co (S fuel) A B s).1 = Ok true.
Proof.
  intros Hs Hal. apply related_decided; [by apply reachable_agrees|].
  unfold shortcut. destruct (_ =? _)%N; [done|].
  by destruct Hal as [-> | ->].
Qed.

Lemma related_MustAlias_witness :
  (related irMerge coCross 1 4 1 fresh).1 = Ok true.
Proof.
  apply (related_MustAlias irMerge coCross fresh 0 4 1 (reachable_fresh _ _)).
  by left.
Defined.

(** X7: the conservative default.  When no shortcut settles the pair and
    neither underlying object is a phi or a select, every query on the pair
    between queries returns true. *)
Theorem related_conservative_default ir co s fuel A B :
  let a := GetUnderlyingObjCPtr co (pairKey A B).1 in
  let b := GetUnderlyingObjCPtr co (pairKey A B).2 in
  reachable ir co s ->
  shortcut ir co (pairKey A B).1 (pairKey A B).2 = None ->
  dyn_cast_PHINode (kind ir a) = None ->
  dyn_cast_PHINode (kind ir b) = None ->
  dyn_cast_SelectInst (kind ir a) = None ->
  dyn_cast_SelectInst (kind ir b) = None ->
  (related ir co (S fuel) A B s).1 = Ok true.
Proof.
  intros a b Hs Hsc Ha Hb Ha' Hb'.
  destruct (CachedResults s !! pairKey A B) as [v|] eqn:Hk.
  - pose proof (related_hit ir co fuel A B s v Hk) as Hr. rewrite Hr. simpl.
    f_equal. destruct v; [done|].
    destruct (Unrelated_fallback ir co _ _ Hsc).
    + unfold plan. fold a b. by rewrite Ha, Hb, Ha', Hb'.
    + by apply (reachable_answer ir co (S fuel) A B s false s Hs Hr).
  - rewrite (related_miss ir co _ _ _ _ Hk). simpl.
    rewrite relatedCheck_shortcut, Hsc. unfold decompose. fold a b.
    by rewrite Ha, Hb, Ha', Hb'.
Qed.

Lemma related_conservative_default_witness :
  (related irLoop coMay 1 1 20 fresh).1 = Ok true.
Proof.
  by apply (related_conservative_default irLoop coMay fresh 0 1 20
              (reachable_fresh _ _)).
Defined.

(** X8: the answer to a query that reaches the structural decomposition
    with one operand a phi and the other one not a phi of its block (and,
    when the phi is the second operand of the address-ordered pair, not a
    phi at all) is the disjunction, over the incoming values of the phi, of
    the answers to the queries of the incoming value against the other
    operand; that a value comes in for several blocks makes no
    difference. *)
Theorem phi_sources_disjunction ir co A B P O PA :
  let k := pairKey A B in
  shortcut ir co k.1 k.2 = None ->
  (GetUnderlyingObjCPtr co k.1 = P /\ GetUnderlyingObjCPtr co k.2 = O) \/
  (GetUnderlyingObjCPtr co k.1 = O /\ GetUnderlyingObjCPtr co k.2 = P /\
   dyn_cast_PHINode (kind ir O) = None) ->
  kind ir P = Phi PA ->
  (forall PNB, kind ir O = Phi PNB -> getParent PNB <> getParent PA) ->
  forall r (ans : Value -> bool),
    answer ir co A B r ->
    (forall v, v ∈ (incoming PA).*1 -> answer ir co v O (ans v)) ->
    r = existsb ans (incoming PA).*1.
Proof.
  intros k Hsc Hops KP HO r ans Hr Hans.
  assert (plan ir (GetUnderlyingObjCPtr co k.1) (GetUnderlyingObjCPtr co k.2)
          = ((fun v => (v, O)) <$> distinct (incoming PA).*1, EndFalse))
    as Hplan.
  { assert (phiPlan ir PA O
            = ((fun v => (v, O)) <$> distinct (incoming PA).*1, EndFalse))
      as Hphi.
    { unfold phiPlan.
      destruct (kind ir O) as [| | | |PNB| | |] eqn:KO; try done. simpl.
      destruct (N.eqb_spec (getParent PNB) (getParent PA)) as [Heq|]; [|done].
      by destruct (HO PNB). }
    unfold plan. destruct Hops as [[-> ->]|(-> & -> & HnO)].
    - by rewrite KP.
    - rewrite HnO, KP. done. }
  assert (existsb ans (incoming PA).*1
          = existsb id (ans <$> distinct (incoming PA).*1)) as ->.
  { apply eq_true_iff_eq. rewrite !existsb_exists. split.
    - intros (v & Hv & Hb). exists (ans v). split; [|done].
      apply list_elem_of_In, list_elem_of_fmap. exists v. split; [done|].
      by apply distinct_elem, list_elem_of_In.
    - intros (b & Hb & Hid).
      apply list_elem_of_In, list_elem_of_fmap in Hb as (v & -> & Hv).
      exists v. split; [|done]. by apply list_elem_of_In, distinct_elem. }
  apply (decomposed_answer ir co A B); fold k; try done.
  - by rewrite Hplan.
  - rewrite Hplan. simpl.
    assert (forall v, v ∈ distinct (incoming PA).*1 -> answer ir co v O (ans v))
      as Hans' by (intros v Hv; by apply Hans, distinct_elem).
    revert Hans'. generalize (distinct (incoming PA).*1). intros l.
    induction l as [|v l IH]; intros Hans'; simpl; constructor.
    + apply Hans'. left.
    + apply IH. intros v' Hv'. apply Hans'. by right.
Qed.

Lemma phi_sources_disjunction_witness :
  (forall r, answer irDup coDup 10 2 r -> r = false) /\
  (forall r, answer irDup coDup 10 4 r -> r = true).
Proof.
  assert (forall x y r,
            related irDup coDup 5 x y fresh
            = (Ok r, (related irDup coDup 5 x y fresh).2) ->
            answer irDup coDup x y r) as Hrun.
  { intros x y r H. exists fresh, 5, (related irDup coDup 5 x y fresh).2.
    split; [apply reachable_fresh|done]. }
  assert (forall v : Value, v ∈ [1; 3; 1]%N -> v = 1%N \/ v = 3%N) as Hin
    by set_solver.
  split; intros r Hr.
  - apply (phi_sources_disjunction irDup coDup 10 2 10%N 2%N
             (mkPHI 7 [(1, 8); (3, 9); (1, 6)])%N eq_refl
             ltac:(right; by vm_compute) eq_refl ltac:(done)
             r (fun _ => false) Hr).
    intros v [-> | ->]%Hin; apply Hrun; vm_compute; reflexivity.
  - apply (phi_sources_disjunction irDup coDup 10 4 10%N 4%N
             (mkPHI 7 [(1, 8); (3, 9); (1, 6)])%N eq_refl
             ltac:(right; by vm_compute) eq_refl ltac:(done)
             r (fun v => (v =? 1)%N) Hr).
    intros v [-> | ->]%Hin; apply Hrun; vm_compute; reflexivity.
Defined.

(** ** Properties of the escape detector *)

(** X9: on a finite use graph, with as much fuel as there are values, the
    escape detector returns, and it returns true exactly when some value
    that the value reaches through users that are neither stores nor calls
    has an escaping use: it is stored as the value operand of a store, or
    it is a pointer-to-integer cast with a user that is neither a store nor
    a call. *)
Theorem isStoredObjCPointer_exact ir (Vs : gset Value) fuel P :
  usersClosed ir Vs -> P ∈ Vs -> size Vs <= fuel ->
  exists r, isStoredObjCPointer ir fuel P = Some r /\
            (r = true <-> exists x, reaches ir P x /\ exposed ir x).
Proof.
  intros Hcl HP Hfuel.
  destruct (isStoredObjCPointer_terminates ir Vs fuel P Hcl HP Hfuel)
    as [r Hr].
  exists r. split; [done|]. destruct r.
  - split; [|done]. intros _. by eapply isStoredObjCPointer_true.
  - split; [done|]. intros (x & Hx & He).
    by destruct (isStoredObjCPointer_false ir fuel P Hr x).
Qed.

Lemma isStoredObjCPointer_exact_witness :
  isStoredObjCPointer irBody 1 4 = Some true /\
  exists x, reaches irBody 4 x /\ exposed irBody x.
Proof.
  destruct (isStoredObjCPointer_exact irBody {[4; 40]}%N 2 4%N)
    as (r & Hr & Hiff).
  - apply usersClosed_check. by vm_compute.
  - set_solver.
  - by vm_compute.
  - split; [done|]. apply Hiff.
    assert (isStoredObjCPointer irBody 2 4 = Some true) as H by done.
    congruence.
Defined.

(** X10: the answer of the escape detector does not depend on the order
    of the use lists, nor on how often a use is listed: on two IRs that
    give every value the same kind and the same uses, it returns the same
    answer whenever it returns on both. *)
Theorem isStoredObjCPointer_use_order ir1 ir2 fuel1 fuel2 P r1 r2 :
  (forall v, kind ir1 v = kind ir2 v) ->
  (forall v u, u ∈ uses ir1 v <-> u ∈ uses ir2 v) ->
  isStoredObjCPointer ir1 fuel1 P = Some r1 ->
  isStoredObjCPointer ir2 fuel2 P = Some r2 ->
  r1 = r2.
Proof.
  intros Hk Hu H1 H2.
  assert (forall ira irb fa fb,
            (forall v, kind ira v = kind irb v) ->
            (forall v u, u ∈ uses ira v <-> u ∈ uses irb v) ->
            isStoredObjCPointer ira fa P = Some true ->
            isStoredObjCPointer irb fb P = Some false -> False) as Hno.
  { intros ira irb fa fb Hk' Hu' Ha Hb.
    apply isStoredObjCPointer_true in Ha as (x & Hx & He).
    apply (isStoredObjCPointer_false irb fb P Hb x).
    - by apply (same_uses_reaches ira irb).
    - by apply (same_uses_exposed ira irb). }
  destruct r1, r2; try done.
  - destruct (Hno ir1 ir2 fuel1 fuel2 Hk Hu H1 H2).
  - by destruct (Hno ir2 ir1 fuel2 fuel1).
Qed.

Lemma isStoredObjCPointer_use_order_witness :
  isStoredObjCPointer irUses 2 1 = Some true /\
  isStoredObjCPointer irUsesShuffled 2 1 = Some true.
Proof.
  assert (isStoredObjCPointer irUses 2 1 = Some true) as H1 by done.
  split; [done|].
  destruct (isStoredObjCPointer irUsesShuffled 2 1) as [r2|] eqn:H2;
    [|by vm_compute in H2].
  f_equal. symmetry.
  apply (isStoredObjCPointer_use_order irUses irUsesShuffled 2 2 1%N true r2);
    try done.
  intros v u. simpl.
  destruct (decide (v = 1%N)) as [->|]; [set_solver|].
  destruct (decide (v = 2%N)) as [->|]; [set_solver|].
  by destruct v as [|[p|[p|p|]|]].
Defined.

(** X11: an escape is seen from every value upstream: when the detector
    answers true for a value that [P] reaches through users that are
    neither stores nor calls, it answers true for [P] whenever it
    returns. *)
Theorem isStoredObjCPointer_upstream ir P Q fuel fuel' r :
  reaches ir P Q ->
  isStoredObjCPointer ir fuel Q = Some true ->
  isStoredObjCPointer ir fuel' P = Some r ->
  r = true.
Proof.
  intros HPQ HQ HP. destruct r; [done|].
  apply isStoredObjCPointer_true in HQ as (x & HQx & Hx).
  destruct (isStoredObjCPointer_false ir fuel' P HP x); [|done].
  by etrans.
Qed.

Lemma isStoredObjCPointer_upstream_witness :
  isStoredObjCPointer irBody 1 20 = Some true /\
  isStoredObjCPointer irBody 3 1 = Some true.
Proof.
  split; [done|].
  destruct (isStoredObjCPointer irBody 3 1) as [r|] eqn:H; [|by vm_compute in H].
  f_equal.
  apply (isStoredObjCPointer_upstream irBody 1%N 20%N 1 3 r); try done.
  apply rtc_once. split; [by vm_compute|]. exists 0%nat. simpl. left.
Defined.

(** X12: an identified object that is stored, itself or a value it
    reaches through users that are neither stores nor calls, as the value
    operand of a store is related to a load result whenever the query
    reaches the escape rule and the rule runs the detector on the object:
    the underlying objects are different values, the oracle answers
    MayAlias for them, and it is not the case that the object is itself a
    load result while the load is an identified object at a lower address
    (the rule then runs the detector on the load instead).  Between queries
    the query then returns true. *)
Theorem stored_object_related_to_load ir co (Vs : gset Value) fuel s A B x St :
  let A' := GetUnderlyingObjCPtr co A in
  let B' := GetUnderlyingObjCPtr co B in
  reachable ir co s ->
  usersClosed ir Vs -> A' ∈ Vs -> size Vs <= fuel ->
  reaches ir A' x -> (St, 0%nat) ∈ uses ir x ->
  isaStoreInst (kind ir St) = true ->
  A' <> B' ->
  alias co (GetUnderlyingObjCPtr co (pairKey A B).1)
           (GetUnderlyingObjCPtr co (pairKey A B).2) = MayAlias ->
  IsObjCIdentifiedObject co A' = true ->
  isaLoadInst (kind ir B') = true ->
  ~ (isaLoadInst (kind ir A') = true /\
     IsObjCIdentifiedObject co B' = true /\ (B < A)%N) ->
  (related ir co (S fuel) A B s).1 = Ok true.
Proof.
  intros A' B' Hs Hcl HA Hfuel Hx Hst HSt Hne Hal HidA HldB Hswap.
  destruct (isStoredObjCPointer_terminates ir Vs fuel A' Hcl HA Hfuel)
    as [r Hr].
  assert (r = true) as ->.
  { destruct r; [done|].
    destruct (isStoredObjCPointer_false ir fuel A' Hr x Hx).
    exists (St, 0%nat). split; [done|]. by left. }
  by apply (related_escape_rule ir co s fuel A B).
Qed.

Lemma stored_object_related_to_load_witness :
  (related irBody coLocal 3 4 50 fresh).1 = Ok true.
Proof.
  apply (stored_object_related_to_load irBody coLocal {[4; 40]}%N 2 fresh
           4%N 50%N 4%N 40%N).
  all: try (by vm_compute).
  all: try (simpl; constructor; fail).
  - apply usersClosed_check. by vm_compute.
  - intros (_ & H & _). by vm_compute in H.
Defined.

(** X13: a query never drops or changes an entry that the cache holds
    when it starts, whether it returns, fails an assertion or runs out of
    fuel. *)
Theorem related_preserves_cache ir co fuel A B s j v :
  CachedResults s !! j = Some v ->
  CachedResults (related ir co fuel A B s).2 !! j = Some v.
Proof.
  destruct (related_extends ir co fuel A B s) as (Hframe & _). apply Hframe.
Qed.

Lemma related_preserves_cache_witness :
  let s := (related irMerge coCross 5 10 11 fresh).2 in
  CachedResults s !! (10, 11)%N = Some false /\
  CachedResults (related irMerge coCross 5 12 13 s).2 !! (10, 11)%N
    = Some false.
Proof.
  intros s.
  assert (CachedResults s !! (10, 11)%N = Some false) as H by (by vm_compute).
  split; [done|].
  by apply (related_preserves_cache irMerge coCross 5 12 13 s).
Defined.

(** ** Properties of the target hooks *)

(** X14: for the PPC cost model a better alignment never costs more.  Of
    two costs of one load or store, the one for the larger alignment, or
    for the unknown alignment 0, is at most the other, provided the
    product for the smaller alignment fits into 32 bits. *)
Theorem getMemoryOpCost_alignment_monotone Op LT a1 a2 AS1 AS2 c1 c2 :
  PPC.getMemoryOpCost Op LT a1 AS1 = Returns c1 ->
  PPC.getMemoryOpCost Op LT a2 AS2 = Returns c2 ->
  a2 = 0%N \/ (0 < a1 <= a2)%N ->
  (LT.1 < PPC.unsigned_max)%N ->
  (LT.1 * (LT.2 / a1) < PPC.unsigned_max)%N ->
  (c2 <= c1)%N.
Proof.
  unfold PPC.getMemoryOpCost, PPC.wrap. intros H1 H2 Ha Hfit Hnov.
  rewrite N.mul_1_r, (N.mod_small _ _ Hfit) in H1, H2.
  assert (forall a, (0 < a < LT.2)%N -> (1 <= LT.2 / a)%N) as Hq.
  { intros a Ha'. apply N.div_le_lower_bound; lia. }
  destruct Op; try done.
  all: destruct (N.eqb_spec LT.2 0) as [Hs|Hs]; simpl in H1, H2;
    [injection H1 as <-; injection H2 as <-; lia|].
  all: destruct (N.eqb_spec a1 0) as [Ha1|Ha1]; simpl in H1;
    [injection H1 as <-; assert (a2 = 0%N) as -> by lia;
     simpl in H2; injection H2 as <-; lia|].
  all: destruct (N.eqb_spec a2 0) as [Ha2|Ha2]; simpl in H2.
  all: destruct (N.ltb_spec a1 LT.2) as [Hl1|Hl1];
    injection H1 as <-; try rewrite (N.mod_small _ _ Hnov).
  all: try (injection H2 as <-; specialize (Hq a1); nia).
  all: destruct (N.ltb_spec a2 LT.2) as [Hl2|Hl2]; try lia;
    injection H2 as <-; try lia.
  all: try (specialize (Hq a1); nia).
  all: assert (LT.2 / a2 <= LT.2 / a1)%N as Hdiv
    by (apply N.div_le_compat_l; lia).
  all: etrans; [apply N.Div0.mod_le|nia].
Qed.

Lemma getMemoryOpCost_alignment_monotone_witness :
  PPC.getMemoryOpCost PPC.Instruction_Load (2, 16)%N 4 0 = Returns 8%N /\
  PPC.getMemoryOpCost PPC.Instruction_Load (2, 16)%N 8 0 = Returns 4%N /\
  (4 <= 8)%N.
Proof.
  split_and!; [done|done|].
  apply (getMemoryOpCost_alignment_monotone PPC.Instruction_Load
           (2, 16)%N 4 8 0 0 8 4 eq_refl eq_refl);
    [right; lia|by vm_compute|by vm_compute].
Defined.

(** X15: for a load or a store the PPC cost model returns for every
    alignment, the unknown alignment 0 included (nothing is divided by
    zero).  The cost is the legalization cost when the alignment is unknown
    or at least the store size; and as long as the worst case, one part per
    byte, fits into 32 bits, the cost is never less than the legalization
    cost, and never more than that worst case. *)
Theorem getMemoryOpCost_bounds Op LT Alignment AS :
  Op = PPC.Instruction_Load \/ Op = PPC.Instruction_Store ->
  (LT.1 < PPC.unsigned_max)%N ->
  exists c,
    PPC.getMemoryOpCost Op LT Alignment AS = Returns c /\
    (Alignment = 0%N \/ (LT.2 <= Alignment)%N -> c = LT.1) /\
    ((LT.1 * LT.2 < PPC.unsigned_max)%N ->
     (LT.1 <= c <= LT.1 * N.max 1 LT.2)%N).
Proof.
  unfold PPC.getMemoryOpCost, PPC.wrap. intros HOp Hfit.
  rewrite N.mul_1_r, (N.mod_small _ _ Hfit).
  assert (exists c,
    (if negb (LT.2 =? 0)%N && negb (Alignment =? 0)%N && (Alignment <? LT.2)%N
     then Returns ((LT.1 * (LT.2 / Alignment)) mod PPC.unsigned_max)%N
     else Returns LT.1) = Returns c /\
    (Alignment = 0%N \/ (LT.2 <= Alignment)%N -> c = LT.1) /\
    ((LT.1 * LT.2 < PPC.unsigned_max)%N ->
     (LT.1 <= c <= LT.1 * N.max 1 LT.2)%N)) as H.
  { destruct (N.eqb_spec LT.2 0) as [Hs|Hs]; simpl;
      [exists LT.1; split_and!; [done|done|nia]|].
    destruct (N.eqb_spec Alignment 0) as [Ha|Ha]; simpl;
      [exists LT.1; split_and!; [done|done|nia]|].
    destruct (N.ltb_spec Alignment LT.2) as [Hl|Hl];
      [|exists LT.1; split_and!; [done|done|nia]].
    eexists. split_and!; [done|lia|]. intros Hnov.
    assert (1 <= LT.2 / Alignment)%N as Hq1
      by (apply N.div_le_lower_bound; lia).
    assert (LT.2 / Alignment <= LT.2)%N as Hq2
      by (apply N.Div0.div_le_upper_bound; nia).
    rewrite N.mod_small by nia. nia. }
  by destruct HOp as [-> | ->].
Qed.

Lemma getMemoryOpCost_bounds_witness :
  exists c, PPC.getMemoryOpCost PPC.Instruction_Store (3, 16)%N 0 7 = Returns c /\
            c = 3%N.
Proof.
  destruct (getMemoryOpCost_bounds PPC.Instruction_Store (3, 16)%N 0 7)
    as (c & Hc & Heq & _); [by right|by vm_compute|].
  exists c. split; [done|]. apply Heq. by left.
Defined.

(** X16: the two PPC register hooks agree: for scalars and for vectors
    alike, a subtarget has no registers of the kind exactly when their
    width is zero, and it has 32 of them otherwise. *)
Theorem getNumberOfRegisters_width ST Vector :
  (PPC.getNumberOfRegisters ST Vector = 0%N
   <-> PPC.getRegisterBitWidth ST Vector = 0%N) /\
  (PPC.getRegisterBitWidth ST Vector <> 0%N ->
   PPC.getNumberOfRegisters ST Vector = 32%N).
Proof.
  unfold PPC.getNumberOfRegisters, PPC.getRegisterBitWidth.
  by destruct Vector, (PPC.hasAltivec ST), (PPC.isPPC64 ST).
Qed.

(** X17: whatever numbers the registers have, and with or without a frame
    pointer, the AArch64 frame register is a reserved register, and so are
    the stack pointer and the zero register. *)
Theorem getFrameRegister_reserved XSP WSP XZR WZR X29 W29 hasFP :
  AArch64.getFrameRegister XSP X29 hasFP
    ∈ AArch64.getReservedRegs XSP WSP XZR WZR X29 W29 hasFP /\
  XSP ∈ AArch64.getReservedRegs XSP WSP XZR WZR X29 W29 hasFP /\
  XZR ∈ AArch64.getReservedRegs XSP WSP XZR WZR X29 W29 hasFP.
Proof.
  unfold AArch64.getFrameRegister, AArch64.getReservedRegs.
  destruct hasFP; set_solver.
Qed.

(** X18: when the frame indices of the callee-saved registers are
    contiguous, [n] of them from [m] on, the range test of
    [eliminateFrameIndex] is exact: a frame index is taken for a
    callee-save slot exactly when it is one; with no callee-saved register
    no frame index is. *)
Theorem IsCalleeSaveOp_contiguous m n FrameIndex :
  AArch64.IsCalleeSaveOp (seqZ m n) FrameIndex = true
  <-> FrameIndex ∈ seqZ m n.
Proof.
  rewrite elem_of_seqZ. unfold AArch64.IsCalleeSaveOp.
  destruct (decide (n <= 0)%Z) as [Hn|Hn].
  { rewrite seqZ_nil by done. simpl.
    rewrite andb_true_iff, Z.leb_le, Z.leb_le. lia. }
  assert (hd 0%Z (seqZ m n) = m) as Hhd.
  { rewrite seqZ_cons by lia. done. }
  assert (List.last (seqZ m n) 0%Z = (m + n - 1)%Z) as Hlast.
  { replace n with (Z.of_nat (S (Z.to_nat (n - 1)))) at 1 by lia.
    rewrite seqZ_S, List.last_last. lia. }
  destruct (seqZ m n) as [|x l] eqn:Hl.
  { rewrite seqZ_cons in Hl by lia. done. }
  rewrite Hhd, Hlast, andb_true_iff, Z.leb_le, Z.leb_le. lia.
Qed.

(** The scale that [eliminateFrameIndex] divides the offset by. *)
Lemma eliminateFrameIndex_cases resolve BaseReg CSI MI SPAdj r :
  let ref := resolve (AArch64.getIndex MI) 0%Z
               (AArch64.IsCalleeSaveOp CSI (AArch64.getIndex MI)) in
  let Offset := (ref.1 + AArch64.getImm MI)%Z in
  let scale :=
    if AArch64.isADDxxi_lsl0_s MI then 1%Z else AArch64.OffsetScale MI in
  let lo := if AArch64.isADDxxi_lsl0_s MI then 0%Z else AArch64.MinOffset MI in
  let hi :=
    if AArch64.isADDxxi_lsl0_s MI then 4095%Z else AArch64.MaxOffset MI in
  AArch64.eliminateFrameIndex resolve BaseReg CSI MI SPAdj = Returns r ->
  AArch64.isDebugValue MI = false ->
  SPAdj = 0%Z /\ scale <> 0%Z /\
  ((r = AArch64.mkRewritten [] ref.2 (Z.quot Offset scale) /\
    Z.rem Offset scale = 0%Z /\ (lo <= Offset <= hi)%Z /\ (0 <= Offset)%Z) \/
   (r = AArch64.mkRewritten
          [AArch64.mkRegUpdate BaseReg ref.2 BaseReg Offset] BaseReg 0 /\
    ~ (Z.rem Offset scale = 0%Z /\ (lo <= Offset <= hi)%Z))).
Proof.
  intros ref Offset scale lo hi. unfold AArch64.eliminateFrameIndex.
  destruct (Z.eqb_spec SPAdj 0) as [->|]; [|done]. simpl.
  fold ref. fold Offset.
  destruct (AArch64.inInt64 Offset); [|done]. simpl.
  intros Hr Hd. rewrite Hd in Hr.
  assert ((if AArch64.isADDxxi_lsl0_s MI then (1, 0, 4095)%Z
           else (AArch64.OffsetScale MI, AArch64.MinOffset MI,
                 AArch64.MaxOffset MI)) = (scale, lo, hi)) as Hc
    by (unfold scale, lo, hi; by destruct (AArch64.isADDxxi_lsl0_s MI)).
  rewrite Hc in Hr. clear Hc.
  destruct (Z.eqb_spec scale 0) as [|Hsc]; [done|].
  destruct ((Offset =? - 2 ^ 63)%Z && (scale =? -1)%Z); [done|].
  split; [done|]. split; [done|].
  destruct (Z.eqb_spec (Z.rem Offset scale) 0) as [Hrem|Hrem]; simpl in Hr.
  - destruct (Z.ltb_spec Offset lo) as [Hlo|Hlo]; simpl in Hr.
    { injection Hr as <-. right. split; [by rewrite Z.quot_0_l|]. lia. }
    destruct (Z.ltb_spec hi Offset) as [Hhi|Hhi]; simpl in Hr.
    { injection Hr as <-. right. split; [by rewrite Z.quot_0_l|]. lia. }
    destruct (Z.ltb_spec Offset 0) as [Hneg|Hneg]; [done|].
    injection Hr as <-. left. split; [done|]. split; [done|].
    split; [lia|done].
  - injection Hr as <-. right. split; [by rewrite Z.quot_0_l|]. lia.
Qed.

(** X19: the rewrite of a frame index loses nothing of the offset.  When
    [eliminateFrameIndex] returns on an instruction that is no debug value,
    either it has emitted nothing, has put the frame register in place, and
    the immediate it has put in place, times the scale of the instruction,
    is the resolved offset plus the old immediate; or it has emitted one
    update of a new base register from the frame register by that offset,
    and has put the base register and the immediate 0 in place. *)
Theorem eliminateFrameIndex_exact resolve BaseReg CSI MI SPAdj r :
  let ref := resolve (AArch64.getIndex MI) 0%Z
               (AArch64.IsCalleeSaveOp CSI (AArch64.getIndex MI)) in
  let Offset := (ref.1 + AArch64.getImm MI)%Z in
  let scale :=
    if AArch64.isADDxxi_lsl0_s MI then 1%Z else AArch64.OffsetScale MI in
  AArch64.eliminateFrameIndex resolve BaseReg CSI MI SPAdj = Returns r ->
  AArch64.isDebugValue MI = false ->
  (AArch64.emitted r = [] /\ AArch64.newReg r = ref.2 /\
   (AArch64.newImm r * scale)%Z = Offset) \/
  (AArch64.emitted r = [AArch64.mkRegUpdate BaseReg ref.2 BaseReg Offset] /\
   AArch64.newReg r = BaseReg /\ AArch64.newImm r = 0%Z).
Proof.
  intros ref Offset scale Hr Hd.
  destruct (eliminateFrameIndex_cases resolve BaseReg CSI MI SPAdj r Hr Hd)
    as (_ & Hsc & [(-> & Hrem & _)|[-> _]]); [left|by right].
  simpl. split_and!; [done|done|].
  fold ref Offset scale in Hrem |- *.
  pose proof (Z.quot_rem Offset scale Hsc) as Hqr. lia.
Qed.

Lemma eliminateFrameIndex_exact_witness :
  let resolve := fun (fi _ : Z) (cs : bool) => ((16 * fi)%Z, 31%N) in
  let MI := AArch64.mkFrameInstr 3 8 false false 8 0 32760 in
  AArch64.eliminateFrameIndex resolve 99 [] MI 0
    = Returns (AArch64.mkRewritten [] 31 7) /\
  (7 * 8 = 16 * 3 + 8)%Z.
Proof.
  intros resolve MI. split; [done|].
  destruct (eliminateFrameIndex_exact resolve 99%N [] MI 0%Z
              (AArch64.mkRewritten [] 31 7) eq_refl eq_refl)
    as [(_ & _ & H)|(H & _)]; [exact H|done].
Defined.

(** X20: when the offsets that the instruction admits include 0, as they
    do for [ADDxxi_lsl0_s], the immediate that [eliminateFrameIndex] puts
    in place is legal for the instruction: times the scale it lies within
    the bounds of the instruction, and it is not negative. *)
Theorem eliminateFrameIndex_legal resolve BaseReg CSI MI SPAdj r :
  let scale :=
    if AArch64.isADDxxi_lsl0_s MI then 1%Z else AArch64.OffsetScale MI in
  let lo := if AArch64.isADDxxi_lsl0_s MI then 0%Z else AArch64.MinOffset MI in
  let hi :=
    if AArch64.isADDxxi_lsl0_s MI then 4095%Z else AArch64.MaxOffset MI in
  AArch64.eliminateFrameIndex resolve BaseReg CSI MI SPAdj = Returns r ->
  AArch64.isDebugValue MI = false ->
  (lo <= 0 <= hi)%Z ->
  (lo <= AArch64.newImm r * scale <= hi)%Z /\
  (0 <= AArch64.newImm r * scale)%Z.
Proof.
  intros scale lo hi Hr Hd Hzero.
  destruct (eliminateFrameIndex_cases resolve BaseReg CSI MI SPAdj r Hr Hd)
    as (_ & Hsc & [(-> & Hrem & Hin & Hpos)|[-> _]]); simpl; [|lia].
  fold scale lo hi in Hrem, Hin, Hsc |- *.
  match goal with
  | H : Z.rem ?o scale = 0%Z |- _ =>
      pose proof (Z.quot_rem o scale Hsc) as Hqr; rewrite H in Hqr;
      replace (Z.quot o scale * scale)%Z with o by lia
  end.
  lia.
Qed.

Lemma eliminateFrameIndex_legal_witness :
  let resolve := fun (fi _ : Z) (cs : bool) => ((16 * fi)%Z, 31%N) in
  let MI := AArch64.mkFrameInstr 300 8 false true 0 0 0 in
  AArch64.eliminateFrameIndex resolve 99 [] MI 0
    = Returns (AArch64.mkRewritten [AArch64.mkRegUpdate 99 31 99 4808] 99 0) /\
  (0 <= 0 * 1 <= 4095)%Z.
Proof.
  intros resolve MI. split; [done|].
  apply (eliminateFrameIndex_legal resolve 99%N [] MI 0%Z
           (AArch64.mkRewritten [AArch64.mkRegUpdate 99 31 99 4808] 99 0)
           eq_refl eq_refl).
  simpl. lia.
Defined.

Lemma toUint64_small z : (0 <= z < 2 ^ 64)%Z -> AArch64.toUint64 z = z.
Proof. intros. unfold AArch64.toUint64. by apply Z.mod_small. Qed.

Lemma toInt64_small z : (0 <= z < 2 ^ 63)%Z -> AArch64.toInt64 z = z.
Proof.
  intros Hz. unfold AArch64.toInt64.
  rewrite Z.mod_small by lia. destruct (Z.ltb_spec z (2 ^ 63)); lia.
Qed.

Lemma toInt64_negated z :
  (0 <= z < 2 ^ 63)%Z ->
  AArch64.toInt64 (AArch64.toUint64 (- z)) = (- z)%Z.
Proof.
  intros Hz. unfold AArch64.toInt64, AArch64.toUint64.
  rewrite Z.mod_mod by lia.
  destruct (decide (z = 0%Z)) as [->|Hnz]; [done|].
  replace (- z)%Z with (2 ^ 64 - z + (-1) * 2 ^ 64)%Z by lia.
  rewrite Z.mod_add by lia. rewrite Z.mod_small by lia.
  destruct (Z.ltb_spec (2 ^ 64 - z) (2 ^ 63)); lia.
Qed.

(** X21: the set-up and the tear-down of a call frame cancel.  Without a
    reserved call frame and without callee-popped bytes, when
    [eliminateCallFramePseudoInstr] returns on the set-up and on the
    destroy pseudo of one call of [n] bytes, it has emitted one stack
    pointer update for each: down and up by the same number of bytes,
    which is [n] rounded up to the next multiple of the stack alignment,
    whatever [abs] does. *)
Theorem call_frame_balanced abs (Align : N) n op1 down up :
  (0 < Align)%N -> (0 <= n)%Z -> (n + Z.of_N Align <= 2 ^ 63)%Z ->
  AArch64.eliminateCallFramePseudoInstr abs false Align
    (AArch64.mkCallFramePseudo false n op1) = Returns down ->
  AArch64.eliminateCallFramePseudoInstr abs false Align
    (AArch64.mkCallFramePseudo true n 0) = Returns up ->
  exists R,
    down = [(- R)%Z] /\ up = [R] /\
    (Z.of_N Align | R)%Z /\ (n <= R < n + Z.of_N Align)%Z.
Proof.
  intros HA Hn Hfit. unfold AArch64.eliminateCallFramePseudoInstr. simpl.
  set (A := Z.of_N Align) in *.
  assert (0 < A)%Z as HApos by lia.
  assert (2 ^ 63 < 2 ^ 64)%Z as Hpow by done.
  destruct (Z.eqb_spec A 0) as [|_]; [lia|].
  set (R := ((n + A - 1) / A * A)%Z).
  assert (n <= R < n + A)%Z as HR.
  { unfold R. pose proof (Z.div_mod (n + A - 1) A ltac:(lia)) as Hdm.
    pose proof (Z.mod_pos_bound (n + A - 1) A HApos) as Hmb. lia. }
  rewrite (toUint64_small n) by lia.
  rewrite (toUint64_small (n + A)) by lia.
  rewrite (toUint64_small (n + A - 1)) by lia. fold R.
  rewrite (toUint64_small R) by lia.
  change (AArch64.toUint64 0 =? 0)%Z with true. simpl.
  destruct (abs (AArch64.toUint64 (- R)) <? 4095)%Z; [|done].
  destruct (abs R <? 4095)%Z; [|done]. simpl.
  intros [= <-] [= <-]. exists R.
  rewrite toInt64_negated by lia. rewrite toInt64_small by lia.
  split_and!; try done; try lia.
  exists ((n + A - 1) / A)%Z. done.
Qed.

Lemma call_frame_balanced_witness :
  let abs := fun u => Z.abs (AArch64.toInt64 u) in
  AArch64.eliminateCallFramePseudoInstr abs false 16
    (AArch64.mkCallFramePseudo false 40 0) = Returns [(-48)%Z] /\
  AArch64.eliminateCallFramePseudoInstr abs false 16
    (AArch64.mkCallFramePseudo true 40 0) = Returns [48%Z] /\
  exists R, [(-48)%Z] = [(- R)%Z] /\ [48%Z] = [R].
Proof.
  intros abs. split; [done|]. split; [done|].
  destruct (call_frame_balanced abs 16 40 0 [(-48)%Z] [48%Z])
    as (R & H1 & H2 & _); try done.
  by exists R.
Defined.

(** X22: with [SPAdj] zero, the only assertion that [eliminateFrameIndex]
    can fail is the one on negative offsets, and it fails it only for an
    offset that the instruction admits: an offset that is not legal is
    moved into the base register before the check.  For [ADDxxi_lsl0_s],
    which admits no negative offset, no assertion fails. *)
Theorem eliminateFrameIndex_assertion resolve BaseReg CSI MI :
  let ref := resolve (AArch64.getIndex MI) 0%Z
               (AArch64.IsCalleeSaveOp CSI (AArch64.getIndex MI)) in
  let Offset := (ref.1 + AArch64.getImm MI)%Z in
  (AArch64.eliminateFrameIndex resolve BaseReg CSI MI 0 = AssertionFails ->
   AArch64.isDebugValue MI = false /\ AArch64.isADDxxi_lsl0_s MI = false /\
   (Offset < 0)%Z /\ Z.rem Offset (AArch64.OffsetScale MI) = 0%Z /\
   (AArch64.MinOffset MI <= Offset <= AArch64.MaxOffset MI)%Z) /\
  (AArch64.isADDxxi_lsl0_s MI = true ->
   AArch64.eliminateFrameIndex resolve BaseReg CSI MI 0 <> AssertionFails).
Proof.
  intros ref Offset.
  assert (AArch64.eliminateFrameIndex resolve BaseReg CSI MI 0 = AssertionFails ->
          AArch64.isDebugValue MI = false /\
          AArch64.isADDxxi_lsl0_s MI = false /\
          (Offset < 0)%Z /\ Z.rem Offset (AArch64.OffsetScale MI) = 0%Z /\
          (AArch64.MinOffset MI <= Offset <= AArch64.MaxOffset MI)%Z) as H.
  { unfold AArch64.eliminateFrameIndex. simpl. fold ref. fold Offset.
    destruct (AArch64.inInt64 Offset); [|done]. simpl.
    destruct (AArch64.isDebugValue MI); [done|].
    destruct (AArch64.isADDxxi_lsl0_s MI).
    - simpl. destruct ((Offset =? - 2 ^ 63)%Z && false); [done|].
      destruct (Z.eqb_spec (Z.rem Offset 1) 0); simpl; [|done].
      destruct (Z.ltb_spec Offset 0); simpl; [done|].
      destruct (Z.ltb_spec 4095 Offset); simpl; [done|].
      by destruct (Z.ltb_spec Offset 0); [lia|].
    - destruct (AArch64.OffsetScale MI =? 0)%Z; [done|].
      destruct ((Offset =? - 2 ^ 63)%Z && (AArch64.OffsetScale MI =? -1)%Z);
        [done|].
      destruct (Z.eqb_spec (Z.rem Offset (AArch64.OffsetScale MI)) 0);
        simpl; [|done].
      destruct (Z.ltb_spec Offset (AArch64.MinOffset MI)); simpl; [done|].
      destruct (Z.ltb_spec (AArch64.MaxOffset MI) Offset); simpl; [done|].
      destruct (Z.ltb_spec Offset 0); [|done].
      intros _. split_and!; try done; lia. }
  split; [done|].
  intros Hadd Hf. destruct (H Hf) as (_ & Hn & _). congruence.
Qed.
